(** * CommonsMathInterpolation.ts: a shallow embedding and its properties

    The module interpolates a sample set (x, y) by four methods (nearest
    neighbour, linear, natural cubic spline, Akima spline) and has a batch
    variant of the cubic spline.

    Numbers.  The source computes with IEEE-754 doubles.  The code is
    embedded once, over an interface [Number] of the operations it uses, and
    the interface has two instances:
      - [float], Rocq's primitive binary64 floats: what the code runs on;
      - [xnum], exact rational arithmetic extended with one [NaN]: the
        reading under which the properties "over exact arithmetic" are
        stated.  A division by zero gives [NaN] there (the model has no
        infinities), so a result that is proved to be a rational also
        proves that no division by zero happened on the way.

    Arrays.  A [Float64Array] is a [list] of numbers; a read out of range
    yields [undefined], which every arithmetic operation and comparison of
    the source turns into NaN, and a store out of range is ignored.  A
    JavaScript array with holes is a list of options.

    Integers.  Indices are [nat] where the source counts up from a
    non-negative start, and [Z] for the results of the binary search, which
    are negative for a key that is absent.  The shift [>>> 1] of the search
    works on 32 bits, so the properties that go through the search are
    stated for arrays of at most 2^31 elements.

    Errors.  The source throws [Error] objects that differ by message only;
    [error] has one constructor per kind of message.

    Closures and copies.  In the first embedding an array is a value and a
    closure is a function.  A second embedding of the constructors, on a
    store of arrays, keeps the references, the [slice()] copies and what
    each closure captures; it is proved to agree with the first. *)

From Stdlib Require Import ZArith QArith Qcanon Lia Lqa.
From Stdlib Require Import Floats.PrimFloat.
From Stdlib Require Floats.FloatAxioms Floats.SpecFloat.
From stdpp Require Import base list.

Set Default Proof Using "Type".

(* ------------------------------------------------------------------ *)
(** ** Errors and results *)

Inductive error : Set :=
  | DimensionMismatchError   (* "Dimension mismatch ..." *)
  | InsufficientPointsError  (* "Number of points is too small." / "Not enough points." *)
  | InsufficientKnotsError   (* "Not enough knots." *)
  | OrderError               (* "Non-monotonic sequence exception." *)
  | EmptyCoefficientsError   (* "Empty polynomials coefficients array" *)
  | InvalidValueError.       (* "Invalid number encountered in binary search." *)

(** [OutOfFuel] is not an outcome of the source: it is what the model of the
    one [while] loop whose termination is not structural answers when its
    budget of iterations is spent. *)
Inductive result (A : Type) : Type :=
  | Ok (a : A)
  | Throw (e : error)
  | OutOfFuel.
Arguments Ok {A} a.
Arguments Throw {A} e.
Arguments OutOfFuel {A}.

#[global] Instance result_ret : MRet result := fun A a => Ok a.
#[global] Instance result_bind : MBind result := fun A B f r =>
  match r with
  | Ok a => f a
  | Throw e => Throw e
  | OutOfFuel => OutOfFuel
  end.

(* ------------------------------------------------------------------ *)
(** ** The interface of numbers *)

Class Number (T : Type) : Type := {
  nan : T;
  zero : T;
  two : T;
  three : T;
  EPSILON : T;                      (* Number.EPSILON = 2^-52 *)
  add : T -> T -> T;
  sub : T -> T -> T;
  mul : T -> T -> T;
  div : T -> T -> T;
  abs : T -> T;                     (* Math.abs *)
  ltb : T -> T -> bool;             (* a < b *)
  leb : T -> T -> bool;             (* a <= b *)
  eqb : T -> T -> bool;             (* a == b *)
}.

(** The operations stay folded under [simpl]; they are rewritten with the
    equations of the instance at hand. *)
#[global] Arguments nan : simpl never.
#[global] Arguments zero : simpl never.
#[global] Arguments two : simpl never.
#[global] Arguments three : simpl never.
#[global] Arguments EPSILON : simpl never.
#[global] Arguments add : simpl never.
#[global] Arguments sub : simpl never.
#[global] Arguments mul : simpl never.
#[global] Arguments div : simpl never.
#[global] Arguments abs : simpl never.
#[global] Arguments ltb : simpl never.
#[global] Arguments leb : simpl never.
#[global] Arguments eqb : simpl never.

Declare Scope num_scope.
Delimit Scope num_scope with num.
Infix "+" := add : num_scope.
Infix "-" := sub : num_scope.
Infix "*" := mul : num_scope.
Infix "/" := div : num_scope.
Infix "<?" := ltb : num_scope.
Infix "<=?" := leb : num_scope.
Infix "==?" := eqb (at level 70) : num_scope.

(* ------------------------------------------------------------------ *)
(** ** The program *)

Section Program.
Context {T : Type} `{Number T}.

(** [a[i]] for a natural index. *)
Definition aref (a : list T) (i : nat) : T := default nan (a !! i).

(** [a[i]] for an integer index; a negative one is out of range too. *)
Definition arefZ (a : list T) (i : Z) : T :=
  if (i <? 0)%Z then nan else aref a (Z.to_nat i).

(** [new Float64Array(n)]. *)
Definition Float64Array (n : nat) : list T := replicate n zero.

(** [for (i = lo; i < hi; i++) body], the state passed along. *)
Definition for_up {S : Type} (lo hi : nat) (body : nat -> S -> S) (s : S) : S :=
  foldl (fun s i => body i s) s (seq lo (hi - lo)).

(** [for (j = hi - 1; j >= lo; j--) body]. *)
Definition for_down {S : Type} (lo hi : nat) (body : nat -> S -> S) (s : S) : S :=
  foldl (fun s i => body i s) s (reverse (seq lo (hi - lo))).

(** A [for] loop whose body may throw. *)
Fixpoint for_each {S : Type} (body : nat -> S -> result S) (idxs : list nat) (s : S)
  : result S :=
  match idxs with
  | [] => Ok s
  | i :: idxs' => s' ← body i s; for_each body idxs' s'
  end.

(** *** Utility functions *)

Fixpoint checkOrder_from (previous : T) (rest : list T) : result unit :=
  match rest with
  | [] => Ok tt
  | v :: rest' =>
      if (v <=? previous)%num then Throw OrderError
      else checkOrder_from v rest'
  end.

(** [previous = val[0]], then the elements from index 1 on. *)
Definition MathArrays_checkOrder (val : list T) : result unit :=
  match val with
  | [] => Ok tt
  | v0 :: rest => checkOrder_from v0 rest
  end.

(** [n >>> 1]: the operand is first taken modulo 2^32. *)
Definition ushr1 (n : Z) : Z := Z.shiftr (n mod 2 ^ 32) 1.

(** The [while] loop of the search, [fuel] iterations at most.  The test
    [midVal > key] is written [key < midVal]. *)
Fixpoint binarySearch_loop (fuel : nat) (a : list T) (key : T) (low high : Z)
  : result Z :=
  if (low <=? high)%Z then
    match fuel with
    | O => OutOfFuel
    | S fuel' =>
        let mid := ushr1 (low + high) in
        let midVal := arefZ a mid in
        if (midVal <? key)%num then binarySearch_loop fuel' a key (mid + 1) high
        else if (key <? midVal)%num then binarySearch_loop fuel' a key low (mid - 1)
        else if (midVal ==? key)%num then Ok mid
        else Throw InvalidValueError
    end
  else Ok (- (low + 1))%Z.

(** The loop is given one iteration per element: with no wrap-around in
    [>>>] the interval [low..high] loses at least one index each time, so
    the budget is never spent (see [Arrays_binarySearch_terminates]). *)
Definition Arrays_binarySearch (a : list T) (key : T) : result Z :=
  binarySearch_loop (length a) a key 0 (Z.of_nat (length a) - 1).

(** *** Polynomials *)

(** [while (n > 1 && c2[n - 1] == 0) n--]. *)
Fixpoint trimDegree (c2 : list T) (n : nat) : nat :=
  match n with
  | O => O
  | S n' =>
      match n' with
      | O => n
      | S _ => if (aref c2 n' ==? zero)%num then trimDegree c2 n' else n
      end
  end.

(** [for (i = n - 2; i >= 0; i--) v = x * v + c2[i]], entered with [k]
    iterations to go, the next one at index [k - 1]. *)
Fixpoint horner (c2 : list T) (k : nat) (x v : T) : T :=
  match k with
  | O => v
  | S i => horner c2 i x (x * v + aref c2 i)%num
  end.

Definition createPolynomialFunction (c : list T) : result (T -> T) :=
  let c2 := c in                                   (* c.slice() *)
  let n := length c2 in
  if (n =? 0)%nat then Throw EmptyCoefficientsError
  else
    let n := trimDegree c2 n in
    Ok (fun x => horner c2 (n - 1) x (aref c2 (n - 1))).

(** *** Piecewise polynomials *)

(** The segment of a search result: [if (i < 0) i = -i - 2], then the clamp
    [Math.max(0, Math.min(i, count - 1))]. *)
Definition segmentIndex (i : Z) (count : nat) : Z :=
  let i := if (i <? 0)%Z then (- i - 2)%Z else i in
  Z.max 0 (Z.min i (Z.of_nat count - 1)).

(** [polynomials[i]] is read inside its range (see [segmentIndex_range]);
    the default stands for the call of [undefined]. *)
Definition createPolynomialSplineFunction (knots : list T) (polynomials : list (T -> T))
  : result (T -> result T) :=
  let knots2 := knots in                           (* knots.slice() *)
  if (length knots2 <? 2)%nat then Throw InsufficientKnotsError
  else if negb (length knots2 - 1 =? length polynomials)%nat then Throw DimensionMismatchError
  else
    _ ← MathArrays_checkOrder knots2;
    Ok (fun x =>
      i ← Arrays_binarySearch knots2 x;
      let i := segmentIndex i (length polynomials) in
      Ok (nth (Z.to_nat i) polynomials (fun _ => nan) (x - arefZ knots2 i)%num)).

(** *** Akima *)

Definition differentiateThreePoint (xvals yvals : list T)
    (indexOfDifferentiation indexOfFirstSample indexOfSecondsample indexOfThirdSample : nat)
  : T :=
  let x0 := aref yvals indexOfFirstSample in
  let x1 := aref yvals indexOfSecondsample in
  let x2 := aref yvals indexOfThirdSample in
  let t := (aref xvals indexOfDifferentiation - aref xvals indexOfFirstSample)%num in
  let t1 := (aref xvals indexOfSecondsample - aref xvals indexOfFirstSample)%num in
  let t2 := (aref xvals indexOfThirdSample - aref xvals indexOfFirstSample)%num in
  let a := ((x2 - x0 - (t2 / t1 * (x1 - x0))) / (t2 * t2 - t1 * t2))%num in
  let b := ((x1 - x0 - a * t1 * t1) / t1)%num in
  (two * a * t + b)%num.

(** The four coefficients of segment [i]; the buffer [coefficients] is
    overwritten for every segment and the polynomial keeps its own copy. *)
Definition hermiteCoefficients (xvals yvals firstDerivatives : list T) (i : nat)
    (coefficients : list T) : list T :=
  let w := (aref xvals (i + 1) - aref xvals i)%num in
  let w2 := (w * w)%num in
  let yv := aref yvals i in
  let yvP := aref yvals (i + 1) in
  let fd := aref firstDerivatives i in
  let fdP := aref firstDerivatives (i + 1) in
  let coefficients := <[0 := yv]> coefficients in
  let coefficients := <[1 := aref firstDerivatives i]> coefficients in
  let coefficients := <[2 := ((three * (yvP - yv) / w - two * fd - fdP) / w)%num]> coefficients in
  <[3 := ((two * (yv - yvP) / w + fd + fdP) / w2)%num]> coefficients.

(** [polynomials = Array(n - 1)] is filled at the indices 0, 1, ... in
    turn: the model appends. *)
Definition interpolateHermiteSorted (xvals yvals firstDerivatives : list T)
  : result (T -> result T) :=
  let minimumLength := 2 in
  let n := length xvals in
  if negb (n =? length yvals)%nat || negb (n =? length firstDerivatives)%nat
  then Throw DimensionMismatchError
  else if (n <? minimumLength)%nat then Throw InsufficientPointsError
  else
    '(_, polynomials) ←
      for_each (fun i '(coefficients, polynomials) =>
          let coefficients := hermiteCoefficients xvals yvals firstDerivatives i coefficients in
          p ← createPolynomialFunction coefficients;
          Ok (coefficients, polynomials ++ [p]))
        (seq 0 (n - 1)) (Float64Array 4, []);
    createPolynomialSplineFunction xvals polynomials.

Definition akimaDifferences (xvals yvals : list T) (count : nat) : list T :=
  for_up 0 count (fun i differences =>
      <[i := ((aref yvals (i + 1) - aref yvals i) / (aref xvals (i + 1) - aref xvals i))%num]>
        differences)
    (Float64Array count).

Definition akimaWeights (differences : list T) (count : nat) : list T :=
  for_up 1 count (fun i weights =>
      <[i := abs (aref differences i - aref differences (i - 1))%num]> weights)
    (Float64Array count).

Definition akimaInterior (xvals differences weights : list T) (n : nat) : list T :=
  for_up 2 (n - 2) (fun i firstDerivatives =>
      let wP := aref weights (i + 1) in
      let wM := aref weights (i - 1) in
      if (abs wP <? EPSILON)%num && (abs wM <? EPSILON)%num then
        let xv := aref xvals i in
        let xvP := aref xvals (i + 1) in
        let xvM := aref xvals (i - 1) in
        <[i := (((xvP - xv) * aref differences (i - 1) + (xv - xvM) * aref differences i)
                / (xvP - xvM))%num]> firstDerivatives
      else
        <[i := ((wP * aref differences (i - 1) + wM * aref differences i) / (wP + wM))%num]>
          firstDerivatives)
    (Float64Array n).

(** The derivatives handed to the Hermite construction: the differences,
    the weights, the interior loop and the four stores at the ends. *)
Definition akimaFirstDerivatives (xvals yvals : list T) (n : nat) : list T :=
  let numberOfDiffAndWeightElements := n - 1 in
  let differences := akimaDifferences xvals yvals numberOfDiffAndWeightElements in
  let weights := akimaWeights differences numberOfDiffAndWeightElements in
  let firstDerivatives := akimaInterior xvals differences weights n in
  let firstDerivatives :=
    <[0 := differentiateThreePoint xvals yvals 0 0 1 2]> firstDerivatives in
  let firstDerivatives :=
    <[1 := differentiateThreePoint xvals yvals 1 0 1 2]> firstDerivatives in
  let firstDerivatives :=
    <[n - 2 := differentiateThreePoint xvals yvals (n - 2) (n - 3) (n - 2) (n - 1)]>
      firstDerivatives in
  <[n - 1 := differentiateThreePoint xvals yvals (n - 1) (n - 3) (n - 2) (n - 1)]>
    firstDerivatives.

Definition createAkimaSplineInterpolator (xvals yvals : list T) : result (T -> result T) :=
  let MINIMUM_NUMBER_POINTS := 5 in
  let n := length xvals in
  if negb (n =? length yvals)%nat then Throw DimensionMismatchError
  else if (n <? MINIMUM_NUMBER_POINTS)%nat then Throw InsufficientPointsError
  else
    _ ← MathArrays_checkOrder xvals;
    let firstDerivatives := akimaFirstDerivatives xvals yvals n in
    interpolateHermiteSorted xvals yvals firstDerivatives.

(** *** Cubic *)

(** The forward sweep, on the state [(mu, z)]. *)
Definition cubicForward (x y h : list T) (n : nat) : list T * list T :=
  let mu := Float64Array n in
  let z := Float64Array (n + 1) in
  let mu := <[0 := zero]> mu in
  let z := <[0 := zero]> z in
  for_up 1 n (fun i '(mu, z) =>
      let g := (two * (aref x (i + 1) - aref x (i - 1)) - aref h (i - 1) * aref mu (i - 1))%num in
      let mu := <[i := (aref h i / g)%num]> mu in
      let z := <[i := ((three * (aref y (i + 1) * aref h (i - 1)
                                 - aref y i * (aref x (i + 1) - aref x (i - 1))
                                 + aref y (i - 1) * aref h i)
                        / (aref h (i - 1) * aref h i)
                        - aref h (i - 1) * aref z (i - 1)) / g)%num]> z in
      (mu, z))
    (mu, z).

(** The back substitution, on the state [(b, c, d)]. *)
Definition cubicBackward (y h mu z : list T) (n : nat) : list T * list T * list T :=
  let b := Float64Array n in
  let c := Float64Array (n + 1) in
  let d := Float64Array n in
  let c := <[n := zero]> c in
  for_down 0 n (fun j '(b, c, d) =>
      let c := <[j := (aref z j - aref mu j * aref c (j + 1))%num]> c in
      let b := <[j := ((aref y (j + 1) - aref y j) / aref h j
                       - aref h j * (aref c (j + 1) + two * aref c j) / three)%num]> b in
      let d := <[j := ((aref c (j + 1) - aref c j) / (three * aref h j))%num]> d in
      (b, c, d))
    (b, c, d).

Definition computeCubicPolyCoefficients (x y : list T)
  : result (list T * list T * list T) :=
  if negb (length x =? length y)%nat then Throw DimensionMismatchError
  else if (length x <? 3)%nat then Throw InsufficientPointsError
  else
    let n := length x - 1 in
    _ ← MathArrays_checkOrder x;
    let h := for_up 0 n (fun i h => <[i := (aref x (i + 1) - aref x i)%num]> h)
               (Float64Array n) in
    let '(mu, z) := cubicForward x y h n in
    let z := <[n := zero]> z in
    Ok (cubicBackward y h mu z n).

(** The coefficient buffer of segment [i] of the cubic spline. *)
Definition cubicCoefficients (y b c d : list T) (i : nat) (coefficients : list T) : list T :=
  let coefficients := <[0 := aref y i]> coefficients in
  let coefficients := <[1 := aref b i]> coefficients in
  let coefficients := <[2 := aref c i]> coefficients in
  <[3 := aref d i]> coefficients.

Definition createCubicSplineInterpolator (x y : list T) : result (T -> result T) :=
  '(b, c, d) ← computeCubicPolyCoefficients x y;
  let n := length x - 1 in
  '(_, polynomials) ←
    for_each (fun i '(coefficients, polynomials) =>
        let coefficients := cubicCoefficients y b c d i coefficients in
        p ← createPolynomialFunction coefficients;
        Ok (coefficients, polynomials ++ [p]))
      (seq 0 n) (Float64Array 4, []);
  createPolynomialSplineFunction x polynomials.

(** *** Linear *)

(** The slopes [m] of the lines between the data points. *)
Definition linearSlopes (x y : list T) (n : nat) : list T :=
  for_up 0 n (fun i m =>
      <[i := ((aref y (i + 1) - aref y i) / (aref x (i + 1) - aref x i))%num]> m)
    (Float64Array n).

Definition createLinearInterpolator (x y : list T) : result (T -> result T) :=
  if negb (length x =? length y)%nat then Throw DimensionMismatchError
  else if (length x <? 2)%nat then Throw InsufficientPointsError
  else
    let n := length x - 1 in
    _ ← MathArrays_checkOrder x;
    let m := linearSlopes x y n in
    '(_, polynomials) ←
      for_each (fun i '(coefficients, polynomials) =>
          let coefficients := <[0 := aref y i]> coefficients in
          let coefficients := <[1 := aref m i]> coefficients in
          p ← createPolynomialFunction coefficients;
          Ok (coefficients, polynomials ++ [p]))
        (seq 0 n) (Float64Array 2, []);
    createPolynomialSplineFunction x polynomials.

(** *** Nearest neighbour *)

Definition createNearestNeighborInterpolator (xvals yvals : list T)
  : result (T -> result T) :=
  let xvals2 := xvals in                           (* xvals.slice() *)
  let yvals2 := yvals in                           (* yvals.slice() *)
  let n := length xvals2 in
  if negb (n =? length yvals2)%nat then Throw DimensionMismatchError
  else if (n =? 0)%nat then Ok (fun _x => Ok nan)
  else if (n =? 1)%nat then Ok (fun _x => Ok (aref yvals2 0))
  else
    _ ← MathArrays_checkOrder xvals2;
    Ok (fun x =>
      i ← Arrays_binarySearch xvals2 x;
      if (0 <=? i)%Z then Ok (arefZ yvals2 i)
      else
        let i := (- i - 1)%Z in
        if (i =? 0)%Z then Ok (aref yvals2 0)
        else if (Z.of_nat n <=? i)%Z then Ok (aref yvals2 (n - 1))
        else
          let d := (x - arefZ xvals2 (i - 1))%num in
          let w := (arefZ xvals2 i - arefZ xvals2 (i - 1))%num in
          Ok (if (d + d <? w)%num then arefZ yvals2 (i - 1) else arefZ yvals2 i)).

(** *** Cubic, the batch of queries *)

(** A JavaScript array with holes.  [arr[i] = v] extends the array with
    holes when [i] is past its end. *)
Definition js_set {A : Type} (arr : list (option A)) (i : nat) (v : A) : list (option A) :=
  if (i <? length arr)%nat then <[i := Some v]> arr
  else arr ++ replicate (i - length arr) None ++ [Some v].

(** [arr.forEach((v, i) => ...)]: the holes are skipped. *)
Definition forEach {A S : Type} (arr : list (option A))
    (callback : A -> nat -> S -> result S) (s : S) : result S :=
  for_each (fun i s =>
      match arr !! i with
      | Some (Some v) => callback v i s
      | _ => Ok s
      end)
    (seq 0 (length arr)) s.

(** The first loop: the queries are put in the bucket of their segment,
    each at its own index. *)
Definition bucketQueries (x xq : list T) (n : nat) : result (list (option (list (option T)))) :=
  for_each (fun i sampleArr =>
      idx ← Arrays_binarySearch x (aref xq i);
      let idx := Z.to_nat (segmentIndex idx n) in
      let sampleArr :=
        match sampleArr !! idx with
        | Some (Some _) => sampleArr
        | _ => js_set sampleArr idx []               (* if (!sampleArr[idx]) *)
        end in
      let bucket := default [] (mjoin (sampleArr !! idx)) in
      Ok (js_set sampleArr idx (js_set bucket i (aref xq i))))
    (seq 0 (length xq)) [].

(** In the inner callback the parameter [i] is the index of the query: it
    hides the segment's [i], and the knot subtracted is [x[i]] for that
    inner [i]. *)
Definition cubicSplineInterpolate (x y xq : list T) : result (list (option T)) :=
  '(b, c, d) ← computeCubicPolyCoefficients x y;
  let n := length x - 1 in
  sampleArr ← bucketQueries x xq n;
  '(_, results) ←
    forEach sampleArr (fun xqSubArr i '(coefficients, results) =>
        let coefficients := cubicCoefficients y b c d i coefficients in
        poly ← createPolynomialFunction coefficients;
        results ←
          forEach xqSubArr (fun xq i results =>
              Ok (js_set results i (poly (xq - aref x i)%num)))
            results;
        Ok (coefficients, results))
      (Float64Array 4, []);
  Ok results.

End Program.

(* ------------------------------------------------------------------ *)
(** ** The program on a store of arrays

    The constructors receive references to the caller's arrays and return
    closures.  To speak of later writes to the caller's arrays, the arrays
    that are passed, copied or captured live in a store: a reference is an
    index of the store, [slice] allocates a copy, and a closure is the
    record of what the source's closure captures.  The arrays that a
    constructor allocates, fills and drops (m, h, mu, z, differences, ...)
    stay values, computed as in the program above. *)

Abbreviation loc := nat.

(** The store: the arrays allocated so far, each behind its index. *)
Abbreviation store T := (list (list T)).

(** A computation on the store that may throw. *)
Definition M (T A : Type) : Type := store T -> result (A * store T).

Section Store.
Context {T : Type} `{Number T}.

Local Abbreviation M := (M T).

Definition retM {A : Type} (a : A) : M A := fun h => Ok (a, h).

Definition bindM {A B : Type} (m : M A) (k : A -> M B) : M B :=
  fun h =>
    match m h with
    | Ok (a, h') => k a h'
    | Throw e => Throw e
    | OutOfFuel => OutOfFuel
    end.

Definition throwM {A : Type} (e : error) : M A := fun _ => Throw e.

Definition liftM {A : Type} (r : result A) : M A :=
  fun h =>
    match r with
    | Ok a => Ok (a, h)
    | Throw e => Throw e
    | OutOfFuel => OutOfFuel
    end.

(** The array behind a reference. *)
Definition contents (h : store T) (l : loc) : list T := default [] (h !! l).

Definition readArray (l : loc) : M (list T) := fun h => Ok (contents h l, h).

(** [new Float64Array(...)]: the new array sits behind a fresh reference. *)
Definition newArray (a : list T) : M loc := fun h => Ok (length h, h ++ [a]).

(** [a.slice()]. *)
Definition sliceArray (l : loc) : M loc := fun h => newArray (contents h l) h.

Fixpoint forM {S : Type} (body : nat -> S -> M S) (idxs : list nat) (s : S) : M S :=
  match idxs with
  | [] => retM s
  | i :: idxs' => bindM (body i s) (forM body idxs')
  end.

(** What the closure of [createPolynomialFunction] captures: the copy [c2]
    and the degree count [n]. *)
Record polynomialClosure : Set := {
  poly_c2 : loc;
  poly_n : nat;
}.

(** The closures that the constructors return. *)
Inductive evaluator : Set :=
  | SplineFunction (knots2 : loc) (polynomials : list polynomialClosure)
  | AlwaysNaN
  | FirstValue (yvals2 : loc)
  | Nearest (xvals2 yvals2 : loc) (n : nat).

Definition createPolynomialFunction_h (c : loc) : M polynomialClosure :=
  bindM (sliceArray c) (fun c2 =>
  bindM (readArray c2) (fun arr =>
  let n := length arr in
  if (n =? 0)%nat then throwM EmptyCoefficientsError
  else retM {| poly_c2 := c2; poly_n := trimDegree arr n |})).

(** A call of a polynomial closure, in the store of the time of the call. *)
Definition callPolynomial (h : store T) (p : polynomialClosure) (x : T) : T :=
  let c2 := contents h (poly_c2 p) in
  horner c2 (poly_n p - 1) x (aref c2 (poly_n p - 1)).

Definition createPolynomialSplineFunction_h (knots : loc)
    (polynomials : list polynomialClosure) : M evaluator :=
  bindM (sliceArray knots) (fun knots2 =>
  bindM (readArray knots2) (fun arr =>
  if (length arr <? 2)%nat then throwM InsufficientKnotsError
  else if negb (length arr - 1 =? length polynomials)%nat then throwM DimensionMismatchError
  else
    bindM (liftM (MathArrays_checkOrder arr)) (fun _ =>
    retM (SplineFunction knots2 polynomials)))).

(** A call of an evaluator, in the store of the time of the call. *)
Definition call (h : store T) (f : evaluator) (x : T) : result T :=
  match f with
  | SplineFunction knots2 polynomials =>
      let knots2 := contents h knots2 in
      i ← Arrays_binarySearch knots2 x;
      let i := segmentIndex i (length polynomials) in
      Ok (match polynomials !! Z.to_nat i with
          | Some p => callPolynomial h p (x - arefZ knots2 i)%num
          | None => nan
          end)
  | AlwaysNaN => Ok nan
  | FirstValue yvals2 => Ok (aref (contents h yvals2) 0)
  | Nearest xvals2 yvals2 n =>
      let xvals2 := contents h xvals2 in
      let yvals2 := contents h yvals2 in
      i ← Arrays_binarySearch xvals2 x;
      if (0 <=? i)%Z then Ok (arefZ yvals2 i)
      else
        let i := (- i - 1)%Z in
        if (i =? 0)%Z then Ok (aref yvals2 0)
        else if (Z.of_nat n <=? i)%Z then Ok (aref yvals2 (n - 1))
        else
          let d := (x - arefZ xvals2 (i - 1))%num in
          let w := (arefZ xvals2 i - arefZ xvals2 (i - 1))%num in
          Ok (if (d + d <? w)%num then arefZ yvals2 (i - 1) else arefZ yvals2 i)
  end.

(** The stores [a[i] = v] of one block of the source, as one update of
    the array. *)
Definition updateArray (l : loc) (stores : list T -> list T) : M unit :=
  fun h => Ok (tt, <[l := stores (contents h l)]> h).

(** The loop that fills [polynomials]: the stores of iteration [i] go to
    the one buffer [coefficients], and every polynomial is made from that
    buffer. *)
Definition buildPolynomials_h (fill : nat -> list T -> list T) (width count : nat)
  : M (list polynomialClosure) :=
  bindM (newArray (Float64Array width)) (fun coefficients =>
  forM (fun i polynomials =>
      bindM (updateArray coefficients (fill i)) (fun _ =>
      bindM (createPolynomialFunction_h coefficients) (fun p =>
      retM (polynomials ++ [p]))))
    (seq 0 count) []).

Definition interpolateHermiteSorted_h (xvals yvals : loc) (firstDerivatives : list T)
  : M evaluator :=
  bindM (readArray xvals) (fun x =>
  bindM (readArray yvals) (fun y =>
  let minimumLength := 2 in
  let n := length x in
  if negb (n =? length y)%nat || negb (n =? length firstDerivatives)%nat
  then throwM DimensionMismatchError
  else if (n <? minimumLength)%nat then throwM InsufficientPointsError
  else
    bindM (buildPolynomials_h (hermiteCoefficients x y firstDerivatives) 4 (n - 1))
      (fun polynomials =>
    createPolynomialSplineFunction_h xvals polynomials))).

Definition createAkimaSplineInterpolator_h (xvals yvals : loc) : M evaluator :=
  bindM (readArray xvals) (fun x =>
  bindM (readArray yvals) (fun y =>
  let MINIMUM_NUMBER_POINTS := 5 in
  let n := length x in
  if negb (n =? length y)%nat then throwM DimensionMismatchError
  else if (n <? MINIMUM_NUMBER_POINTS)%nat then throwM InsufficientPointsError
  else
    bindM (liftM (MathArrays_checkOrder x)) (fun _ =>
    let firstDerivatives := akimaFirstDerivatives x y n in
    interpolateHermiteSorted_h xvals yvals firstDerivatives))).

Definition createCubicSplineInterpolator_h (xl yl : loc) : M evaluator :=
  bindM (readArray xl) (fun x =>
  bindM (readArray yl) (fun y =>
  bindM (liftM (computeCubicPolyCoefficients x y)) (fun '(b, c, d) =>
  let n := length x - 1 in
  bindM (buildPolynomials_h (cubicCoefficients y b c d) 4 n) (fun polynomials =>
  createPolynomialSplineFunction_h xl polynomials)))).

Definition createLinearInterpolator_h (xl yl : loc) : M evaluator :=
  bindM (readArray xl) (fun x =>
  bindM (readArray yl) (fun y =>
  if negb (length x =? length y)%nat then throwM DimensionMismatchError
  else if (length x <? 2)%nat then throwM InsufficientPointsError
  else
    let n := length x - 1 in
    bindM (liftM (MathArrays_checkOrder x)) (fun _ =>
    let m := linearSlopes x y n in
    bindM (buildPolynomials_h
             (fun i coefficients => <[1 := aref m i]> (<[0 := aref y i]> coefficients)) 2 n)
      (fun polynomials =>
    createPolynomialSplineFunction_h xl polynomials)))).

Definition createNearestNeighborInterpolator_h (xvals yvals : loc) : M evaluator :=
  bindM (sliceArray xvals) (fun xvals2 =>
  bindM (sliceArray yvals) (fun yvals2 =>
  bindM (readArray xvals2) (fun x2 =>
  bindM (readArray yvals2) (fun y2 =>
  let n := length x2 in
  if negb (n =? length y2)%nat then throwM DimensionMismatchError
  else if (n =? 0)%nat then retM AlwaysNaN
  else if (n =? 1)%nat then retM (FirstValue yvals2)
  else
    bindM (liftM (MathArrays_checkOrder x2)) (fun _ =>
    retM (Nearest xvals2 yvals2 n)))))).

(** [h'] is [h] but for the arrays behind [xl] and [yl]: what writes to
    these two arrays can make of [h]. *)
Definition differsAt (xl yl : loc) (h h' : store T) : Prop :=
  forall l, l <> xl -> l <> yl -> h' !! l = h !! l.

(** The four constructors, by name. *)
Inductive constructor : Set :=
  | NearestNeighbor
  | Linear
  | Cubic
  | Akima.

Definition construct_h (k : constructor) : loc -> loc -> M evaluator :=
  match k with
  | NearestNeighbor => createNearestNeighborInterpolator_h
  | Linear => createLinearInterpolator_h
  | Cubic => createCubicSplineInterpolator_h
  | Akima => createAkimaSplineInterpolator_h
  end.

Definition construct (k : constructor) : list T -> list T -> result (T -> result T) :=
  match k with
  | NearestNeighbor => createNearestNeighborInterpolator
  | Linear => createLinearInterpolator
  | Cubic => createCubicSplineInterpolator
  | Akima => createAkimaSplineInterpolator
  end.

(** A polynomial closure in a store stands for a function: whatever
    store it is called in, if its copy is still what it was. *)
Definition polynomialStands (h : store T) (above : loc) (p : polynomialClosure)
    (g : T -> T) : Prop :=
  above < poly_c2 p
  /\ exists c2, h !! poly_c2 p = Some c2
     /\ forall h1, h1 !! poly_c2 p = Some c2 -> forall x, callPolynomial h1 p x = g x.

(** What a constructor on the store does, against the constructor on
    values applied to the contents of the two arrays at the time of the
    call: the same error, or a closure that stands for the same function in
    every later store that kept the arrays allocated by the constructor. *)
Definition simulates (pure : result (T -> result T)) (m : M evaluator) (h : store T)
  : Prop :=
  match pure with
  | Ok g =>
      exists f h',
        m h = Ok (f, h')
        /\ length h <= length h'
        /\ (forall l, l < length h -> h' !! l = h !! l)
        /\ forall h1,
             (forall l, length h <= l -> l < length h' -> h1 !! l = h' !! l) ->
             forall q, call h1 f q = g q
  | Throw e => m h = Throw e
  | OutOfFuel => m h = OutOfFuel
  end.

End Store.

(* ------------------------------------------------------------------ *)
(** ** The two instances of numbers *)

(** *** IEEE-754 doubles *)

#[global] Instance float_Number : Number float := {|
  nan := PrimFloat.nan;
  zero := 0%float;
  two := 2%float;
  three := 3%float;
  EPSILON := 0x1p-52%float;
  add := PrimFloat.add;
  sub := PrimFloat.sub;
  mul := PrimFloat.mul;
  div := PrimFloat.div;
  abs := PrimFloat.abs;
  ltb := PrimFloat.ltb;
  leb := PrimFloat.leb;
  eqb := PrimFloat.eqb;
|}.

(** *** Exact rationals and NaN *)

Inductive xnum : Set :=
  | Fin (q : Qc)
  | NaN.

Definition xlift2 (f : Qc -> Qc -> Qc) (a b : xnum) : xnum :=
  match a, b with
  | Fin p, Fin q => Fin (f p q)
  | _, _ => NaN
  end.

Definition Qc_is (c : comparison) (p q : Qc) : bool :=
  match (p ?= q)%Qc, c with
  | Lt, Lt | Eq, Eq | Gt, Gt => true
  | _, _ => false
  end.

Definition xdiv (a b : xnum) : xnum :=
  match a, b with
  | Fin p, Fin q => if Qc_is Eq q 0%Qc then NaN else Fin (p / q)%Qc
  | _, _ => NaN
  end.

Definition xabs (a : xnum) : xnum :=
  match a with
  | Fin p => Fin (if Qc_is Lt p 0%Qc then (- p)%Qc else p)
  | NaN => NaN
  end.

(** A comparison with NaN on either side is false. *)
Definition xtest (test : Qc -> Qc -> bool) (a b : xnum) : bool :=
  match a, b with
  | Fin p, Fin q => test p q
  | _, _ => false
  end.

#[global] Instance xnum_Number : Number xnum := {|
  nan := NaN;
  zero := Fin 0%Qc;
  two := Fin (1 + 1)%Qc;
  three := Fin (1 + 1 + 1)%Qc;
  EPSILON := Fin (Q2Qc (1 # 4503599627370496));
  add := xlift2 Qcplus;
  sub := xlift2 Qcminus;
  mul := xlift2 Qcmult;
  div := xdiv;
  abs := xabs;
  ltb := xtest (Qc_is Lt);
  leb := xtest (fun p q => negb (Qc_is Gt p q));
  eqb := xtest (Qc_is Eq);
|}.

(** Strictly increasing rationals: every element is above the one before. *)
Fixpoint increasing_from (previous : Qc) (rest : list Qc) : Prop :=
  match rest with
  | [] => True
  | v :: rest' => (previous < v)%Qc /\ increasing_from v rest'
  end.

Definition strictly_increasing (xs : list Qc) : Prop :=
  match xs with
  | [] => True
  | v0 :: rest => increasing_from v0 rest
  end.

(** The index of the first element greater than the key, or the length. *)
Fixpoint insertionPoint (xs : list Qc) (key : Qc) : nat :=
  match xs with
  | [] => 0
  | v :: rest => if Qc_is Lt key v then 0 else S (insertionPoint rest key)
  end.

(** [l[i]] in a list of rationals (0 out of range). *)
Definition qref (l : list Qc) (i : nat) : Qc := default 0%Qc (l !! i).

(** The segment of a query as the specification words it: the insertion
    point minus one, clamped to the segments [0 .. length knots - 2]. *)
Definition segmentOf (knots : list Qc) (q : Qc) : nat :=
  Z.to_nat (Z.max 0 (Z.min (Z.of_nat (insertionPoint knots q) - 1)
                           (Z.of_nat (length knots) - 2))).

(** The function that [createPolynomialFunction] returns for a non-empty
    coefficient array. *)
Definition polynomialOf {T : Type} `{Number T} (c : list T) : T -> T :=
  fun x =>
    let n := trimDegree c (length c) in
    horner c (n - 1) x (aref c (n - 1)).

Definition Qcabs (p : Qc) : Qc := if Qc_is Lt p 0%Qc then (- p)%Qc else p.

(** The slope of the chord over the interval [i]. *)
Definition slope (xs ys : list Qc) (i : nat) : Qc :=
  ((qref ys (i + 1) - qref ys i) / (qref xs (i + 1) - qref xs i))%Qc.

(** Build an interpolator and query it once. *)
Definition interpolateAt {T : Type} (constructed : result (T -> result T)) (q : T)
  : result T :=
  f ← constructed; f q.

Section Specification.
Context {T : Type} `{Number T}.

(** Neither [a < b], nor [a > b], nor [a == b]. *)
Definition incomparable (a b : T) : bool :=
  negb (a <? b)%num && negb (b <? a)%num && negb (a ==? b)%num.

(** The indices that the search inspects, in order: the loop of
    [binarySearch_loop] with its visits recorded. *)
Fixpoint binarySearch_probes (fuel : nat) (a : list T) (key : T) (low high : Z)
  : list Z :=
  if (low <=? high)%Z then
    match fuel with
    | O => []
    | S fuel' =>
        let mid := ushr1 (low + high) in
        let midVal := arefZ a mid in
        mid ::
          (if (midVal <? key)%num then binarySearch_probes fuel' a key (mid + 1) high
           else if (key <? midVal)%num then binarySearch_probes fuel' a key low (mid - 1)
           else [])
    end
  else [].

Definition Arrays_probes (a : list T) (key : T) : list Z :=
  binarySearch_probes (length a) a key 0 (Z.of_nat (length a) - 1).

(** When an error is raised: a constructor never raises InvalidValueError,
    and the evaluator it returns raises nothing else. *)
Definition raisesAtConstructionOnly (constructed : result (T -> result T)) : Prop :=
  (forall e, constructed = Throw e -> e <> InvalidValueError)
  /\ (forall f q e, constructed = Ok f -> f q = Throw e -> e = InvalidValueError).

End Specification.

(** The widths [h[i] = x[i+1] - x[i]]. *)
Definition widths (xs : list Qc) : list Qc :=
  (fun i => (qref xs (i + 1) - qref xs i)%Qc) <$> seq 0 (length xs - 1).

(** What ties the coefficients of the natural spline together: [b] and [d]
    of every interval in terms of the [c] at its two ends. *)
Definition cubic_relations (xs ys bq cq dq : list Qc) : Prop :=
  length bq = length xs - 1 /\ length cq = length xs /\ length dq = length xs - 1
  /\ forall j, j + 1 < length xs ->
       qref bq j
       = ((qref ys (j + 1) - qref ys j) / (qref xs (j + 1) - qref xs j)
          - (qref xs (j + 1) - qref xs j) * (qref cq (j + 1) + (1 + 1) * qref cq j)
            / (1 + 1 + 1))%Qc
       /\ qref dq j
          = ((qref cq (j + 1) - qref cq j) / ((1 + 1 + 1) * (qref xs (j + 1) - qref xs j)))%Qc.

(** Horner's value of a cubic with constant term [y]. *)
Definition cubicValue (y b c d t : Qc) : Qc := (t * (t * (t * d + c) + b) + y)%Qc.

(** The two higher coefficients of the Hermite cubic of an interval of
    width [w]. *)
Definition hermite2 (y yP fd fdP w : Qc) : Qc :=
  (((1 + 1 + 1) * (yP - y) / w - (1 + 1) * fd - fdP) / w)%Qc.

Definition hermite3 (y yP fd fdP w : Qc) : Qc :=
  (((1 + 1) * (y - yP) / w + fd + fdP) / (w * w))%Qc.

(** [arr[i]] of a JavaScript array, [None] at a hole and past the end. *)
Definition js_get {A : Type} (arr : list (option A)) (i : nat) : option A :=
  mjoin (arr !! i).

(** [sampleArr[s][j]]. *)
Definition js_get2 {A : Type} (arr : list (option (list (option A)))) (s j : nat)
  : option A :=
  js_get arr s ≫= fun bucket => js_get bucket j.

(** *** Vocabulary of the further properties *)

(** c[0] t^i + c[1] t^(i+1) + ...: the sum of the monomials. *)
Fixpoint monomialSum (cs : list Qc) (t : Qc) (i : nat) : Qc :=
  match cs with
  | [] => 0
  | c :: cs' => c * t ^ i + monomialSum cs' t (S i)
  end%Qc.

(** The least number of points that a constructor accepts: the bounds
    [n < 5], [x.length < 2] and [x.length < 3] of the source; the nearest
    neighbour interpolator has none. *)
Definition minimumPoints (k : constructor) : nat :=
  match k with
  | NearestNeighbor => 0
  | Linear => 2
  | Cubic => 3
  | Akima => 5
  end.

(** The derivative in [t] of [cubicValue y b c d t]. *)
Definition cubicSlope (b c d t : Qc) : Qc :=
  (b + (1 + 1) * c * t + (1 + 1 + 1) * d * t * t)%Qc.

(** The second derivative in [t] of [cubicValue y b c d t]. *)
Definition cubicBend (c d t : Qc) : Qc :=
  ((1 + 1) * c + (1 + 1) * (1 + 1 + 1) * d * t)%Qc.

(** The derivative at [x[i0]] of the parabola through the samples
    [i1], [i2], [i3], as [differentiateThreePoint] computes it. *)
Definition threePoint (xs ys : list Qc) (i0 i1 i2 i3 : nat) : Qc :=
  (let t := qref xs i0 - qref xs i1 in
   let t1 := qref xs i2 - qref xs i1 in
   let t2 := qref xs i3 - qref xs i1 in
   let a := (qref ys i3 - qref ys i1 - (t2 / t1 * (qref ys i2 - qref ys i1)))
            / (t2 * t2 - t1 * t2) in
   let b := (qref ys i2 - qref ys i1 - a * t1 * t1) / t1 in
   (1 + 1) * a * t + b)%Qc.

(** The pivot [g] of iteration [i] of the forward sweep. *)
Definition sweepPivot (xs muq : list Qc) (i : nat) : Qc :=
  ((1 + 1) * (qref xs (i + 1) - qref xs (i - 1))
   - (qref xs i - qref xs (i - 1)) * qref muq (i - 1))%Qc.

(** The right-hand side of iteration [i] of the forward sweep. *)
Definition sweepRhs (xs ys : list Qc) (i : nat) : Qc :=
  ((1 + 1 + 1) * (qref ys (i + 1) * (qref xs i - qref xs (i - 1))
                  - qref ys i * (qref xs (i + 1) - qref xs (i - 1))
                  + qref ys (i - 1) * (qref xs (i + 1) - qref xs i))
   / ((qref xs i - qref xs (i - 1)) * (qref xs (i + 1) - qref xs i)))%Qc.

(** What iteration [i] of the forward sweep stores. *)
Definition forwardStep (xs ys muq zq : list Qc) (i : nat) : Prop :=
  sweepPivot xs muq i <> 0%Qc
  /\ qref muq i = ((qref xs (i + 1) - qref xs i) / sweepPivot xs muq i)%Qc
  /\ qref zq i
     = ((sweepRhs xs ys i - (qref xs i - qref xs (i - 1)) * qref zq (i - 1))
        / sweepPivot xs muq i)%Qc.

(** The two sweeps of the solver, index by index. *)
Definition cubic_sweeps (xs ys muq zq cq : list Qc) : Prop :=
  qref muq 0 = 0%Qc /\ qref zq 0 = 0%Qc /\ qref cq (length xs - 1) = 0%Qc
  /\ (forall i, 1 <= i -> i + 1 < length xs -> forwardStep xs ys muq zq i)
  /\ (forall j, j + 1 < length xs ->
        qref cq j = (qref zq j - qref muq j * qref cq (j + 1))%Qc).

(** The slopes of the chords: the array [differences] of the Akima
    construction. *)
Definition slopes (xs ys : list Qc) : list Qc := slope xs ys <$> seq 0 (length xs - 1).

(** [weights[i]], for [i] from 1 on. *)
Definition akimaWeight (xs ys : list Qc) (i : nat) : Qc :=
  Qcabs (slope xs ys i - slope xs ys (i - 1)).

(** Akima's derivative at the interior point [i]. *)
Definition akimaSlope (xs ys : list Qc) (i : nat) : Qc :=
  let wP := akimaWeight xs ys (i + 1) in
  let wM := akimaWeight xs ys (i - 1) in
  if Qc_is Lt wP (Q2Qc (1 # 4503599627370496)) && Qc_is Lt wM (Q2Qc (1 # 4503599627370496))
  then (((qref xs (i + 1) - qref xs i) * slope xs ys (i - 1)
         + (qref xs i - qref xs (i - 1)) * slope xs ys i)
        / (qref xs (i + 1) - qref xs (i - 1)))%Qc
  else ((wP * slope xs ys (i - 1) + wM * slope xs ys i) / (wP + wM))%Qc.

(** The derivatives that the Akima constructor hands to the Hermite
    construction. *)
Definition akimaDerivative (xs ys : list Qc) (i : nat) : Qc :=
  let n := length xs in
  if (i =? n - 1)%nat then threePoint xs ys (n - 1) (n - 3) (n - 2) (n - 1)
  else if (i =? n - 2)%nat then threePoint xs ys (n - 2) (n - 3) (n - 2) (n - 1)
  else if (i =? 1)%nat then threePoint xs ys 1 0 1 2
  else if (i =? 0)%nat then threePoint xs ys 0 0 1 2
  else akimaSlope xs ys i.

(** The array [weights] on rationals. *)
Definition akimaWeightsQ (xs ys : list Qc) : list Qc :=
  (fun i => if (1 <=? i)%nat then akimaWeight xs ys i else 0%Qc) <$> seq 0 (length xs - 1).

(* ------------------------------------------------------------------ *)
(** ** Facts about the numbers *)

Lemma Qc_is_Lt p q : Qc_is Lt p q = true <-> (p < q)%Qc.
Proof.
  unfold Qc_is. rewrite Qclt_alt. destruct (p ?= q)%Qc; intuition congruence.
Qed.

Lemma Qc_is_Eq p q : Qc_is Eq p q = true <-> p = q.
Proof.
  unfold Qc_is. rewrite Qceq_alt. destruct (p ?= q)%Qc; intuition congruence.
Qed.

Lemma Qc_is_Gt p q : Qc_is Gt p q = true <-> (q < p)%Qc.
Proof.
  unfold Qc_is. rewrite (Qcgt_alt p q). destruct (p ?= q)%Qc; intuition congruence.
Qed.

Lemma Qc_is_Lt_false p q : Qc_is Lt p q = false <-> (q <= p)%Qc.
Proof.
  rewrite <- not_true_iff_false, Qc_is_Lt. split.
  - apply Qcnot_lt_le.
  - intros Hle Hlt. exact (Qcle_not_lt _ _ Hle Hlt).
Qed.

Lemma Qc_is_Eq_false p q : Qc_is Eq p q = false <-> p <> q.
Proof. rewrite <- not_true_iff_false, Qc_is_Eq. tauto. Qed.

Lemma Qc_trichotomy p q : Qc_is Lt p q = false -> Qc_is Lt q p = false -> p = q.
Proof.
  rewrite !Qc_is_Lt_false. intros. by apply Qcle_antisym.
Qed.

(* ------------------------------------------------------------------ *)
(** ** Arrays of rationals and the binary search *)


Lemma aref_Fin (l : list Qc) (i : nat) :
  i < length l -> aref (Fin <$> l) i = Fin (qref l i).
Proof.
  intros Hi. unfold aref, qref. rewrite list_lookup_fmap.
  destruct (lookup_lt_is_Some_2 l i Hi) as [v ->]. reflexivity.
Qed.

Lemma aref_Fin_lookup (l : list Qc) (i : nat) v :
  l !! i = Some v -> aref (Fin <$> l) i = Fin v.
Proof. intros Hv. unfold aref. by rewrite list_lookup_fmap, Hv. Qed.

Lemma arefZ_Fin_lookup (l : list Qc) (i : Z) v :
  (0 <= i)%Z -> l !! Z.to_nat i = Some v -> arefZ (Fin <$> l) i = Fin v.
Proof.
  intros Hi Hv. unfold arefZ.
  destruct (Z.ltb_spec i 0); [lia|]. by apply aref_Fin_lookup.
Qed.

Lemma increasing_from_lookup rest : forall previous k v,
  increasing_from previous rest -> rest !! k = Some v -> (previous < v)%Qc.
Proof.
  induction rest as [|w rest IH]; intros previous k v Hinc Hk; [done|].
  destruct Hinc as [Hw Hinc]. destruct k as [|k]; simpl in Hk.
  - by inversion Hk; subst.
  - eapply Qclt_trans; [exact Hw|]. by eapply IH.
Qed.

Lemma strictly_increasing_lookup xs : forall i j a b,
  strictly_increasing xs -> i < j -> xs !! i = Some a -> xs !! j = Some b -> (a < b)%Qc.
Proof.
  induction xs as [|w xs IH]; intros i j a b Hinc Hij Hi Hj; [done|].
  destruct j as [|j]; [lia|]. simpl in Hj. destruct i as [|i]; simpl in Hi.
  - inversion Hi; subst. by eapply increasing_from_lookup.
  - eapply (IH i j); eauto with lia.
    destruct xs as [|w' xs]; [done|]. by destruct Hinc.
Qed.

Lemma ushr1_half (low high : Z) :
  (0 <= low)%Z -> (low <= high)%Z -> (high < 2 ^ 31)%Z ->
  (low <= ushr1 (low + high) <= high)%Z.
Proof.
  intros. unfold ushr1. rewrite Z.mod_small by lia.
  rewrite Z.shiftr_div_pow2 by lia. change (2 ^ 1)%Z with 2%Z.
  split; [apply Z.div_le_lower_bound | apply Z.div_le_upper_bound]; lia.
Qed.

Lemma ltb_Fin p q : (Fin p <? Fin q)%num = Qc_is Lt p q.
Proof. reflexivity. Qed.
Lemma eqb_Fin p q : (Fin p ==? Fin q)%num = Qc_is Eq p q.
Proof. reflexivity. Qed.
Lemma leb_Fin p q : (Fin p <=? Fin q)%num = negb (Qc_is Gt p q).
Proof. reflexivity. Qed.

Lemma binarySearch_loop_unfold {T} `{Number T} fuel (a : list T) key low high :
  binarySearch_loop fuel a key low high =
  if (low <=? high)%Z then
    match fuel with
    | O => OutOfFuel
    | S fuel' =>
        let mid := ushr1 (low + high) in
        let midVal := arefZ a mid in
        if (midVal <? key)%num then binarySearch_loop fuel' a key (mid + 1) high
        else if (key <? midVal)%num then binarySearch_loop fuel' a key low (mid - 1)
        else if (midVal ==? key)%num then Ok mid
        else Throw InvalidValueError
    end
  else Ok (- (low + 1))%Z.
Proof. destruct fuel; reflexivity. Qed.

Section Termination.
Context {T : Type} `{Number T}.

(** The budget of the search is enough on every array, sorted or not, as
    long as [>>>] does not wrap: the interval shrinks at every probe. *)
Lemma binarySearch_loop_terminates (fuel : nat) : forall (a : list T) key low high,
  (0 <= low)%Z -> (high < 2 ^ 31)%Z -> (high - low + 1 <= Z.of_nat fuel)%Z ->
  binarySearch_loop fuel a key low high <> OutOfFuel.
Proof.
  induction fuel as [|fuel IH]; intros a key low high Hlow Hhigh Hfuel;
    rewrite binarySearch_loop_unfold; destruct (Z.leb_spec low high) as [Hle|Hgt];
    try done; [lia|].
  pose proof (ushr1_half low high Hlow Hle Hhigh) as Hmid. cbv zeta.
  destruct (_ <? _)%num; [apply IH; lia|].
  destruct (_ <? _)%num; [apply IH; lia|].
  by destruct (_ ==? _)%num.
Qed.

Lemma Arrays_binarySearch_terminates (a : list T) key :
  (Z.of_nat (length a) <= 2 ^ 31)%Z -> Arrays_binarySearch a key <> OutOfFuel.
Proof. intros Hlen. apply binarySearch_loop_terminates; lia. Qed.

End Termination.


(** The search over strictly increasing rationals: an index holding the
    key, or the boundary between the elements below and above it. *)
Lemma binarySearch_loop_spec (xs : list Qc) (q : Qc) :
  strictly_increasing xs -> (Z.of_nat (length xs) <= 2 ^ 31)%Z ->
  forall (fuel : nat) (low high : Z),
    (0 <= low)%Z -> (high < Z.of_nat (length xs))%Z -> (low <= high + 1)%Z ->
    (high - low + 1 <= Z.of_nat fuel)%Z ->
    (forall k v, (Z.of_nat k < low)%Z -> xs !! k = Some v -> (v < q)%Qc) ->
    (forall k v, (high < Z.of_nat k)%Z -> xs !! k = Some v -> (q < v)%Qc) ->
    (exists j, binarySearch_loop fuel (Fin <$> xs) (Fin q) low high = Ok (Z.of_nat j)
               /\ xs !! j = Some q)
    \/ (exists p, binarySearch_loop fuel (Fin <$> xs) (Fin q) low high = Ok (- (Z.of_nat p + 1))%Z
               /\ p <= length xs
               /\ (forall k v, k < p -> xs !! k = Some v -> (v < q)%Qc)
               /\ (forall k v, p <= k -> xs !! k = Some v -> (q < v)%Qc)).
Proof.
  intros Hinc Hlen fuel. induction fuel as [|fuel IH]; intros low high Hlow Hhigh Hlh Hfuel Hbelow Habove.
  - right. exists (Z.to_nat low). rewrite binarySearch_loop_unfold.
    destruct (Z.leb_spec low high); [lia|].
    rewrite Z2Nat.id by lia. split; [done|]. split; [lia|].
    split; intros k v Hk; [apply Hbelow | apply Habove]; lia.
  - rewrite binarySearch_loop_unfold. destruct (Z.leb_spec low high) as [Hle|Hgt].
    + pose proof (ushr1_half low high Hlow Hle ltac:(lia)) as Hmid.
      cbv zeta. set (mid := ushr1 (low + high)) in *.
      destruct (lookup_lt_is_Some_2 xs (Z.to_nat mid) ltac:(lia)) as [v Hv].
      rewrite (arefZ_Fin_lookup xs mid v) by (done || lia).
      rewrite !ltb_Fin, eqb_Fin.
      destruct (Qc_is Lt v q) eqn:Hlt.
      { apply Qc_is_Lt in Hlt. apply IH; try lia; [|done].
        intros k w Hk Hw. destruct (decide (k = Z.to_nat mid)) as [->|Hne].
        - by rewrite Hv in Hw; inversion Hw; subst.
        - eapply Qclt_trans; [|exact Hlt].
          eapply (strictly_increasing_lookup xs k (Z.to_nat mid)); eauto. lia. }
      destruct (Qc_is Lt q v) eqn:Hgt.
      { apply Qc_is_Lt in Hgt. apply IH; try lia; [done|].
        intros k w Hk Hw. destruct (decide (k = Z.to_nat mid)) as [->|Hne].
        - by rewrite Hv in Hw; inversion Hw; subst.
        - eapply Qclt_trans; [exact Hgt|].
          eapply (strictly_increasing_lookup xs (Z.to_nat mid) k); eauto. lia. }
      assert (v = q) as -> by (by apply Qc_trichotomy).
      left. exists (Z.to_nat mid). rewrite Z2Nat.id by lia.
      assert (Qc_is Eq q q = true) as -> by (by apply Qc_is_Eq). done.
    + right. exists (Z.to_nat low). rewrite Z2Nat.id by lia. split; [done|]. split; [lia|].
      split; intros k v Hk; [apply Hbelow | apply Habove]; lia.
Qed.

Lemma insertionPoint_boundary xs q : forall p,
  p <= length xs ->
  (forall k v, k < p -> xs !! k = Some v -> (v <= q)%Qc) ->
  (forall k v, p <= k -> xs !! k = Some v -> (q < v)%Qc) ->
  insertionPoint xs q = p.
Proof.
  induction xs as [|w xs IH]; intros p Hp Hbelow Habove; simpl in *; [lia|].
  destruct p as [|p].
  - assert (Qc_is Lt q w = true) as ->; [|done].
    apply Qc_is_Lt. apply (Habove 0); [lia|done].
  - assert (Qc_is Lt q w = false) as ->.
    { apply Qc_is_Lt_false. apply (Hbelow 0); [lia|done]. }
    f_equal. apply IH; [lia| |].
    + intros k v Hk Hv. apply (Hbelow (S k)); [lia|done].
    + intros k v Hk Hv. apply (Habove (S k)); [lia|done].
Qed.

Lemma insertionPoint_le xs q : insertionPoint xs q <= length xs.
Proof. induction xs as [|w xs IH]; simpl; [lia|]. destruct (Qc_is Lt q w); lia. Qed.

(** Java's contract for the search, on strictly increasing rationals. *)
Lemma Arrays_binarySearch_cases (xs : list Qc) (q : Qc) :
  strictly_increasing xs -> (Z.of_nat (length xs) <= 2 ^ 31)%Z ->
  (exists j, Arrays_binarySearch (Fin <$> xs) (Fin q) = Ok (Z.of_nat j)
             /\ xs !! j = Some q /\ insertionPoint xs q = S j)
  \/ (Arrays_binarySearch (Fin <$> xs) (Fin q)
        = Ok (- (Z.of_nat (insertionPoint xs q) + 1))%Z
      /\ (forall k v, k < insertionPoint xs q -> xs !! k = Some v -> (v < q)%Qc)
      /\ (forall k v, insertionPoint xs q <= k -> xs !! k = Some v -> (q < v)%Qc)).
Proof.
  intros Hinc Hlen. unfold Arrays_binarySearch. rewrite length_fmap.
  destruct (binarySearch_loop_spec xs q Hinc Hlen (length xs) 0 (Z.of_nat (length xs) - 1))
    as [(j & Hr & Hj)|(p & Hr & Hp & Hbelow & Habove)];
    [lia|lia|lia|lia|intros k v Hk _; exfalso; lia| | |].
  - intros k v Hk Hv. apply lookup_lt_Some in Hv. exfalso. lia.
  - left. exists j. split; [done|]. split; [done|].
    apply insertionPoint_boundary.
    + apply lookup_lt_Some in Hj. lia.
    + intros k v Hk Hv. destruct (decide (k = j)) as [->|Hne].
      * rewrite Hj in Hv. inversion Hv. apply Qcle_refl.
      * apply Qclt_le_weak.
        apply (strictly_increasing_lookup xs k j v q); [done|lia|done|done].
    + intros k v Hk Hv.
      apply (strictly_increasing_lookup xs j k q v); [done|lia|done|done].
  - right. assert (insertionPoint xs q = p) as ->.
    { apply insertionPoint_boundary; [done| |done].
      intros k v Hk Hv. apply Qclt_le_weak. eauto. }
    done.
Qed.

(** In both cases the segment is the insertion point minus one, clamped. *)
Lemma Arrays_binarySearch_segment (xs : list Qc) (q : Qc) (count : nat) :
  strictly_increasing xs -> (Z.of_nat (length xs) <= 2 ^ 31)%Z ->
  exists r, Arrays_binarySearch (Fin <$> xs) (Fin q) = Ok r
    /\ segmentIndex r count
       = Z.max 0 (Z.min (Z.of_nat (insertionPoint xs q) - 1) (Z.of_nat count - 1)).
Proof.
  intros Hinc Hlen.
  destruct (Arrays_binarySearch_cases xs q Hinc Hlen) as [(j & -> & _ & ->)|(-> & _)];
    eexists; (split; [reflexivity|]); unfold segmentIndex.
  - destruct (Z.ltb_spec (Z.of_nat j) 0); [lia|]. f_equal. f_equal. lia.
  - destruct (Z.ltb_spec (- (Z.of_nat (insertionPoint xs q) + 1)) 0); [|lia].
    f_equal. f_equal. lia.
Qed.

(* ------------------------------------------------------------------ *)
(** ** Loops and polynomials, for any numbers *)

Lemma segmentIndex_range (i : Z) (count : nat) :
  1 <= count -> (0 <= segmentIndex i count < Z.of_nat count)%Z.
Proof. intros Hcount. unfold segmentIndex. lia. Qed.

Section Generic.
Context {T : Type} `{Number T}.

Lemma createPolynomialFunction_Ok (c : list T) :
  c <> [] -> createPolynomialFunction c = Ok (polynomialOf c).
Proof. destruct c; [done|]. reflexivity. Qed.

Lemma for_up_unfold {S : Type} (lo hi : nat) (body : nat -> S -> S) (s : S) :
  lo < hi -> for_up lo hi body s = for_up (Datatypes.S lo) hi body (body lo s).
Proof.
  intros Hlt. unfold for_up.
  replace (hi - lo) with (Datatypes.S (hi - Datatypes.S lo)) by lia. reflexivity.
Qed.

(** Invariants of the counted loops. *)
Lemma for_up_ind {S : Type} (P : nat -> S -> Prop) (lo hi : nat) (body : nat -> S -> S) (s : S) :
  lo <= hi -> P lo s ->
  (forall i s, lo <= i < hi -> P i s -> P (Datatypes.S i) (body i s)) ->
  P hi (for_up lo hi body s).
Proof.
  intros Hle H0 Hstep. unfold for_up.
  remember (hi - lo) as k eqn:Hk. revert lo s Hle H0 Hstep Hk.
  induction k as [|k IH]; intros lo s Hle H0 Hstep Hk; simpl.
  - by replace hi with lo by lia.
  - apply IH; [lia| |intros; apply Hstep; [lia|done]|lia].
    apply Hstep; [lia|done].
Qed.

Lemma for_down_ind {S : Type} (P : nat -> S -> Prop) (lo hi : nat) (body : nat -> S -> S) (s : S) :
  lo <= hi -> P hi s ->
  (forall i s, lo <= i < hi -> P (Datatypes.S i) s -> P i (body i s)) ->
  P lo (for_down lo hi body s).
Proof.
  intros Hle H0 Hstep. unfold for_down.
  remember (hi - lo) as k eqn:Hk. revert hi s Hle H0 Hstep Hk.
  induction k as [|k IH]; intros hi s Hle H0 Hstep Hk; simpl.
  - by replace lo with hi by lia.
  - replace (lo :: seq (Datatypes.S lo) k) with (seq lo (Datatypes.S k)) by done.
    rewrite seq_S, reverse_app. simpl.
    destruct hi as [|hi]; [lia|]. replace (lo + k) with hi by lia.
    apply (IH hi); [lia| |intros; apply Hstep; [lia|done]|lia].
    apply Hstep; [lia|done].
Qed.

(** A loop that stores [f i] at every index [i] of its range. *)
Lemma for_up_fill (f : nat -> T) (lo hi : nat) (a0 : list T) :
  lo <= hi ->
  let a := for_up lo hi (fun i a => <[i := f i]> a) a0 in
  length a = length a0
  /\ (forall k, lo <= k < hi -> k < length a0 -> a !! k = Some (f k))
  /\ (forall k, ~ (lo <= k < hi) -> a !! k = a0 !! k).
Proof.
  intros Hle. cbv zeta.
  apply (for_up_ind (fun i a => length a = length a0
    /\ (forall k, lo <= k < i -> k < length a0 -> a !! k = Some (f k))
    /\ (forall k, ~ (lo <= k < i) -> a !! k = a0 !! k))); [done| |].
  - split; [done|]. split; [intros; lia|done].
  - intros i a Hi (Hlen & Hin & Hout). split; [by rewrite length_insert|]. split.
    + intros k Hk Hk0. destruct (decide (k = i)) as [->|Hne].
      * apply list_lookup_insert_eq. lia.
      * rewrite list_lookup_insert_ne by done. apply Hin; lia.
    + intros k Hk. rewrite list_lookup_insert_ne by lia. apply Hout. lia.
Qed.

End Generic.

(* ------------------------------------------------------------------ *)
(** ** Order and field reasoning on the rationals *)

Lemma this_plus (a b : Qc) : (this (a + b)%Qc == this a + this b)%Q.
Proof. apply Qred_correct. Qed.
Lemma this_mult (a b : Qc) : (this (a * b)%Qc == this a * this b)%Q.
Proof. apply Qred_correct. Qed.
Lemma this_opp (a : Qc) : (this (- a)%Qc == - this a)%Q.
Proof. apply Qred_correct. Qed.
Lemma this_minus (a b : Qc) : (this (a - b)%Qc == this a - this b)%Q.
Proof. unfold Qcminus. rewrite this_plus, this_opp. reflexivity. Qed.
Lemma this_inv (a : Qc) : (this (/ a)%Qc == / this a)%Q.
Proof. apply Qred_correct. Qed.
Lemma this_div (a b : Qc) : (this (a / b)%Qc == this a / this b)%Q.
Proof. unfold Qcdiv. rewrite this_mult, this_inv. reflexivity. Qed.
Lemma this_0 : (this 0%Qc == 0)%Q.
Proof. reflexivity. Qed.
Lemma this_1 : (this 1%Qc == 1)%Q.
Proof. reflexivity. Qed.
Lemma Qc_eq_this (a b : Qc) : a = b <-> (this a == this b)%Q.
Proof. split; [by intros ->|apply Qc_is_canon]. Qed.

Ltac qc_to_q :=
  repeat match goal with
  | H : @eq Qc _ _ |- _ => apply Qc_eq_this in H
  | H : not (@eq Qc _ _) |- _ => rewrite Qc_eq_this in H
  end;
  try match goal with
  | |- @eq Qc _ _ => apply Qc_eq_this
  | |- not (@eq Qc _ _) => rewrite Qc_eq_this
  end;
  unfold Qclt, Qcle in *;
  repeat (rewrite ?this_minus, ?this_plus, ?this_mult, ?this_opp in * );
  change (this 0%Qc) with 0%Q in *; change (this 1%Qc) with 1%Q in *;
  change (1 + 1)%Q with 2%Q in *; change (2 + 1)%Q with 3%Q in *.

(* ------------------------------------------------------------------ *)
(** ** Arithmetic of [xnum] on rationals, and the polynomials *)

Lemma add_Fin p q : (Fin p + Fin q)%num = Fin (p + q)%Qc.
Proof. reflexivity. Qed.
Lemma sub_Fin p q : (Fin p - Fin q)%num = Fin (p - q)%Qc.
Proof. reflexivity. Qed.
Lemma mul_Fin p q : (Fin p * Fin q)%num = Fin (p * q)%Qc.
Proof. reflexivity. Qed.
Lemma div_Fin p q : q <> 0%Qc -> (Fin p / Fin q)%num = Fin (p / q)%Qc.
Proof.
  intros Hq. change (Fin p / Fin q)%num with (xdiv (Fin p) (Fin q)). simpl.
  by apply Qc_is_Eq_false in Hq as ->.
Qed.
Lemma abs_Fin p : abs (Fin p) = Fin (Qcabs p).
Proof. reflexivity. Qed.
Lemma zero_Fin : zero = Fin 0%Qc.
Proof. reflexivity. Qed.
Lemma two_Fin : two = Fin (1 + 1)%Qc.
Proof. reflexivity. Qed.
Lemma three_Fin : three = Fin (1 + 1 + 1)%Qc.
Proof. reflexivity. Qed.

Create Rewrite HintDb xnum.
#[global] Hint Rewrite zero_Fin two_Fin three_Fin sub_Fin add_Fin mul_Fin abs_Fin
  eqb_Fin ltb_Fin leb_Fin : xnum.

Ltac xnum_simpl := autorewrite with xnum.

(** Horner's rule on two and on four rational coefficients; the trimmed
    trailing zeros do not change the value. *)
Lemma polynomialOf_2 (a b t : Qc) :
  polynomialOf [Fin a; Fin b] (Fin t) = Fin (t * b + a)%Qc.
Proof.
  unfold polynomialOf. cbn [length trimDegree].
  cbn [aref lookup list_lookup default from_option id]. xnum_simpl.
  destruct (Qc_is Eq b 0%Qc) eqn:Hb; cbn; xnum_simpl; [|done].
  apply Qc_is_Eq in Hb as ->. f_equal. ring.
Qed.

Lemma polynomialOf_4 (a b c d t : Qc) :
  polynomialOf [Fin a; Fin b; Fin c; Fin d] (Fin t)
  = Fin (t * (t * (t * d + c) + b) + a)%Qc.
Proof.
  unfold polynomialOf. cbn [length trimDegree].
  cbn [aref lookup list_lookup default from_option id]. xnum_simpl.
  destruct (Qc_is Eq d 0%Qc) eqn:Hd; [apply Qc_is_Eq in Hd as ->|cbn; xnum_simpl; done].
  destruct (Qc_is Eq c 0%Qc) eqn:Hc;
    [apply Qc_is_Eq in Hc as ->|cbn; xnum_simpl; f_equal; ring].
  destruct (Qc_is Eq b 0%Qc) eqn:Hb;
    [apply Qc_is_Eq in Hb as ->|cbn; xnum_simpl; f_equal; ring].
  cbn; xnum_simpl. f_equal. ring.
Qed.

Section Polynomials.
Context {T : Type} `{Number T}.

(** The loops that fill [polynomials]: when the stores of iteration [i]
    overwrite the whole buffer with [target i], the array built is the
    polynomials of [target 0], [target 1], ... *)
Lemma for_each_polynomials (fill : nat -> list T -> list T) (target : nat -> list T)
    (w : nat) (idxs : list nat) :
  0 < w ->
  (forall i c, i ∈ idxs -> length c = w -> fill i c = target i) ->
  (forall i, i ∈ idxs -> length (target i) = w) ->
  forall (c : list T) (ps : list (T -> T)), length c = w ->
  exists c',
    for_each (fun i '(coefficients, polynomials) =>
        let coefficients := fill i coefficients in
        p ← createPolynomialFunction coefficients;
        Ok (coefficients, polynomials ++ [p]))
      idxs (c, ps)
    = Ok (c', ps ++ ((fun i => polynomialOf (target i)) <$> idxs))
    /\ length c' = w.
Proof.
  intros Hw. induction idxs as [|i idxs IH]; intros Hfill Htarget c ps Hc.
  - exists c. simpl. by rewrite app_nil_r.
  - cbn [for_each]. cbv zeta.
    rewrite (Hfill i c) by (done || left).
    rewrite createPolynomialFunction_Ok.
    2:{ intros Hnil. specialize (Htarget i ltac:(left)). rewrite Hnil in Htarget. simpl in *. lia. }
    cbn [mbind result_bind].
    destruct (IH ltac:(intros; apply Hfill; [by right|done])
                 ltac:(intros; apply Htarget; by right)
                 (target i) (ps ++ [polynomialOf (target i)])
                 ltac:(apply Htarget; left)) as (c' & Hrun & Hlen).
    exists c'. cbv zeta in Hrun. rewrite Hrun. split; [|done]. by rewrite <- app_assoc.
Qed.

End Polynomials.

(* ------------------------------------------------------------------ *)
(** ** The piecewise polynomial *)

Lemma checkOrder_from_increasing rest : forall previous,
  increasing_from previous rest ->
  checkOrder_from (Fin previous) (Fin <$> rest) = Ok tt.
Proof.
  induction rest as [|v rest IH]; intros previous Hinc; [done|].
  destruct Hinc as [Hv Hinc]. simpl. rewrite leb_Fin.
  assert (Qc_is Gt v previous = true) as -> by (by apply Qc_is_Gt).
  simpl. by apply IH.
Qed.

Lemma checkOrder_increasing xs :
  strictly_increasing xs -> MathArrays_checkOrder (Fin <$> xs) = Ok tt.
Proof. destruct xs as [|v xs]; [done|]. apply checkOrder_from_increasing. Qed.

Lemma segmentOf_lt knots q : 2 <= length knots -> segmentOf knots q < length knots - 1.
Proof. unfold segmentOf. lia. Qed.

Lemma segmentOf_below knots q k0 :
  knots !! 0 = Some k0 -> (q < k0)%Qc -> segmentOf knots q = 0.
Proof.
  intros Hk Hq. destruct knots as [|w knots]; [done|]. inversion Hk; subst.
  unfold segmentOf. simpl insertionPoint.
  assert (Qc_is Lt q k0 = true) as -> by (by apply Qc_is_Lt). lia.
Qed.

Lemma insertionPoint_all_le xs q :
  (forall v, v ∈ xs -> (v <= q)%Qc) -> insertionPoint xs q = length xs.
Proof.
  induction xs as [|w xs IH]; intros Hall; [done|]. simpl.
  assert (Qc_is Lt q w = false) as ->.
  { apply Qc_is_Lt_false. apply Hall. left. }
  f_equal. apply IH. intros v Hv. apply Hall. by right.
Qed.

Lemma segmentOf_above knots q kl :
  strictly_increasing knots -> 2 <= length knots ->
  last knots = Some kl -> (kl <= q)%Qc -> segmentOf knots q = length knots - 2.
Proof.
  intros Hinc Hlen Hk Hq. unfold segmentOf.
  rewrite insertionPoint_all_le; [lia|].
  intros v Hv. apply list_elem_of_lookup in Hv as [i Hi].
  rewrite last_lookup in Hk.
  destruct (decide (i = Nat.pred (length knots))) as [->|Hne].
  - rewrite Hk in Hi. by inversion Hi; subst.
  - eapply Qcle_trans; [|exact Hq]. apply Qclt_le_weak.
    apply (strictly_increasing_lookup knots i (Nat.pred (length knots))); try done.
    apply lookup_lt_Some in Hi. lia.
Qed.

Lemma segmentOf_knot knots j q :
  strictly_increasing knots -> (Z.of_nat (length knots) <= 2 ^ 31)%Z ->
  knots !! j = Some q -> segmentOf knots q = j `min` (length knots - 2).
Proof.
  intros Hinc Hlen Hj. unfold segmentOf.
  destruct (Arrays_binarySearch_cases knots q Hinc Hlen) as [(j' & _ & Hj' & ->)|(_ & Hb & Ha)].
  - assert (j' = j); [|lia].
    destruct (Nat.lt_trichotomy j j') as [Hlt|[->|Hlt]]; [|done|];
      [pose proof (strictly_increasing_lookup knots j j' q q Hinc Hlt Hj Hj') as Hqq
      |pose proof (strictly_increasing_lookup knots j' j q q Hinc Hlt Hj' Hj) as Hqq];
      by apply Qclt_not_eq in Hqq.
  - exfalso. destruct (Nat.lt_ge_cases j (insertionPoint knots q)) as [Hlt|Hge].
    + by apply (Qclt_not_eq _ _ (Hb j q Hlt Hj)).
    + by apply (Qclt_not_eq _ _ (Ha j q Hge Hj)).
Qed.

(** The evaluator of a piecewise polynomial on strictly increasing rational
    knots: it exists, and a rational query is answered by the polynomial of
    its segment at the distance to the segment's left knot. *)
Lemma createPolynomialSplineFunction_eval
    (knots : list Qc) (polynomials : list (xnum -> xnum)) :
  2 <= length knots ->
  length polynomials = length knots - 1 ->
  strictly_increasing knots ->
  (Z.of_nat (length knots) <= 2 ^ 31)%Z ->
  exists f,
    createPolynomialSplineFunction (Fin <$> knots) polynomials = Ok f
    /\ forall q p k,
         polynomials !! segmentOf knots q = Some p ->
         knots !! segmentOf knots q = Some k ->
         f (Fin q) = Ok (p (Fin q - Fin k)%num).
Proof.
  intros Hlen Hpoly Hinc Hbound.
  unfold createPolynomialSplineFunction. rewrite length_fmap.
  destruct (Nat.ltb_spec (length knots) 2) as [|_]; [lia|].
  rewrite Hpoly, Nat.eqb_refl. simpl negb. cbv iota.
  rewrite (checkOrder_increasing knots Hinc). cbn [mbind result_bind].
  eexists. split; [reflexivity|]. intros q p k Hp Hk.
  destruct (Arrays_binarySearch_segment knots q (length knots - 1) Hinc Hbound)
    as (r & -> & Hr).
  cbn [mbind result_bind]. rewrite Hr.
  assert (Z.max 0 (Z.min (Z.of_nat (insertionPoint knots q) - 1)
                     (Z.of_nat (length knots - 1) - 1))
          = Z.of_nat (segmentOf knots q)) as ->.
  { unfold segmentOf. lia. }
  rewrite Nat2Z.id. rewrite (nth_lookup_Some _ _ _ _ Hp).
  rewrite (arefZ_Fin_lookup knots _ k); [done|lia|by rewrite Nat2Z.id].
Qed.

(** C8.  A piecewise polynomial on [m >= 2] (at most 2^31) strictly
    increasing rational knots with [m - 1] polynomials is built, and for
    every rational query [q] it returns [segment[i](q - knot[i])] where [i]
    is the insertion point of [q] minus one, clamped to [0 .. m - 2]:
    segment 0 below the first knot, segment [m - 2] from the last knot on,
    and the index of the knot (clamped) on an exact match. *)
Theorem spline_evaluates_clamped_segment
    (knots : list Qc) (polynomials : list (xnum -> xnum)) (q : Qc) :
  2 <= length knots ->
  length polynomials = length knots - 1 ->
  strictly_increasing knots ->
  (Z.of_nat (length knots) <= 2 ^ 31)%Z ->
  exists f p k,
    createPolynomialSplineFunction (Fin <$> knots) polynomials = Ok f
    /\ polynomials !! segmentOf knots q = Some p
    /\ knots !! segmentOf knots q = Some k
    /\ f (Fin q) = Ok (p (Fin q - Fin k)%num)
    /\ (forall k0, knots !! 0 = Some k0 -> (q < k0)%Qc -> segmentOf knots q = 0)
    /\ (forall kl, last knots = Some kl -> (kl <= q)%Qc ->
          segmentOf knots q = length knots - 2)
    /\ (forall j, knots !! j = Some q -> segmentOf knots q = j `min` (length knots - 2)).
Proof.
  intros Hlen Hpoly Hinc Hbound.
  pose proof (segmentOf_lt knots q Hlen) as Hseg.
  destruct (lookup_lt_is_Some_2 polynomials (segmentOf knots q) ltac:(lia)) as [p Hp].
  destruct (lookup_lt_is_Some_2 knots (segmentOf knots q) ltac:(lia)) as [k Hk].
  destruct (createPolynomialSplineFunction_eval knots polynomials Hlen Hpoly Hinc Hbound)
    as (f & Hf & Heval).
  exists f, p, k. repeat split; try done.
  - by apply Heval.
  - apply segmentOf_below.
  - intros kl. by apply segmentOf_above.
  - intros j. by apply segmentOf_knot.
Qed.

Lemma spline_evaluates_clamped_segment_witness :
  exists f p k,
    createPolynomialSplineFunction (Fin <$> [0; 1; 1 + 1]%Qc)
      [fun t => (t * t)%num; fun t => (t + t)%num] = Ok f
    /\ [fun t => (t * t)%num; fun t : xnum => (t + t)%num] !! 1 = Some p
    /\ [0; 1; 1 + 1]%Qc !! 1 = Some k
    /\ f (Fin (1 + 1 + 1)%Qc) = Ok (p (Fin (1 + 1 + 1) - Fin k)%num).
Proof.
  destruct (spline_evaluates_clamped_segment [0; 1; 1 + 1]%Qc
              [fun t => (t * t)%num; fun t => (t + t)%num] (1 + 1 + 1)%Qc)
    as (f & p & k & Hf & Hp & Hk & Hv & _).
  - simpl. lia.
  - reflexivity.
  - repeat split.
  - simpl. lia.
  - exists f, p, k. repeat split; assumption.
Defined.

(* ------------------------------------------------------------------ *)
(** ** The linear interpolator *)

Lemma qref_lookup (l : list Qc) (i : nat) : i < length l -> l !! i = Some (qref l i).
Proof.
  intros Hi. unfold qref. by destruct (lookup_lt_is_Some_2 l i Hi) as [v ->].
Qed.

Lemma qref_Some (l : list Qc) (i : nat) v : l !! i = Some v -> qref l i = v.
Proof. intros Hv. unfold qref. by rewrite Hv. Qed.

Lemma strictly_increasing_qref xs i j :
  strictly_increasing xs -> i < j -> j < length xs -> (qref xs i < qref xs j)%Qc.
Proof.
  intros Hinc Hij Hj.
  apply (strictly_increasing_lookup xs i j); [done|done| |]; apply qref_lookup; lia.
Qed.

Lemma step_nonzero xs i :
  strictly_increasing xs -> i + 1 < length xs -> (qref xs (i + 1) - qref xs i)%Qc <> 0%Qc.
Proof.
  intros Hinc Hi.
  pose proof (strictly_increasing_qref xs i (i + 1) Hinc ltac:(lia) Hi).
  qc_to_q. lra.
Qed.

(** The linear interpolator on rationals: on the segment [s] of a query
    the value is the line through [(x[s], y[s])] with the slope of the
    chord. *)
Lemma createLinearInterpolator_eval (xs ys : list Qc) :
  2 <= length xs -> length ys = length xs ->
  strictly_increasing xs -> (Z.of_nat (length xs) <= 2 ^ 31)%Z ->
  exists f,
    createLinearInterpolator (Fin <$> xs) (Fin <$> ys) = Ok f
    /\ forall q,
         f (Fin q)
         = Ok (Fin ((q - qref xs (segmentOf xs q)) * slope xs ys (segmentOf xs q)
                    + qref ys (segmentOf xs q))%Qc).
Proof.
  intros Hlen Hys Hinc Hbound. unfold createLinearInterpolator.
  rewrite !length_fmap, Hys, Nat.eqb_refl. simpl negb. cbv iota.
  destruct (Nat.ltb_spec (length xs) 2) as [|_]; [lia|].
  rewrite (checkOrder_increasing xs Hinc). cbn [mbind result_bind]. cbv zeta.
  set (n := length xs - 1).
  destruct (for_up_fill
    (fun i => ((aref (Fin <$> ys) (i + 1) - aref (Fin <$> ys) i)
               / (aref (Fin <$> xs) (i + 1) - aref (Fin <$> xs) i))%num)
    0 n (Float64Array n) ltac:(lia)) as (Hmlen & Hm & _).
  cbv zeta in Hmlen, Hm. unfold linearSlopes. set (m := for_up 0 n _ _) in *.
  assert (forall i, i < n -> aref m i = Fin (slope xs ys i)) as Hslope.
  { intros i Hi. unfold aref. rewrite Hm.
    2: lia. 2:{ unfold Float64Array. rewrite length_replicate. lia. }
    simpl. rewrite !aref_Fin by lia. xnum_simpl.
    rewrite div_Fin; [done|]. apply step_nonzero; [done|lia]. }
  destruct (for_each_polynomials
    (fun i c => <[1 := aref m i]> (<[0 := aref (Fin <$> ys) i]> c))
    (fun i => [aref (Fin <$> ys) i; aref m i]) 2 (seq 0 n) ltac:(lia))
    with (c := Float64Array (T:=xnum) 2) (ps := @nil (xnum -> xnum))
    as (c' & Hrun & _).
  { intros i c _ Hc. destruct c as [|c0 [|c1 [|]]]; simpl in Hc; try lia. done. }
  { done. }
  { done. }
  cbv zeta in Hrun. rewrite Hrun. cbn [mbind result_bind]. rewrite app_nil_l.
  destruct (createPolynomialSplineFunction_eval xs
              ((fun i => polynomialOf [aref (Fin <$> ys) i; aref m i]) <$> seq 0 n))
    as (f & -> & Heval); [done| |done|done|].
  { by rewrite length_fmap, length_seq. }
  exists f. split; [done|]. intros q.
  pose proof (segmentOf_lt xs q Hlen) as Hseg.
  rewrite (Heval q (polynomialOf [aref (Fin <$> ys) (segmentOf xs q); aref m (segmentOf xs q)])
                 (qref xs (segmentOf xs q))).
  - rewrite aref_Fin by lia. rewrite Hslope by (unfold n; lia).
    xnum_simpl. by rewrite polynomialOf_2.
  - rewrite list_lookup_fmap, lookup_seq_lt by (unfold n; lia). done.
  - apply qref_lookup. lia.
Qed.

Lemma insertionPoint_interval xs i q :
  strictly_increasing xs -> i + 1 < length xs ->
  (qref xs i <= q)%Qc -> (q < qref xs (i + 1))%Qc -> insertionPoint xs q = i + 1.
Proof.
  intros Hinc Hi Hlo Hhi. apply insertionPoint_boundary; [lia| |].
  - intros k v Hk Hv. destruct (decide (k = i)) as [->|Hne].
    + by rewrite (qref_Some _ _ _ Hv) in Hlo.
    + eapply Qcle_trans; [|exact Hlo]. apply Qclt_le_weak.
      rewrite <- (qref_Some _ _ _ Hv). apply strictly_increasing_qref; [done|lia|lia].
  - intros k v Hk Hv. destruct (decide (k = i + 1)) as [->|Hne].
    + by rewrite (qref_Some _ _ _ Hv) in Hhi.
    + eapply Qclt_trans; [exact Hhi|].
      rewrite <- (qref_Some _ _ _ Hv). apply strictly_increasing_qref; [done|lia|].
      by apply lookup_lt_Some in Hv.
Qed.

Lemma segmentOf_interval xs i q :
  strictly_increasing xs -> i + 1 < length xs ->
  (qref xs i <= q)%Qc -> (q < qref xs (i + 1))%Qc -> segmentOf xs q = i.
Proof.
  intros Hinc Hi Hlo Hhi. unfold segmentOf.
  rewrite (insertionPoint_interval xs i q) by done. lia.
Qed.

(** C5.  For rational samples with at least two points (and at most 2^31)
    and strictly increasing [x], the linear interpolator is built and, for
    a query [q] with [x[i] <= q <= x[i+1]], returns
    [y[i] + (q - x[i]) * (y[i+1] - y[i]) / (x[i+1] - x[i])]. *)
Theorem linear_interpolator_blend (xs ys : list Qc) (i : nat) (q xi xi1 yi yi1 : Qc) :
  2 <= length xs -> length ys = length xs ->
  strictly_increasing xs -> (Z.of_nat (length xs) <= 2 ^ 31)%Z ->
  xs !! i = Some xi -> xs !! (i + 1) = Some xi1 ->
  ys !! i = Some yi -> ys !! (i + 1) = Some yi1 ->
  (xi <= q)%Qc -> (q <= xi1)%Qc ->
  exists f,
    createLinearInterpolator (Fin <$> xs) (Fin <$> ys) = Ok f
    /\ f (Fin q) = Ok (Fin (yi + (q - xi) * (yi1 - yi) / (xi1 - xi))%Qc).
Proof.
  intros Hlen Hys Hinc Hbound Hxi Hxi1 Hyi Hyi1 Hlo Hhi.
  destruct (createLinearInterpolator_eval xs ys Hlen Hys Hinc Hbound) as (f & Hf & Heval).
  exists f. split; [done|]. rewrite Heval. do 2 f_equal.
  pose proof (lookup_lt_Some _ _ _ Hxi1) as Hi1.
  pose proof (step_nonzero xs i Hinc Hi1) as Hstep.
  rewrite (qref_Some _ _ _ Hxi), (qref_Some _ _ _ Hxi1) in Hstep.
  destruct (Qcle_lt_or_eq _ _ Hhi) as [Hlt| ->].
  - rewrite (segmentOf_interval xs i q); [|done|done| |].
    + unfold slope. rewrite (qref_Some _ _ _ Hxi), (qref_Some _ _ _ Hxi1),
        (qref_Some _ _ _ Hyi), (qref_Some _ _ _ Hyi1). field. done.
    + by rewrite (qref_Some _ _ _ Hxi).
    + by rewrite (qref_Some _ _ _ Hxi1).
  - rewrite (segmentOf_knot xs (i + 1) xi1 Hinc Hbound Hxi1).
    destruct (decide (i + 1 <= length xs - 2)) as [Hin|Hlast].
    + rewrite Nat.min_l by done. rewrite (qref_Some _ _ _ Hxi1), (qref_Some _ _ _ Hyi1).
      field. done.
    + rewrite Nat.min_r by lia. replace (length xs - 2) with i by lia.
      unfold slope. rewrite (qref_Some _ _ _ Hxi), (qref_Some _ _ _ Hxi1),
        (qref_Some _ _ _ Hyi), (qref_Some _ _ _ Hyi1). field. done.
Qed.

(** [createLinearInterpolator([0,2],[0,10])(1) == 5]. *)
Lemma linear_interpolator_blend_witness :
  exists f,
    createLinearInterpolator (Fin <$> [0; Q2Qc 2]%Qc) (Fin <$> [0; Q2Qc 10]%Qc) = Ok f
    /\ f (Fin 1%Qc) = Ok (Fin (Q2Qc 5)).
Proof.
  destruct (linear_interpolator_blend [0; Q2Qc 2]%Qc [0; Q2Qc 10]%Qc 0 1%Qc
              0%Qc (Q2Qc 2) 0%Qc (Q2Qc 10)) as (f & Hf & Hv).
  - simpl. lia.
  - reflexivity.
  - repeat split.
  - simpl. lia.
  - reflexivity.
  - reflexivity.
  - reflexivity.
  - reflexivity.
  - discriminate.
  - discriminate.
  - exists f. split; [exact Hf|]. rewrite Hv.
    apply (f_equal (fun v => Ok (Fin v))). by apply Qc_is_canon.
Defined.

(* ------------------------------------------------------------------ *)
(** ** The nearest-neighbour interpolator *)

Section NearestGeneric.
Context {T : Type} `{Number T}.

Lemma nearest_empty :
  exists f, createNearestNeighborInterpolator (T:=T) [] [] = Ok f
            /\ forall q, f q = Ok nan.
Proof. eexists. split; [reflexivity|]. done. Qed.

Lemma nearest_single (x0 y0 : T) :
  exists f, createNearestNeighborInterpolator [x0] [y0] = Ok f
            /\ forall q, f q = Ok y0.
Proof. eexists. split; [reflexivity|]. done. Qed.

End NearestGeneric.

Lemma Arrays_binarySearch_between xs i q :
  strictly_increasing xs -> (Z.of_nat (length xs) <= 2 ^ 31)%Z ->
  i + 1 < length xs -> (qref xs i < q)%Qc -> (q < qref xs (i + 1))%Qc ->
  Arrays_binarySearch (Fin <$> xs) (Fin q) = Ok (- (Z.of_nat (i + 1) + 1))%Z.
Proof.
  intros Hinc Hbound Hi Hlo Hhi.
  pose proof (insertionPoint_interval xs i q Hinc Hi (Qclt_le_weak _ _ Hlo) Hhi) as Hip.
  destruct (Arrays_binarySearch_cases xs q Hinc Hbound) as [(j & _ & Hj & Hipj)|(-> & _)].
  - exfalso. assert (j = i) as -> by lia.
    rewrite (qref_Some _ _ _ Hj) in Hlo. by apply Qclt_not_eq in Hlo.
  - by rewrite Hip.
Qed.

(** The nearest-neighbour evaluator strictly between two adjacent knots:
    the left value when twice the distance to the left knot is below the
    width, the right value otherwise. *)
Lemma createNearestNeighborInterpolator_between (xs : list Qc) (ys : list xnum) :
  2 <= length xs -> length ys = length xs ->
  strictly_increasing xs -> (Z.of_nat (length xs) <= 2 ^ 31)%Z ->
  exists f,
    createNearestNeighborInterpolator (Fin <$> xs) ys = Ok f
    /\ forall i q, i + 1 < length xs -> (qref xs i < q)%Qc -> (q < qref xs (i + 1))%Qc ->
         f (Fin q)
         = Ok (if Qc_is Lt ((q - qref xs i) + (q - qref xs i)) (qref xs (i + 1) - qref xs i)
               then aref ys i else aref ys (i + 1)).
Proof.
  intros Hlen Hys Hinc Hbound. unfold createNearestNeighborInterpolator.
  rewrite !length_fmap, Hys, Nat.eqb_refl. simpl negb. cbv iota.
  destruct (Nat.eqb_spec (length xs) 0) as [|_]; [lia|].
  destruct (Nat.eqb_spec (length xs) 1) as [|_]; [lia|].
  rewrite (checkOrder_increasing xs Hinc). cbn [mbind result_bind].
  eexists. split; [reflexivity|]. intros i q Hi Hlo Hhi. cbv beta.
  rewrite (Arrays_binarySearch_between xs i q) by done. cbn [mbind result_bind].
  destruct (Z.leb_spec 0 (- (Z.of_nat (i + 1) + 1))) as [|_]; [lia|].
  replace (- - (Z.of_nat (i + 1) + 1) - 1)%Z with (Z.of_nat (i + 1)) by lia.
  destruct (Z.eqb_spec (Z.of_nat (i + 1)) 0) as [|_]; [lia|].
  destruct (Z.leb_spec (Z.of_nat (length xs)) (Z.of_nat (i + 1))) as [|_]; [lia|].
  replace (Z.of_nat (i + 1) - 1)%Z with (Z.of_nat i) by lia.
  rewrite (arefZ_Fin_lookup xs (Z.of_nat i) (qref xs i))
    by (lia || (rewrite Nat2Z.id; apply qref_lookup; lia)).
  rewrite (arefZ_Fin_lookup xs (Z.of_nat (i + 1)) (qref xs (i + 1)))
    by (lia || (rewrite Nat2Z.id; apply qref_lookup; lia)).
  xnum_simpl.
  unfold arefZ. destruct (Z.ltb_spec (Z.of_nat i) 0); [lia|].
  destruct (Z.ltb_spec (Z.of_nat (i + 1)) 0); [lia|]. by rewrite !Nat2Z.id.
Qed.

(** C6.  Nearest neighbour: built from empty sequences the evaluator
    answers NaN to every query; built from one sample it answers [y[0]];
    and on two or more (at most 2^31) strictly increasing rational knots
    the query midway between [x[i]] and [x[i+1]] gets the right value
    [y[i+1]], because the test [d + d < w] is strict: any query strictly
    between the two knots gets the left value exactly when twice its
    distance to the left knot is below the width. *)
Theorem nearest_neighbor_cases (xs : list Qc) (ys : list xnum) (i : nat) (xl xr : Qc)
    (yl yr : xnum) :
  length ys = length xs ->
  strictly_increasing xs -> (Z.of_nat (length xs) <= 2 ^ 31)%Z ->
  xs !! i = Some xl -> xs !! (i + 1) = Some xr ->
  ys !! i = Some yl -> ys !! (i + 1) = Some yr ->
  (exists f, createNearestNeighborInterpolator (T:=xnum) [] [] = Ok f
             /\ forall q, f q = Ok NaN)
  /\ (forall x0 y0 : xnum,
        exists f, createNearestNeighborInterpolator [x0] [y0] = Ok f
                  /\ forall q, f q = Ok y0)
  /\ (exists f, createNearestNeighborInterpolator (Fin <$> xs) ys = Ok f
        /\ f (Fin ((xl + xr) / (1 + 1))%Qc) = Ok yr
        /\ forall q, (xl < q)%Qc -> (q < xr)%Qc ->
             f (Fin q) = Ok (if Qc_is Lt ((q - xl) + (q - xl)) (xr - xl) then yl else yr)).
Proof.
  intros Hys Hinc Hbound Hxl Hxr Hyl Hyr.
  split; [exact (nearest_empty (T:=xnum))|]. split; [apply nearest_single|].
  pose proof (lookup_lt_Some _ _ _ Hxr) as Hi.
  destruct (createNearestNeighborInterpolator_between xs ys ltac:(lia) Hys Hinc Hbound)
    as (f & Hf & Heval).
  assert (forall q, (xl < q)%Qc -> (q < xr)%Qc ->
            f (Fin q) = Ok (if Qc_is Lt ((q - xl) + (q - xl)) (xr - xl) then yl else yr))
    as Hbetween.
  { intros q Hlo Hhi. rewrite (Heval i q Hi).
    - rewrite (qref_Some _ _ _ Hxl), (qref_Some _ _ _ Hxr).
      unfold aref. by rewrite Hyl, Hyr.
    - by rewrite (qref_Some _ _ _ Hxl).
    - by rewrite (qref_Some _ _ _ Hxr). }
  exists f. split; [done|]. split; [|done].
  pose proof (strictly_increasing_lookup xs i (i + 1) xl xr Hinc ltac:(lia) Hxl Hxr) as Hlt.
  assert ((xl + xr) / (1 + 1) * (1 + 1) = xl + xr)%Qc as Hm by (field; done).
  rewrite Hbetween.
  - assert (Qc_is Lt ((xl + xr) / (1 + 1) - xl + ((xl + xr) / (1 + 1) - xl)) (xr - xl) = false)
      as ->; [|done].
    apply Qc_is_Lt_false. qc_to_q. lra.
  - qc_to_q. lra.
  - qc_to_q. lra.
Qed.

Lemma nearest_neighbor_cases_witness :
  exists f,
    createNearestNeighborInterpolator (Fin <$> [0; Q2Qc 2; Q2Qc 4]%Qc)
      [Fin (Q2Qc 10); Fin (Q2Qc 20); Fin (Q2Qc 30)] = Ok f
    /\ f (Fin ((0 + Q2Qc 2) / (1 + 1))%Qc) = Ok (Fin (Q2Qc 20)).
Proof.
  destruct (nearest_neighbor_cases [0; Q2Qc 2; Q2Qc 4]%Qc
              [Fin (Q2Qc 10); Fin (Q2Qc 20); Fin (Q2Qc 30)] 0
              0%Qc (Q2Qc 2) (Fin (Q2Qc 10)) (Fin (Q2Qc 20)))
    as (_ & _ & f & Hf & Hmid & _).
  - reflexivity.
  - repeat split.
  - simpl. lia.
  - reflexivity.
  - reflexivity.
  - reflexivity.
  - reflexivity.
  - exists f. split; assumption.
Defined.

(* ------------------------------------------------------------------ *)
(** ** The order check at construction *)


(** Against C2 as stated: on [x = [1, 1, 2]] the Akima constructor stops
    at its minimum of five points, before the order is looked at. *)
Lemma akima_short_input_not_OrderError :
  createAkimaSplineInterpolator [1; 1; 2]%float [0; 0; 0]%float
    = Throw InsufficientPointsError
  /\ createAkimaSplineInterpolator [1; 1; 2]%float [0; 0; 0]%float <> Throw OrderError.
Proof. split; [reflexivity|discriminate]. Qed.

(** C2, amended.  With [x = [1, 1, 2]] and any three [y] values the
    nearest-neighbour, linear and cubic constructors raise OrderError; the
    Akima constructor raises the too-few-points error there, and raises
    OrderError on the five points [x = [1, 1, 2, 3, 4]].  Stated on doubles
    and on the exact numbers. *)
Theorem order_violation_1_1_2 :
  (forall y0 y1 y2 : float,
      createNearestNeighborInterpolator [1; 1; 2]%float [y0; y1; y2] = Throw OrderError
      /\ createLinearInterpolator [1; 1; 2]%float [y0; y1; y2] = Throw OrderError
      /\ createCubicSplineInterpolator [1; 1; 2]%float [y0; y1; y2] = Throw OrderError
      /\ createAkimaSplineInterpolator [1; 1; 2]%float [y0; y1; y2]
         = Throw InsufficientPointsError)
  /\ (forall y0 y1 y2 y3 y4 : float,
      createAkimaSplineInterpolator [1; 1; 2; 3; 4]%float [y0; y1; y2; y3; y4]
      = Throw OrderError)
  /\ (forall y0 y1 y2 : xnum,
      createNearestNeighborInterpolator (Fin <$> [1; 1; 1 + 1]%Qc) [y0; y1; y2] = Throw OrderError
      /\ createLinearInterpolator (Fin <$> [1; 1; 1 + 1]%Qc) [y0; y1; y2] = Throw OrderError
      /\ createCubicSplineInterpolator (Fin <$> [1; 1; 1 + 1]%Qc) [y0; y1; y2] = Throw OrderError
      /\ createAkimaSplineInterpolator (Fin <$> [1; 1; 1 + 1]%Qc) [y0; y1; y2]
         = Throw InsufficientPointsError).
Proof.
  split; [|split]; intros; repeat split; reflexivity.
Qed.

(* ------------------------------------------------------------------ *)
(** ** The shape of the cubic coefficients *)

Section CubicShape.
Context {T : Type} `{Number T}.

Lemma cubicBackward_lengths (y h mu z : list T) (n : nat) :
  forall b c d, cubicBackward y h mu z n = (b, c, d) ->
  length b = n /\ length c = n + 1 /\ length d = n /\ c !! n = Some zero.
Proof.
  unfold cubicBackward.
  apply (for_down_ind (fun _ s => forall b c d, s = (b, c, d) ->
           length b = n /\ length c = n + 1 /\ length d = n /\ c !! n = Some zero));
    [lia| |].
  - intros b c d [= <- <- <-]. unfold Float64Array.
    rewrite length_insert, !length_replicate. repeat split.
    apply list_lookup_insert_eq. rewrite length_replicate. lia.
  - intros j [[b c] d] Hj IH b' c' d' [= <- <- <-].
    destruct (IH b c d eq_refl) as (Hb & Hc & Hd & Hn).
    rewrite !length_insert. repeat split; try done.
    rewrite list_lookup_insert_ne by lia. done.
Qed.

(** What the solver returns on input that passes its three checks. *)
Lemma computeCubicPolyCoefficients_shape (x y : list T) :
  length x = length y -> 3 <= length x -> MathArrays_checkOrder x = Ok tt ->
  exists b c d,
    computeCubicPolyCoefficients x y = Ok (b, c, d)
    /\ length b = length x - 1
    /\ length c = length x
    /\ length d = length x - 1
    /\ c !! (length x - 1) = Some zero.
Proof.
  intros Hlen Hmin Hord. unfold computeCubicPolyCoefficients.
  rewrite Hlen, Nat.eqb_refl. simpl negb. cbv iota.
  destruct (Nat.ltb_spec (length y) 3) as [|_]; [lia|].
  rewrite Hord. cbn [mbind result_bind]. cbv zeta.
  destruct (cubicForward _ _ _ _) as [mu z].
  destruct (cubicBackward _ _ _ _ _) as [[b c] d] eqn:Hback.
  apply cubicBackward_lengths in Hback as (Hb & Hc & Hd & Hn).
  exists b, c, d. rewrite <- Hlen in *. repeat split; try done. lia.
Qed.

End CubicShape.

(** Against C3 as stated: for three points (n = 2 intervals) the array
    [c] has three entries. *)
Lemma cubic_c_array_is_longer :
  exists b c d,
    computeCubicPolyCoefficients [0; 1; 2]%float [0; 1; 0]%float = Ok (b, c, d)
    /\ length b = 2 /\ length c = 3 /\ length c <> 2 /\ length d = 2.
Proof. do 3 eexists. split; [reflexivity|]. repeat split. discriminate. Qed.

(** C3, amended.  For rational samples of equal length, at least three
    points and strictly increasing [x], the solver returns three arrays:
    [b] and [d] have one entry per interval (n = length x - 1), and [c] has
    n + 1 entries, the last one the boundary value [c[n] = 0]. *)
Theorem cubic_coefficient_shapes (xs ys : list Qc) :
  length xs = length ys -> 3 <= length xs -> strictly_increasing xs ->
  exists b c d,
    computeCubicPolyCoefficients (Fin <$> xs) (Fin <$> ys) = Ok (b, c, d)
    /\ length b = length xs - 1
    /\ length c = length xs
    /\ length d = length xs - 1
    /\ c !! (length xs - 1) = Some (Fin 0%Qc).
Proof.
  intros Hlen Hmin Hinc.
  destruct (computeCubicPolyCoefficients_shape (Fin <$> xs) (Fin <$> ys))
    as (b & c & d & Hrun & Hb & Hc & Hd & Hn).
  - by rewrite !length_fmap.
  - by rewrite length_fmap.
  - by apply checkOrder_increasing.
  - rewrite length_fmap in *. by exists b, c, d.
Qed.

Lemma cubic_coefficient_shapes_witness :
  exists b c d,
    computeCubicPolyCoefficients (Fin <$> [0; 1; 1 + 1]%Qc) (Fin <$> [0; 1; 0]%Qc) = Ok (b, c, d)
    /\ length b = 2 /\ length c = 3 /\ length d = 2.
Proof.
  destruct (cubic_coefficient_shapes [0; 1; 1 + 1]%Qc [0; 1; 0]%Qc)
    as (b & c & d & Hrun & Hb & Hc & Hd & _).
  - reflexivity.
  - simpl. lia.
  - repeat split.
  - exists b, c, d. repeat split; assumption.
Defined.

(* ------------------------------------------------------------------ *)
(** ** NaN and the order check *)

Lemma leb_NaN_l (v : xnum) : (NaN <=? v)%num = false.
Proof. reflexivity. Qed.
Lemma leb_NaN_r (v : xnum) : (v <=? NaN)%num = false.
Proof. by destruct v. Qed.
Lemma ltb_NaN_l (v : xnum) : (NaN <? v)%num = false.
Proof. reflexivity. Qed.
Lemma ltb_NaN_r (v : xnum) : (v <? NaN)%num = false.
Proof. by destruct v. Qed.
Lemma eqb_NaN_l (v : xnum) : (NaN ==? v)%num = false.
Proof. reflexivity. Qed.
Lemma eqb_NaN_r (v : xnum) : (v ==? NaN)%num = false.
Proof. by destruct v. Qed.

(** C10.  The order check lets NaN through: [[a, NaN, b]] passes for all
    [a] and [b] (so does [[0, NaN, 2]] on doubles), because [<=] is false
    with NaN on either side.  A constructor then succeeds on such an [x]; on
    [[0, NaN, 2]] every query meets the NaN at its first probe and raises
    InvalidValueError, while on [[NaN, 1, 2]] the query 1.5 never probes the
    NaN and is answered. *)
Theorem checkOrder_accepts_NaN :
  (forall a b : xnum, MathArrays_checkOrder [a; NaN; b] = Ok tt)
  /\ MathArrays_checkOrder [0; nan; 2]%float = Ok tt
  /\ (exists f, createLinearInterpolator [0; nan; 2]%float [0; 1; 2]%float = Ok f
                /\ f 1%float = Throw InvalidValueError)
  /\ (forall y0 y1 y2 : xnum,
        exists f, createNearestNeighborInterpolator [Fin 0%Qc; NaN; Fin (1 + 1)%Qc] [y0; y1; y2] = Ok f
                  /\ forall q, f q = Throw InvalidValueError)
  /\ (exists f, createLinearInterpolator [nan; 1; 2]%float [0; 1; 2]%float = Ok f
                /\ f 1.5%float = Ok 1.5%float).
Proof.
  split; [|split; [|split; [|split]]].
  - intros a b. cbn [MathArrays_checkOrder checkOrder_from].
    by rewrite leb_NaN_l, leb_NaN_r.
  - reflexivity.
  - eexists. split; [reflexivity|]. vm_compute. reflexivity.
  - intros y0 y1 y2. eexists. split; [reflexivity|]. intros q.
    cbv beta. unfold Arrays_binarySearch.
    cbn [length binarySearch_loop Z.of_nat]. cbn.
    by rewrite ltb_NaN_l, ltb_NaN_r, eqb_NaN_l.
  - eexists. split; [reflexivity|]. vm_compute. reflexivity.
Qed.

(* ------------------------------------------------------------------ *)
(** ** The batch of queries *)

(** C1, the defect.  In [cubicSplineInterpolate] the inner callback's
    parameter [i] (the index of the query) hides the segment's [i], so the
    knot subtracted is [x[index of the query]].  With x = [0,1,2],
    y = [0,1,0] the single query 1.5 is answered -0.6875 by the batch and
    0.6875 by the evaluator of [createCubicSplineInterpolator]; the same
    query value 1.5 at the indices 1, 2 and 3 of a batch gets 0.6875 (index
    and segment agree), 0.5625 and NaN ([x[3]] is undefined).  On the exact
    numbers the two answers are -11/16 and 11/16. *)
Theorem batch_subtracts_knot_of_query_index :
  cubicSplineInterpolate [0; 1; 2]%float [0; 1; 0]%float [1.5]%float
    = Ok [Some (-0.6875)%float]
  /\ interpolateAt (createCubicSplineInterpolator [0; 1; 2]%float [0; 1; 0]%float) 1.5%float
    = Ok 0.6875%float
  /\ cubicSplineInterpolate [0; 1; 2]%float [0; 1; 0]%float [0.5; 1.5; 1.5; 1.5]%float
    = Ok [Some 0.6875%float; Some 0.6875%float; Some 0.5625%float; Some nan]
  /\ exists v w : Qc,
       cubicSplineInterpolate (Fin <$> [0; 1; 1 + 1]%Qc) (Fin <$> [0; 1; 0]%Qc)
         [Fin (Q2Qc (3 # 2))] = Ok [Some (Fin v)]
       /\ interpolateAt
            (createCubicSplineInterpolator (Fin <$> [0; 1; 1 + 1]%Qc) (Fin <$> [0; 1; 0]%Qc))
            (Fin (Q2Qc (3 # 2))) = Ok (Fin w)
       /\ v = Q2Qc (-11 # 16) /\ w = Q2Qc (11 # 16).
Proof.
  split; [vm_compute; reflexivity|].
  split; [vm_compute; reflexivity|].
  split; [vm_compute; reflexivity|].
  eexists _, _. split; [vm_compute; reflexivity|]. split; [vm_compute; reflexivity|].
  split; apply Qc_is_canon; reflexivity.
Qed.

(* ------------------------------------------------------------------ *)
(** ** Which error is raised when *)

Section Probes.
Context {T : Type} `{Number T}.

Lemma binarySearch_loop_throws fuel : forall (a : list T) key low high,
  (forall e, binarySearch_loop fuel a key low high = Throw e -> e = InvalidValueError)
  /\ (binarySearch_loop fuel a key low high = Throw InvalidValueError
      <-> exists mid, mid ∈ binarySearch_probes fuel a key low high
                      /\ incomparable (arefZ a mid) key = true).
Proof.
  induction fuel as [|fuel IH]; intros a key low high;
    rewrite binarySearch_loop_unfold; cbn [binarySearch_probes];
    destruct (low <=? high)%Z.
  - split; [done|]. split; [done|]. intros (mid & Hin & _). by apply elem_of_nil in Hin.
  - split; [done|]. split; [done|]. intros (mid & Hin & _). by apply elem_of_nil in Hin.
  - cbv zeta. set (mid := ushr1 (low + high)).
    destruct (IH a key (mid + 1)%Z high) as [IHe1 IHi1].
    destruct (IH a key low (mid - 1)%Z) as [IHe2 IHi2].
    unfold incomparable in *.
    destruct (arefZ a mid <? key)%num eqn:Hlt.
    { split; [done|]. rewrite IHi1. split.
      - intros (m & Hin & Hm). exists m. split; [by right|done].
      - intros (m & Hin & Hm). apply elem_of_cons in Hin as [->|Hin].
        + rewrite Hlt in Hm. done.
        + by exists m. }
    destruct (key <? arefZ a mid)%num eqn:Hgt.
    { split; [done|]. rewrite IHi2. split.
      - intros (m & Hin & Hm). exists m. split; [by right|done].
      - intros (m & Hin & Hm). apply elem_of_cons in Hin as [->|Hin].
        + rewrite Hlt, Hgt in Hm. done.
        + by exists m. }
    destruct (arefZ a mid ==? key)%num eqn:Heq.
    { split; [done|]. split; [done|].
      intros (m & Hin & Hm). apply elem_of_cons in Hin as [->|Hin].
      - rewrite Hlt, Hgt, Heq in Hm. done.
      - by apply elem_of_nil in Hin. }
    split; [by intros e [= <-]|]. split; [|done].
    intros _. exists mid. split; [left|]. by rewrite Hlt, Hgt, Heq.
  - split; [done|]. split; [done|]. intros (mid & Hin & _). by apply elem_of_nil in Hin.
Qed.

Lemma checkOrder_from_throws rest : forall (previous : T) e,
  checkOrder_from previous rest = Throw e -> e = OrderError.
Proof.
  induction rest as [|v rest IH]; intros previous e; simpl; [done|].
  destruct (v <=? previous)%num; [by intros [= <-]|apply IH].
Qed.

Lemma checkOrder_throws (val : list T) e :
  MathArrays_checkOrder val = Throw e -> e = OrderError.
Proof. destruct val; [done|]. apply checkOrder_from_throws. Qed.

Lemma spline_construction_errors (knots : list T) polynomials e :
  createPolynomialSplineFunction knots polynomials = Throw e -> e <> InvalidValueError.
Proof.
  unfold createPolynomialSplineFunction.
  destruct (length knots <? 2)%nat; [by intros [= <-]|].
  destruct (negb _); [by intros [= <-]|].
  destruct (MathArrays_checkOrder knots) eqn:Hord; cbn [mbind result_bind]; try done.
  intros [= <-]. by rewrite (checkOrder_throws _ _ Hord).
Qed.

Lemma spline_query_errors (knots : list T) polynomials f q e :
  createPolynomialSplineFunction knots polynomials = Ok f ->
  f q = Throw e -> e = InvalidValueError.
Proof.
  unfold createPolynomialSplineFunction.
  destruct (length knots <? 2)%nat; [done|].
  destruct (negb _); [done|].
  destruct (MathArrays_checkOrder knots) eqn:Hord; cbn [mbind result_bind]; try done.
  intros [= <-].
  destruct (Arrays_binarySearch knots q) eqn:Hs; cbn [mbind result_bind]; try done.
  intros [= <-]. by apply (binarySearch_loop_throws _ _ _ _ _) in Hs.
Qed.

Lemma createPolynomialFunction_throws (c : list T) e :
  createPolynomialFunction c = Throw e -> e = EmptyCoefficientsError.
Proof.
  unfold createPolynomialFunction. destruct (length c =? 0)%nat; [|done]. by intros [= <-].
Qed.

(** The loops that build the polynomials throw at most the error of an
    empty coefficient array. *)
Lemma polynomial_loop_errors (fill : nat -> list T -> list T) (idxs : list nat) :
  forall s e,
    for_each (fun i '(coefficients, polynomials) =>
        let coefficients := fill i coefficients in
        p ← createPolynomialFunction coefficients;
        Ok (coefficients, polynomials ++ [p]))
      idxs s = Throw e ->
    e = EmptyCoefficientsError.
Proof.
  induction idxs as [|i idxs IH]; intros [c ps] e; cbn [for_each]; [done|].
  cbv zeta. destruct (createPolynomialFunction (fill i c)) as [p|e'|] eqn:Hp;
    cbn [mbind result_bind]; [apply IH| |done].
  intros [= <-]. by apply createPolynomialFunction_throws in Hp.
Qed.

Lemma spline_raisesAtConstructionOnly (knots : list T) polynomials :
  raisesAtConstructionOnly (createPolynomialSplineFunction knots polynomials).
Proof.
  split.
  - apply spline_construction_errors.
  - intros f q e. apply spline_query_errors.
Qed.

Lemma bind_raisesAtConstructionOnly {A : Type} (r : result A)
    (k : A -> result (T -> result T)) :
  (forall e, r = Throw e -> e <> InvalidValueError) ->
  (forall a, raisesAtConstructionOnly (k a)) ->
  raisesAtConstructionOnly (r ≫= k).
Proof.
  intros Hr Hk. destruct r as [a|e'|]; cbn [mbind result_bind].
  - apply Hk.
  - split; [|done]. intros e [= <-]. by apply Hr.
  - split; done.
Qed.

Lemma Throw_raisesAtConstructionOnly e :
  e <> InvalidValueError -> raisesAtConstructionOnly (T:=T) (Throw e).
Proof. intros He. split; [by intros ? [= <-]|done]. Qed.

Lemma interpolateHermiteSorted_raises (xvals yvals firstDerivatives : list T) :
  raisesAtConstructionOnly (interpolateHermiteSorted xvals yvals firstDerivatives).
Proof.
  unfold interpolateHermiteSorted. cbv zeta.
  destruct (_ || _); [by apply Throw_raisesAtConstructionOnly|].
  destruct (_ <? _)%nat; [by apply Throw_raisesAtConstructionOnly|].
  apply bind_raisesAtConstructionOnly.
  - intros e He.
    by rewrite (polynomial_loop_errors (hermiteCoefficients xvals yvals firstDerivatives) _ _ _ He).
  - intros [c ps]. apply spline_raisesAtConstructionOnly.
Qed.

Lemma createAkimaSplineInterpolator_raises (xvals yvals : list T) :
  raisesAtConstructionOnly (createAkimaSplineInterpolator xvals yvals).
Proof.
  unfold createAkimaSplineInterpolator. cbv zeta.
  destruct (negb _); [by apply Throw_raisesAtConstructionOnly|].
  destruct (_ <? _)%nat; [by apply Throw_raisesAtConstructionOnly|].
  apply bind_raisesAtConstructionOnly.
  - intros e He. by rewrite (checkOrder_throws _ _ He).
  - intros _. apply interpolateHermiteSorted_raises.
Qed.

Lemma computeCubicPolyCoefficients_throws (x y : list T) e :
  computeCubicPolyCoefficients x y = Throw e -> e <> InvalidValueError.
Proof.
  unfold computeCubicPolyCoefficients.
  destruct (negb _); [by intros [= <-]|].
  destruct (_ <? _)%nat; [by intros [= <-]|].
  destruct (MathArrays_checkOrder x) eqn:Hord; cbn [mbind result_bind]; try done.
  - cbv zeta. by destruct (cubicForward _ _ _ _).
  - intros [= <-]. by rewrite (checkOrder_throws _ _ Hord).
Qed.

Lemma createCubicSplineInterpolator_raises (x y : list T) :
  raisesAtConstructionOnly (createCubicSplineInterpolator x y).
Proof.
  unfold createCubicSplineInterpolator.
  apply bind_raisesAtConstructionOnly; [apply computeCubicPolyCoefficients_throws|].
  intros [[b c] d]. cbv zeta.
  apply bind_raisesAtConstructionOnly.
  - intros e He. by rewrite (polynomial_loop_errors (cubicCoefficients y b c d) _ _ _ He).
  - intros [c' ps]. apply spline_raisesAtConstructionOnly.
Qed.

Lemma createLinearInterpolator_raises (x y : list T) :
  raisesAtConstructionOnly (createLinearInterpolator x y).
Proof.
  unfold createLinearInterpolator.
  destruct (negb _); [by apply Throw_raisesAtConstructionOnly|].
  destruct (_ <? _)%nat; [by apply Throw_raisesAtConstructionOnly|].
  cbv zeta. apply bind_raisesAtConstructionOnly.
  - intros e He. by rewrite (checkOrder_throws _ _ He).
  - intros _. apply bind_raisesAtConstructionOnly.
    + intros e He.
      by rewrite (polynomial_loop_errors
        (fun i c => <[1 := aref _ i]> (<[0 := aref y i]> c)) _ _ _ He).
    + intros [c' ps]. apply spline_raisesAtConstructionOnly.
Qed.

Lemma createNearestNeighborInterpolator_raises (xvals yvals : list T) :
  raisesAtConstructionOnly (createNearestNeighborInterpolator xvals yvals).
Proof.
  unfold createNearestNeighborInterpolator. cbv zeta.
  destruct (negb _); [by apply Throw_raisesAtConstructionOnly|].
  destruct (_ =? 0)%nat; [split; [done|by intros f q e [= <-]]|].
  destruct (_ =? 1)%nat; [split; [done|by intros f q e [= <-]]|].
  apply bind_raisesAtConstructionOnly.
  - intros e He. by rewrite (checkOrder_throws _ _ He).
  - intros _. split; [done|]. intros f q e [= <-].
    destruct (Arrays_binarySearch xvals q) as [i|e'|] eqn:Hs; cbn [mbind result_bind];
      [|intros [= <-]; by apply (binarySearch_loop_throws _ _ _ _ _) in Hs|done].
    repeat (match goal with |- context [if ?b then _ else _] => destruct b end); done.
Qed.

End Probes.

Lemma incomparable_xnum (v key : xnum) :
  incomparable v key = true <-> v = NaN \/ key = NaN.
Proof.
  unfold incomparable. destruct v as [p|], key as [q|]; try (split; [by auto|done]).
  xnum_simpl. split; [|by intros [|]].
  intros Hc. exfalso. apply andb_prop in Hc as [Hc He]. apply andb_prop in Hc as [Hl Hg].
  apply negb_true_iff in He, Hl, Hg.
  apply Qc_is_Eq_false in He. apply He. by apply Qc_trichotomy.
Qed.

(* ------------------------------------------------------------------ *)
(** ** The natural cubic spline on rationals *)

Lemma insert_Fin (i : nat) (v : Qc) (l : list Qc) :
  <[i := Fin v]> (Fin <$> l) = Fin <$> <[i := v]> l.
Proof. by rewrite list_fmap_insert. Qed.

Lemma Float64Array_Fin (n : nat) : Float64Array n = Fin <$> replicate n 0%Qc.
Proof. unfold Float64Array. by rewrite fmap_replicate. Qed.

Lemma qref_insert_eq (l : list Qc) (i : nat) (v : Qc) :
  i < length l -> qref (<[i := v]> l) i = v.
Proof. intros Hi. unfold qref. by rewrite list_lookup_insert_eq. Qed.

Lemma qref_insert_ne (l : list Qc) (i k : nat) (v : Qc) :
  i <> k -> qref (<[i := v]> l) k = qref l k.
Proof. intros Hne. unfold qref. by rewrite list_lookup_insert_ne. Qed.

Lemma Qc_two_nonzero : (1 + 1)%Qc <> 0%Qc.
Proof. discriminate. Qed.

Lemma Qc_three_nonzero : (1 + 1 + 1)%Qc <> 0%Qc.
Proof. discriminate. Qed.

Lemma Qc_pos_nonzero (a : Qc) : (0 < a)%Qc -> a <> 0%Qc.
Proof. intros Ha ->. by apply Qclt_not_eq in Ha. Qed.

Lemma Qc_mult_nonzero (a b : Qc) : a <> 0%Qc -> b <> 0%Qc -> (a * b)%Qc <> 0%Qc.
Proof. intros Ha Hb Hab. by destruct (Qcmult_integral _ _ Hab). Qed.

Lemma step_positive xs i :
  strictly_increasing xs -> i + 1 < length xs -> (0 < qref xs (i + 1) - qref xs i)%Qc.
Proof.
  intros Hinc Hi.
  pose proof (strictly_increasing_qref xs i (i + 1) Hinc ltac:(lia) Hi).
  qc_to_q. lra.
Qed.

(** The pivot of the forward sweep is above the width of the interval. *)
Lemma pivot_bound (xm x0 xp m : Qc) :
  (xm < x0)%Qc -> (x0 < xp)%Qc -> (0 <= m)%Qc -> (m <= 1)%Qc ->
  (xp - x0 < (1 + 1) * (xp - xm) - (x0 - xm) * m)%Qc.
Proof. intros. qc_to_q. nra. Qed.

Lemma ratio_bound (h g : Qc) :
  (0 < h)%Qc -> (h < g)%Qc -> (0 <= h / g)%Qc /\ (h / g <= 1)%Qc.
Proof.
  intros. assert (g <> 0%Qc) by (qc_to_q; lra).
  assert (h = (h / g) * g)%Qc as Hh by (field; done).
  qc_to_q. split; nra.
Qed.

Lemma widths_length xs : length (widths xs) = length xs - 1.
Proof. unfold widths. by rewrite length_fmap, length_seq. Qed.

Lemma widths_qref xs i :
  i + 1 < length xs -> qref (widths xs) i = (qref xs (i + 1) - qref xs i)%Qc.
Proof.
  intros Hi. unfold qref at 1, widths.
  rewrite list_lookup_fmap, lookup_seq_lt by lia. done.
Qed.

Lemma widths_loop xs :
  for_up 0 (length xs - 1)
    (fun i h => <[i := (aref (Fin <$> xs) (i + 1) - aref (Fin <$> xs) i)%num]> h)
    (Float64Array (length xs - 1))
  = Fin <$> widths xs.
Proof.
  destruct (for_up_fill
    (fun i => (aref (Fin <$> xs) (i + 1) - aref (Fin <$> xs) i)%num)
    0 (length xs - 1) (Float64Array (length xs - 1)) ltac:(lia)) as (Hlen & Hin & _).
  cbv zeta in Hlen, Hin. set (h := for_up _ _ _ _) in *.
  unfold Float64Array in Hlen. rewrite length_replicate in Hlen.
  apply list_eq. intros k. rewrite list_lookup_fmap.
  destruct (decide (k < length xs - 1)) as [Hk|Hk].
  - rewrite Hin; [|lia|unfold Float64Array; rewrite length_replicate; lia].
    unfold widths. rewrite list_lookup_fmap, lookup_seq_lt by lia. simpl.
    rewrite !aref_Fin by lia. by xnum_simpl.
  - rewrite !lookup_ge_None_2; [done| |lia].
    rewrite widths_length. lia.
Qed.

(** The forward sweep on rationals divides by positive pivots only: its
    two arrays are rational, and every [mu[i]] lies in [0, 1]. *)
Lemma cubicForward_rational (xs ys : list Qc) :
  strictly_increasing xs -> length ys = length xs -> 2 <= length xs ->
  exists muq zq,
    cubicForward (Fin <$> xs) (Fin <$> ys) (Fin <$> widths xs) (length xs - 1)
      = (Fin <$> muq, Fin <$> zq)
    /\ length muq = length xs - 1 /\ length zq = length xs.
Proof.
  intros Hinc Hys Hlen. unfold cubicForward. set (n := length xs - 1).
  cut (exists muq zq,
    for_up 1 n
      (fun i '(mu, z) =>
         let g := (two * (aref (Fin <$> xs) (i + 1) - aref (Fin <$> xs) (i - 1))
                   - aref (Fin <$> widths xs) (i - 1) * aref mu (i - 1))%num in
         let mu := <[i := (aref (Fin <$> widths xs) i / g)%num]> mu in
         let z := <[i := ((three * (aref (Fin <$> ys) (i + 1) * aref (Fin <$> widths xs) (i - 1)
                                    - aref (Fin <$> ys) i
                                      * (aref (Fin <$> xs) (i + 1) - aref (Fin <$> xs) (i - 1))
                                    + aref (Fin <$> ys) (i - 1) * aref (Fin <$> widths xs) i)
                           / (aref (Fin <$> widths xs) (i - 1) * aref (Fin <$> widths xs) i)
                           - aref (Fin <$> widths xs) (i - 1) * aref z (i - 1)) / g)%num]> z in
         (mu, z))
      (<[0 := zero]> (Float64Array n), <[0 := zero]> (Float64Array (n + 1)))
    = (Fin <$> muq, Fin <$> zq)
    /\ length muq = n /\ length zq = n + 1
    /\ forall k, k < n -> (0 <= qref muq k)%Qc /\ (qref muq k <= 1)%Qc).
  { intros (muq & zq & Heq & Hmu & Hz & _). exists muq, zq.
    split; [exact Heq|]. split; [done|]. unfold n in *. lia. }
  apply (for_up_ind (fun i (s : list xnum * list xnum) =>
    exists muq zq, s = (Fin <$> muq, Fin <$> zq)
      /\ length muq = n /\ length zq = n + 1
      /\ forall k, k < i -> (0 <= qref muq k)%Qc /\ (qref muq k <= 1)%Qc)).
  - unfold n. lia.
  - exists (<[0 := 0%Qc]> (replicate n 0%Qc)), (<[0 := 0%Qc]> (replicate (n + 1) 0%Qc)).
    rewrite !Float64Array_Fin, zero_Fin, !insert_Fin, !length_insert, !length_replicate.
    repeat split; try done.
    + assert (k = 0) as -> by lia. rewrite qref_insert_eq; [done|].
      rewrite length_replicate. unfold n. lia.
    + assert (k = 0) as -> by lia. rewrite qref_insert_eq; [done|].
      rewrite length_replicate. unfold n. lia.
  - intros i [mu z] Hi (muq & zq & [= -> ->] & Hmu & Hz & Hbound).
    destruct (Hbound (i - 1) ltac:(lia)) as [Hm0 Hm1].
    pose proof (strictly_increasing_qref xs (i - 1) i Hinc ltac:(lia) ltac:(unfold n in *; lia)) as Hx1.
    pose proof (strictly_increasing_qref xs i (i + 1) Hinc ltac:(lia) ltac:(unfold n in *; lia)) as Hx2.
    pose proof (pivot_bound _ _ _ _ Hx1 Hx2 Hm0 Hm1) as Hg.
    pose proof (step_positive xs i Hinc ltac:(unfold n in *; lia)) as Hhi.
    pose proof (step_positive xs (i - 1) Hinc ltac:(unfold n in *; lia)) as Hhm.
    replace (i - 1 + 1) with i in Hhm by lia.
    set (g := ((1 + 1) * (qref xs (i + 1) - qref xs (i - 1))
               - (qref xs i - qref xs (i - 1)) * qref muq (i - 1))%Qc) in *.
    assert (0 < g)%Qc as Hgpos by (eapply Qclt_trans; [exact Hhi|exact Hg]).
    cbv zeta. rewrite !aref_Fin by (rewrite ?widths_length; unfold n in *; lia).
    rewrite !widths_qref by (unfold n in *; lia).
    replace (i - 1 + 1) with i by lia. xnum_simpl. fold g.
    repeat (rewrite div_Fin by
              (try apply Qc_mult_nonzero; apply Qc_pos_nonzero; assumption);
            xnum_simpl).
    rewrite !insert_Fin.
    eexists _, _. split; [reflexivity|]. rewrite !length_insert.
    split; [done|]. split; [done|].
    intros k Hk. destruct (decide (k = i)) as [->|Hne].
    + rewrite qref_insert_eq by lia. by apply ratio_bound.
    + rewrite qref_insert_ne by done. apply Hbound. lia.
Qed.

Lemma cubicBackward_rational (xs ys muq zq : list Qc) :
  strictly_increasing xs -> length ys = length xs -> 2 <= length xs ->
  length muq = length xs - 1 -> length zq = length xs ->
  exists bq cq dq,
    cubicBackward (Fin <$> ys) (Fin <$> widths xs) (Fin <$> muq) (Fin <$> zq) (length xs - 1)
      = (Fin <$> bq, Fin <$> cq, Fin <$> dq)
    /\ cubic_relations xs ys bq cq dq.
Proof.
  intros Hinc Hys Hlen Hmu Hz. unfold cubicBackward, cubic_relations. set (n := length xs - 1).
  cut (exists bq cq dq,
    for_down 0 n
      (fun j '(b, c, d) =>
         let c := <[j := (aref (Fin <$> zq) j - aref (Fin <$> muq) j * aref c (j + 1))%num]> c in
         let b := <[j := ((aref (Fin <$> ys) (j + 1) - aref (Fin <$> ys) j)
                          / aref (Fin <$> widths xs) j
                          - aref (Fin <$> widths xs) j * (aref c (j + 1) + two * aref c j)
                            / three)%num]> b in
         let d := <[j := ((aref c (j + 1) - aref c j)
                          / (three * aref (Fin <$> widths xs) j))%num]> d in
         (b, c, d))
      (Float64Array n, <[n := zero]> (Float64Array (n + 1)), Float64Array n)
    = (Fin <$> bq, Fin <$> cq, Fin <$> dq)
    /\ length bq = n /\ length cq = n + 1 /\ length dq = n
    /\ forall j, 0 <= j < n ->
       qref bq j
       = ((qref ys (j + 1) - qref ys j) / (qref xs (j + 1) - qref xs j)
          - (qref xs (j + 1) - qref xs j) * (qref cq (j + 1) + (1 + 1) * qref cq j)
            / (1 + 1 + 1))%Qc
       /\ qref dq j
          = ((qref cq (j + 1) - qref cq j) / ((1 + 1 + 1) * (qref xs (j + 1) - qref xs j)))%Qc).
  { intros (bq & cq & dq & Heq & Hb & Hc & Hd & Hrel). exists bq, cq, dq.
    split; [exact Heq|]. unfold n in *. repeat split; try lia; apply Hrel; lia. }
  apply (for_down_ind (fun i (s : list xnum * list xnum * list xnum) =>
    exists bq cq dq, s = (Fin <$> bq, Fin <$> cq, Fin <$> dq)
      /\ length bq = n /\ length cq = n + 1 /\ length dq = n
      /\ forall j, i <= j < n ->
         qref bq j
         = ((qref ys (j + 1) - qref ys j) / (qref xs (j + 1) - qref xs j)
            - (qref xs (j + 1) - qref xs j) * (qref cq (j + 1) + (1 + 1) * qref cq j)
              / (1 + 1 + 1))%Qc
         /\ qref dq j
            = ((qref cq (j + 1) - qref cq j) / ((1 + 1 + 1) * (qref xs (j + 1) - qref xs j)))%Qc)).
  - lia.
  - exists (replicate n 0%Qc), (<[n := 0%Qc]> (replicate (n + 1) 0%Qc)), (replicate n 0%Qc).
    rewrite !Float64Array_Fin, zero_Fin, !insert_Fin, !length_insert, !length_replicate.
    repeat split; intros; lia.
  - intros i [[b c] d] Hi (bq & cq & dq & [= -> -> ->] & Hb & Hc & Hd & Hrel).
    pose proof (step_positive xs i Hinc ltac:(unfold n in *; lia)) as Hh.
    cbv zeta. rewrite !aref_Fin by (rewrite ?widths_length; unfold n in *; lia).
    xnum_simpl. rewrite insert_Fin.
    rewrite !aref_Fin by (rewrite ?length_insert; lia).
    rewrite !widths_qref by (unfold n in *; lia).
    repeat (rewrite div_Fin by
              (try apply Qc_mult_nonzero; try apply Qc_three_nonzero;
               apply Qc_pos_nonzero; assumption);
            xnum_simpl).
    rewrite !insert_Fin.
    eexists _, _, _. split; [reflexivity|]. rewrite !length_insert.
    split; [done|]. split; [done|]. split; [done|].
    intros j Hj. destruct (decide (j = i)) as [->|Hne].
    + rewrite !qref_insert_eq by lia. done.
    + rewrite !(qref_insert_ne _ i j) by done.
      rewrite (qref_insert_ne _ i (j + 1)) by lia. apply Hrel. lia.
Qed.

(** The solver on rationals. *)
Lemma computeCubicPolyCoefficients_rational (xs ys : list Qc) :
  strictly_increasing xs -> length ys = length xs -> 3 <= length xs ->
  exists bq cq dq,
    computeCubicPolyCoefficients (Fin <$> xs) (Fin <$> ys)
      = Ok (Fin <$> bq, Fin <$> cq, Fin <$> dq)
    /\ cubic_relations xs ys bq cq dq.
Proof.
  intros Hinc Hys Hlen. unfold computeCubicPolyCoefficients.
  rewrite !length_fmap, Hys, Nat.eqb_refl. simpl negb. cbv iota.
  destruct (Nat.ltb_spec (length xs) 3) as [|_]; [lia|].
  rewrite (checkOrder_increasing xs Hinc). cbn [mbind result_bind]. cbv zeta.
  rewrite widths_loop.
  destruct (cubicForward_rational xs ys Hinc Hys ltac:(lia)) as (muq & zq & -> & Hmu & Hz).
  rewrite zero_Fin, insert_Fin.
  destruct (cubicBackward_rational xs ys muq (<[length xs - 1 := 0%Qc]> zq) Hinc Hys ltac:(lia) Hmu
              ltac:(by rewrite length_insert)) as (bq & cq & dq & -> & Hrel).
  by exists bq, cq, dq.
Qed.

(** The cubic interpolator on rationals: its evaluator answers with the
    cubic of the query's segment. *)
Lemma createCubicSplineInterpolator_eval (xs ys : list Qc) :
  3 <= length xs -> length ys = length xs ->
  strictly_increasing xs -> (Z.of_nat (length xs) <= 2 ^ 31)%Z ->
  exists f bq cq dq,
    createCubicSplineInterpolator (Fin <$> xs) (Fin <$> ys) = Ok f
    /\ computeCubicPolyCoefficients (Fin <$> xs) (Fin <$> ys)
       = Ok (Fin <$> bq, Fin <$> cq, Fin <$> dq)
    /\ cubic_relations xs ys bq cq dq
    /\ forall q,
         let s := segmentOf xs q in
         f (Fin q)
         = Ok (Fin (cubicValue (qref ys s) (qref bq s) (qref cq s) (qref dq s)
                      (q - qref xs s)%Qc)).
Proof.
  intros Hlen Hys Hinc Hbound. unfold createCubicSplineInterpolator.
  destruct (computeCubicPolyCoefficients_rational xs ys Hinc Hys Hlen)
    as (bq & cq & dq & Hsolve & Hrel).
  rewrite Hsolve. cbn [mbind result_bind]. cbv zeta. rewrite length_fmap.
  set (n := length xs - 1).
  set (y := Fin <$> ys). set (b := Fin <$> bq). set (c := Fin <$> cq). set (d := Fin <$> dq).
  destruct (for_each_polynomials (cubicCoefficients y b c d)
    (fun i => [aref y i; aref b i; aref c i; aref d i]) 4 (seq 0 n) ltac:(lia))
    with (c := Float64Array (T:=xnum) 4) (ps := @nil (xnum -> xnum))
    as (c' & Hrun & _).
  { intros i k _ Hk. destruct k as [|k0 [|k1 [|k2 [|k3 [|]]]]]; simpl in Hk; try lia. done. }
  { done. }
  { done. }
  cbv zeta in Hrun. rewrite Hrun. cbn [mbind result_bind]. rewrite app_nil_l.
  destruct (createPolynomialSplineFunction_eval xs
              ((fun i => polynomialOf [aref y i; aref b i; aref c i; aref d i]) <$> seq 0 n))
    as (f & -> & Heval); [lia| |done|done|].
  { by rewrite length_fmap, length_seq. }
  exists f, bq, cq, dq. split; [done|]. split; [done|]. split; [done|]. intros q. cbv zeta.
  set (s := segmentOf xs q).
  pose proof (segmentOf_lt xs q ltac:(lia)) as Hseg. fold s in Hseg.
  destruct Hrel as (Hb & Hc & Hd & _).
  rewrite (Heval q (polynomialOf [aref y s; aref b s; aref c s; aref d s]) (qref xs s)).
  - unfold y, b, c, d. rewrite !aref_Fin by lia. xnum_simpl. by rewrite polynomialOf_4.
  - fold s. rewrite list_lookup_fmap, lookup_seq_lt by (unfold n; lia). done.
  - apply qref_lookup. lia.
Qed.

(** A cubic whose [b] and [d] obey the relations reaches the next sample
    at the end of its interval. *)
Lemma cubicValue_right_end (y yP h b c cP d : Qc) :
  h <> 0%Qc ->
  b = ((yP - y) / h - h * (cP + (1 + 1) * c) / (1 + 1 + 1))%Qc ->
  d = ((cP - c) / ((1 + 1 + 1) * h))%Qc ->
  cubicValue y b c d h = yP.
Proof.
  intros Hh -> ->. unfold cubicValue. field. split; [discriminate|done].
Qed.

Lemma cubicValue_left_end (y b c d : Qc) : cubicValue y b c d 0%Qc = y.
Proof. unfold cubicValue. ring. Qed.

Lemma minus_diag (a : Qc) : (a - a)%Qc = 0%Qc.
Proof. ring. Qed.

(** The cubic interpolator returns the samples at the knots. *)
Lemma createCubicSplineInterpolator_knots (xs ys : list Qc) :
  3 <= length xs -> length ys = length xs ->
  strictly_increasing xs -> (Z.of_nat (length xs) <= 2 ^ 31)%Z ->
  exists f,
    createCubicSplineInterpolator (Fin <$> xs) (Fin <$> ys) = Ok f
    /\ forall i xi yi, xs !! i = Some xi -> ys !! i = Some yi -> f (Fin xi) = Ok (Fin yi).
Proof.
  intros Hlen Hys Hinc Hbound.
  destruct (createCubicSplineInterpolator_eval xs ys Hlen Hys Hinc Hbound)
    as (f & bq & cq & dq & Hf & _ & Hrel & Heval).
  exists f. split; [done|]. intros i xi yi Hxi Hyi.
  rewrite Heval. cbv zeta. rewrite (segmentOf_knot xs i xi Hinc Hbound Hxi).
  pose proof (lookup_lt_Some _ _ _ Hxi) as Hi.
  destruct (decide (i <= length xs - 2)) as [Hin|Hlast].
  - rewrite Nat.min_l by done.
    rewrite (qref_Some _ _ _ Hxi), (qref_Some _ _ _ Hyi), minus_diag.
    by rewrite cubicValue_left_end.
  - rewrite Nat.min_r by lia. destruct Hrel as (_ & _ & _ & Hrel).
    destruct (Hrel (length xs - 2) ltac:(lia)) as [Hb Hd].
    replace (length xs - 2 + 1) with i in * by lia.
    rewrite (qref_Some _ _ _ Hxi), (qref_Some _ _ _ Hyi) in *.
    do 2 f_equal. eapply cubicValue_right_end; [|exact Hb|exact Hd].
    pose proof (step_nonzero xs (length xs - 2) Hinc ltac:(lia)) as Hstep.
    replace (length xs - 2 + 1) with i in Hstep by lia.
    by rewrite (qref_Some _ _ _ Hxi) in Hstep.
Qed.

(* ------------------------------------------------------------------ *)
(** ** The Akima spline on rationals *)

(** A loop that stores a rational satisfying [Pv] at index [i] of a
    rational array keeps the array rational, with [Pv] on every entry. *)
Lemma for_up_rational (Pv : Qc -> Prop) (body : nat -> list xnum -> list xnum)
    (lo hi : nat) (a0 : list Qc) :
  lo <= hi -> Forall Pv a0 ->
  (forall i aq, lo <= i < hi -> length aq = length a0 ->
     exists v, Pv v /\ body i (Fin <$> aq) = Fin <$> <[i := v]> aq) ->
  exists aq, for_up lo hi body (Fin <$> a0) = Fin <$> aq
             /\ length aq = length a0 /\ Forall Pv aq.
Proof.
  intros Hle H0 Hstep.
  apply (for_up_ind (fun _ a => exists aq, a = Fin <$> aq
                                 /\ length aq = length a0 /\ Forall Pv aq)); [done| |].
  - by exists a0.
  - intros i a Hi (aq & -> & Hlen & Hall).
    destruct (Hstep i aq Hi Hlen) as (v & Hv & ->).
    exists (<[i := v]> aq). split; [done|]. split; [by rewrite length_insert|].
    by apply Forall_insert.
Qed.

Lemma Forall_qref (Pv : Qc -> Prop) (l : list Qc) (k : nat) :
  Forall Pv l -> k < length l -> Pv (qref l k).
Proof.
  intros Hall Hk. rewrite Forall_lookup in Hall. apply (Hall k). by apply qref_lookup.
Qed.

Lemma Qcabs_nonneg (a : Qc) : (0 <= Qcabs a)%Qc.
Proof.
  unfold Qcabs. destruct (Qc_is Lt a 0%Qc) eqn:Ha.
  - apply Qc_is_Lt in Ha. qc_to_q. lra.
  - by apply Qc_is_Lt_false in Ha.
Qed.

Lemma Qcabs_of_nonneg (a : Qc) : (0 <= a)%Qc -> Qcabs a = a.
Proof.
  intros Ha. unfold Qcabs. by apply Qc_is_Lt_false in Ha as ->.
Qed.

Lemma sum_nonneg_zero (a b : Qc) :
  (0 <= a)%Qc -> (0 <= b)%Qc -> (a + b)%Qc = 0%Qc -> a = 0%Qc /\ b = 0%Qc.
Proof.
  intros Ha Hb Hab. split; apply Qcle_antisym; try done; qc_to_q; lra.
Qed.

(** The three-point derivative on rationals with three distinct abscissae
    in increasing order is a rational. *)
Lemma differentiateThreePoint_rational (xs ys : list Qc) (i0 i1 i2 i3 : nat) :
  strictly_increasing xs -> length ys = length xs ->
  i0 < length xs -> i1 < i2 -> i2 < i3 -> i3 < length xs ->
  exists v, differentiateThreePoint (Fin <$> xs) (Fin <$> ys) i0 i1 i2 i3 = Fin v.
Proof.
  intros Hinc Hys H0 H12 H23 H3. unfold differentiateThreePoint. cbv zeta.
  rewrite !aref_Fin by lia. xnum_simpl.
  pose proof (strictly_increasing_qref xs i1 i2 Hinc H12 ltac:(lia)) as Hx12.
  pose proof (strictly_increasing_qref xs i2 i3 Hinc H23 H3) as Hx23.
  assert ((qref xs i2 - qref xs i1)%Qc <> 0%Qc) as Ht1 by (qc_to_q; lra).
  assert (((qref xs i3 - qref xs i1) * (qref xs i3 - qref xs i1)
           - (qref xs i2 - qref xs i1) * (qref xs i3 - qref xs i1))%Qc <> 0%Qc) as Ht2.
  { replace ((qref xs i3 - qref xs i1) * (qref xs i3 - qref xs i1)
             - (qref xs i2 - qref xs i1) * (qref xs i3 - qref xs i1))%Qc
      with ((qref xs i3 - qref xs i1) * (qref xs i3 - qref xs i2))%Qc by ring.
    apply Qc_mult_nonzero; qc_to_q; lra. }
  repeat (rewrite div_Fin by assumption; xnum_simpl).
  by eexists.
Qed.

Lemma akimaDifferences_rational (xs ys : list Qc) :
  strictly_increasing xs -> length ys = length xs ->
  exists dq, akimaDifferences (Fin <$> xs) (Fin <$> ys) (length xs - 1) = Fin <$> dq
             /\ length dq = length xs - 1.
Proof.
  intros Hinc Hys. unfold akimaDifferences. rewrite Float64Array_Fin.
  edestruct (for_up_rational (fun _ => True)) as (dq & Heq & Hlen & _); cycle 3.
  - exists dq. split; [exact Heq|]. by rewrite Hlen, length_replicate.
  - lia.
  - by apply Forall_forall.
  - intros i aq Hi Hlen. cbv beta.
    rewrite !aref_Fin by lia. xnum_simpl.
    rewrite div_Fin by (apply step_nonzero; [done|lia]).
    rewrite insert_Fin. by eexists.
Qed.

Lemma akimaWeights_rational (dq : list Qc) :
  1 <= length dq ->
  exists wq, akimaWeights (Fin <$> dq) (length dq) = Fin <$> wq
             /\ length wq = length dq /\ Forall (fun w => (0 <= w)%Qc) wq.
Proof.
  intros Hdq. unfold akimaWeights. rewrite Float64Array_Fin.
  destruct (for_up_rational (fun w => (0 <= w)%Qc)
    (fun i weights =>
       <[i := abs (aref (Fin <$> dq) i - aref (Fin <$> dq) (i - 1))%num]> weights)
    1 (length dq) (replicate (length dq) 0%Qc) Hdq) as (wq & Heq & Hlen & Hall).
  - apply Forall_forall. intros w Hw. apply elem_of_replicate in Hw as [-> _]. apply Qcle_refl.
  - intros i aq Hi Hlen. cbv beta.
    rewrite !aref_Fin by lia. xnum_simpl.
    rewrite insert_Fin. eexists. split; [|reflexivity]. apply Qcabs_nonneg.
  - exists wq. split; [exact Heq|]. by rewrite Hlen, length_replicate.
Qed.

Lemma EPSILON_Fin : EPSILON = Fin (Q2Qc (1 # 4503599627370496)).
Proof. reflexivity. Qed.

Lemma akimaInterior_rational (xs dq wq : list Qc) :
  strictly_increasing xs -> 5 <= length xs ->
  length dq = length xs - 1 -> length wq = length xs - 1 ->
  Forall (fun w => (0 <= w)%Qc) wq ->
  exists iq, akimaInterior (Fin <$> xs) (Fin <$> dq) (Fin <$> wq) (length xs) = Fin <$> iq
             /\ length iq = length xs.
Proof.
  intros Hinc Hlen Hdq Hwq Hpos. unfold akimaInterior. rewrite Float64Array_Fin.
  destruct (for_up_rational (fun _ => True)
    (fun i firstDerivatives =>
      let wP := aref (Fin <$> wq) (i + 1) in
      let wM := aref (Fin <$> wq) (i - 1) in
      if (abs wP <? EPSILON)%num && (abs wM <? EPSILON)%num then
        let xv := aref (Fin <$> xs) i in
        let xvP := aref (Fin <$> xs) (i + 1) in
        let xvM := aref (Fin <$> xs) (i - 1) in
        <[i := (((xvP - xv) * aref (Fin <$> dq) (i - 1) + (xv - xvM) * aref (Fin <$> dq) i)
                / (xvP - xvM))%num]> firstDerivatives
      else
        <[i := ((wP * aref (Fin <$> dq) (i - 1) + wM * aref (Fin <$> dq) i) / (wP + wM))%num]>
          firstDerivatives)
    2 (length xs - 2) (replicate (length xs) 0%Qc) ltac:(lia)) as (iq & Heq & Hiq & _).
  - by apply Forall_forall.
  - intros i aq Hi Haq. cbv zeta.
    rewrite !aref_Fin by lia. rewrite EPSILON_Fin. xnum_simpl.
    pose proof (Forall_qref _ wq (i + 1) Hpos ltac:(lia)) as HwP.
    pose proof (Forall_qref _ wq (i - 1) Hpos ltac:(lia)) as HwM. cbv beta in HwP, HwM.
    rewrite !Qcabs_of_nonneg by done.
    destruct (Qc_is Lt (qref wq (i + 1)) _ && Qc_is Lt (qref wq (i - 1)) _) eqn:Hflat.
    + pose proof (strictly_increasing_qref xs (i - 1) (i + 1) Hinc ltac:(lia) ltac:(lia)).
      rewrite div_Fin by (qc_to_q; lra). rewrite insert_Fin. by eexists.
    + rewrite div_Fin.
      * rewrite insert_Fin. by eexists.
      * intros Hsum. destruct (sum_nonneg_zero _ _ HwP HwM Hsum) as [HP HM].
        rewrite HP, HM in Hflat. done.
  - exists iq. split; [exact Heq|]. by rewrite Hiq, length_replicate.
Qed.

(** The Hermite spline on rationals: the evaluator answers with the Hermite
    cubic of the query's segment. *)
Lemma interpolateHermiteSorted_eval (xs ys fdq : list Qc) :
  2 <= length xs -> length ys = length xs -> length fdq = length xs ->
  strictly_increasing xs -> (Z.of_nat (length xs) <= 2 ^ 31)%Z ->
  exists f,
    interpolateHermiteSorted (Fin <$> xs) (Fin <$> ys) (Fin <$> fdq) = Ok f
    /\ forall q,
         let s := segmentOf xs q in
         let w := (qref xs (s + 1) - qref xs s)%Qc in
         f (Fin q)
         = Ok (Fin (cubicValue (qref ys s) (qref fdq s)
                      (hermite2 (qref ys s) (qref ys (s + 1)) (qref fdq s) (qref fdq (s + 1)) w)
                      (hermite3 (qref ys s) (qref ys (s + 1)) (qref fdq s) (qref fdq (s + 1)) w)
                      (q - qref xs s)%Qc)).
Proof.
  intros Hlen Hys Hfd Hinc Hbound. unfold interpolateHermiteSorted. cbv zeta.
  rewrite !length_fmap, Hys, Hfd, Nat.eqb_refl. simpl.
  destruct (Nat.ltb_spec (length xs) 2) as [|_]; [lia|].
  set (n := length xs - 1).
  set (x := Fin <$> xs). set (y := Fin <$> ys). set (fd := Fin <$> fdq).
  destruct (for_each_polynomials (hermiteCoefficients x y fd)
    (fun i => hermiteCoefficients x y fd i (Float64Array 4)) 4 (seq 0 n) ltac:(lia))
    with (c := Float64Array (T:=xnum) 4) (ps := @nil (xnum -> xnum))
    as (c' & Hrun & _).
  { intros i k _ Hk. destruct k as [|k0 [|k1 [|k2 [|k3 [|]]]]]; simpl in Hk; try lia. done. }
  { done. }
  { done. }
  cbv zeta in Hrun. rewrite Hrun. cbn [mbind result_bind]. rewrite app_nil_l.
  destruct (createPolynomialSplineFunction_eval xs
              ((fun i => polynomialOf (hermiteCoefficients x y fd i (Float64Array 4)))
                 <$> seq 0 n))
    as (f & Hspline & Heval); [lia| |done|done|].
  { by rewrite length_fmap, length_seq. }
  fold x in Hspline. rewrite Hspline.
  exists f. split; [done|]. intros q. cbv zeta. set (s := segmentOf xs q).
  pose proof (segmentOf_lt xs q ltac:(lia)) as Hseg. fold s in Hseg.
  rewrite (Heval q (polynomialOf (hermiteCoefficients x y fd s (Float64Array 4))) (qref xs s)).
  - unfold hermiteCoefficients, x, y, fd. cbv zeta.
    rewrite !aref_Fin by lia. xnum_simpl.
    pose proof (step_nonzero xs s Hinc ltac:(lia)) as Hw.
    repeat (rewrite div_Fin by (try apply Qc_mult_nonzero; assumption); xnum_simpl).
    cbn [Float64Array replicate insert list_insert].
    by rewrite polynomialOf_4.
  - fold s. rewrite list_lookup_fmap, lookup_seq_lt by (unfold n; lia). done.
  - apply qref_lookup. lia.
Qed.

Lemma hermite_right_end (y yP fd fdP w : Qc) :
  w <> 0%Qc ->
  cubicValue y fd (hermite2 y yP fd fdP w) (hermite3 y yP fd fdP w) w = yP.
Proof. intros Hw. unfold cubicValue, hermite2, hermite3. field. done. Qed.

(** The Hermite spline returns the samples at the knots, whatever the
    (rational) derivatives. *)
Lemma interpolateHermiteSorted_knots (xs ys fdq : list Qc) :
  2 <= length xs -> length ys = length xs -> length fdq = length xs ->
  strictly_increasing xs -> (Z.of_nat (length xs) <= 2 ^ 31)%Z ->
  exists f,
    interpolateHermiteSorted (Fin <$> xs) (Fin <$> ys) (Fin <$> fdq) = Ok f
    /\ forall i xi yi, xs !! i = Some xi -> ys !! i = Some yi -> f (Fin xi) = Ok (Fin yi).
Proof.
  intros Hlen Hys Hfd Hinc Hbound.
  destruct (interpolateHermiteSorted_eval xs ys fdq Hlen Hys Hfd Hinc Hbound)
    as (f & Hf & Heval).
  exists f. split; [done|]. intros i xi yi Hxi Hyi.
  rewrite Heval. cbv zeta. rewrite (segmentOf_knot xs i xi Hinc Hbound Hxi).
  pose proof (lookup_lt_Some _ _ _ Hxi) as Hi.
  destruct (decide (i <= length xs - 2)) as [Hin|Hlast].
  - rewrite Nat.min_l by done.
    rewrite (qref_Some _ _ _ Hxi), (qref_Some _ _ _ Hyi), minus_diag.
    by rewrite cubicValue_left_end.
  - rewrite Nat.min_r by lia.
    replace (length xs - 2 + 1) with i by lia.
    rewrite (qref_Some _ _ _ Hxi), (qref_Some _ _ _ Hyi).
    do 2 f_equal. apply hermite_right_end.
    pose proof (step_nonzero xs (length xs - 2) Hinc ltac:(lia)) as Hstep.
    replace (length xs - 2 + 1) with i in Hstep by lia.
    by rewrite (qref_Some _ _ _ Hxi) in Hstep.
Qed.

(** The Akima constructor on rationals hands rational derivatives to the
    Hermite construction. *)
Lemma createAkimaSplineInterpolator_hermite (xs ys : list Qc) :
  5 <= length xs -> length ys = length xs -> strictly_increasing xs ->
  exists fdq,
    length fdq = length xs
    /\ createAkimaSplineInterpolator (Fin <$> xs) (Fin <$> ys)
       = interpolateHermiteSorted (Fin <$> xs) (Fin <$> ys) (Fin <$> fdq).
Proof.
  intros Hlen Hys Hinc. unfold createAkimaSplineInterpolator. cbv zeta.
  rewrite !length_fmap, Hys, Nat.eqb_refl. simpl negb. cbv iota.
  destruct (Nat.ltb_spec (length xs) 5) as [|_]; [lia|].
  rewrite (checkOrder_increasing xs Hinc). cbn [mbind result_bind].
  unfold akimaFirstDerivatives. cbv zeta.
  destruct (akimaDifferences_rational xs ys Hinc Hys) as (dq & -> & Hdq).
  destruct (akimaWeights_rational dq ltac:(lia)) as (wq & Hw & Hwq & Hpos).
  rewrite Hdq in Hw. rewrite Hw.
  destruct (akimaInterior_rational xs dq wq Hinc Hlen Hdq ltac:(lia) Hpos) as (iq & -> & Hiq).
  destruct (differentiateThreePoint_rational xs ys 0 0 1 2 Hinc Hys) as [v0 ->]; try lia.
  destruct (differentiateThreePoint_rational xs ys 1 0 1 2 Hinc Hys) as [v1 ->]; try lia.
  destruct (differentiateThreePoint_rational xs ys (length xs - 2) (length xs - 3)
              (length xs - 2) (length xs - 1) Hinc Hys) as [v2 ->]; try lia.
  destruct (differentiateThreePoint_rational xs ys (length xs - 1) (length xs - 3)
              (length xs - 2) (length xs - 1) Hinc Hys) as [v3 ->]; try lia.
  rewrite !insert_Fin. eexists. split; [|reflexivity].
  by rewrite !length_insert.
Qed.

Lemma createAkimaSplineInterpolator_knots (xs ys : list Qc) :
  5 <= length xs -> length ys = length xs ->
  strictly_increasing xs -> (Z.of_nat (length xs) <= 2 ^ 31)%Z ->
  exists f,
    createAkimaSplineInterpolator (Fin <$> xs) (Fin <$> ys) = Ok f
    /\ forall i xi yi, xs !! i = Some xi -> ys !! i = Some yi -> f (Fin xi) = Ok (Fin yi).
Proof.
  intros Hlen Hys Hinc Hbound.
  destruct (createAkimaSplineInterpolator_hermite xs ys Hlen Hys Hinc) as (fdq & Hfd & ->).
  apply interpolateHermiteSorted_knots; try done. lia.
Qed.

(* ------------------------------------------------------------------ *)
(** ** Interpolation at the knots *)

Lemma Arrays_binarySearch_knot xs i xi :
  strictly_increasing xs -> (Z.of_nat (length xs) <= 2 ^ 31)%Z ->
  xs !! i = Some xi ->
  Arrays_binarySearch (Fin <$> xs) (Fin xi) = Ok (Z.of_nat i).
Proof.
  intros Hinc Hbound Hxi.
  destruct (Arrays_binarySearch_cases xs xi Hinc Hbound) as [(j & Hr & Hj & _)|(_ & Hb & Ha)].
  - assert (j = i) as ->; [|done].
    destruct (Nat.lt_trichotomy j i) as [Hlt|[->|Hlt]]; [|done|];
      [pose proof (strictly_increasing_lookup xs j i xi xi Hinc Hlt Hj Hxi) as Hqq
      |pose proof (strictly_increasing_lookup xs i j xi xi Hinc Hlt Hxi Hj) as Hqq];
      by apply Qclt_not_eq in Hqq.
  - exfalso. destruct (Nat.lt_ge_cases i (insertionPoint xs xi)) as [Hlt|Hge].
    + by apply (Qclt_not_eq _ _ (Hb i xi Hlt Hxi)).
    + by apply (Qclt_not_eq _ _ (Ha i xi Hge Hxi)).
Qed.

Lemma createNearestNeighborInterpolator_knots (xs ys : list Qc) :
  length ys = length xs ->
  strictly_increasing xs -> (Z.of_nat (length xs) <= 2 ^ 31)%Z ->
  exists f,
    createNearestNeighborInterpolator (Fin <$> xs) (Fin <$> ys) = Ok f
    /\ forall i xi yi, xs !! i = Some xi -> ys !! i = Some yi -> f (Fin xi) = Ok (Fin yi).
Proof.
  intros Hys Hinc Hbound. unfold createNearestNeighborInterpolator. cbv zeta.
  rewrite !length_fmap, Hys, Nat.eqb_refl. simpl negb. cbv iota.
  destruct (Nat.eqb_spec (length xs) 0) as [H0|_].
  { eexists. split; [reflexivity|]. intros i xi yi Hxi.
    apply lookup_lt_Some in Hxi. lia. }
  destruct (Nat.eqb_spec (length xs) 1) as [H1|_].
  { eexists. split; [reflexivity|]. intros i xi yi Hxi Hyi.
    pose proof (lookup_lt_Some _ _ _ Hxi). assert (i = 0) as -> by lia.
    by rewrite (aref_Fin_lookup ys 0 yi). }
  rewrite (checkOrder_increasing xs Hinc). cbn [mbind result_bind].
  eexists. split; [reflexivity|]. intros i xi yi Hxi Hyi. cbv beta.
  rewrite (Arrays_binarySearch_knot xs i xi) by done. cbn [mbind result_bind].
  destruct (Z.leb_spec 0 (Z.of_nat i)) as [_|]; [|lia].
  rewrite (arefZ_Fin_lookup ys (Z.of_nat i) yi); [done|lia|by rewrite Nat2Z.id].
Qed.

Lemma createLinearInterpolator_knots (xs ys : list Qc) :
  2 <= length xs -> length ys = length xs ->
  strictly_increasing xs -> (Z.of_nat (length xs) <= 2 ^ 31)%Z ->
  exists f,
    createLinearInterpolator (Fin <$> xs) (Fin <$> ys) = Ok f
    /\ forall i xi yi, xs !! i = Some xi -> ys !! i = Some yi -> f (Fin xi) = Ok (Fin yi).
Proof.
  intros Hlen Hys Hinc Hbound.
  destruct (createLinearInterpolator_eval xs ys Hlen Hys Hinc Hbound) as (f & Hf & Heval).
  exists f. split; [done|]. intros i xi yi Hxi Hyi.
  rewrite Heval. rewrite (segmentOf_knot xs i xi Hinc Hbound Hxi).
  pose proof (lookup_lt_Some _ _ _ Hxi) as Hi.
  destruct (decide (i <= length xs - 2)) as [Hin|Hlast].
  - rewrite Nat.min_l by done.
    rewrite (qref_Some _ _ _ Hxi), (qref_Some _ _ _ Hyi). do 2 f_equal. ring.
  - rewrite Nat.min_r by lia. unfold slope.
    pose proof (step_nonzero xs (length xs - 2) Hinc ltac:(lia)) as Hstep.
    replace (length xs - 2 + 1) with i in * by lia.
    rewrite (qref_Some _ _ _ Hxi), (qref_Some _ _ _ Hyi) in *.
    do 2 f_equal. field. done.
Qed.

(** C4.  For rational samples of equal length with strictly increasing
    [x] (at most 2^31 of them), each constructor given at least its minimum
    of points (none for nearest neighbour, 2 for linear, 3 for cubic, 5 for
    Akima) returns an evaluator, and the evaluator applied to the knot
    [x[i]] returns [y[i]]. *)
Theorem interpolators_pass_through_samples (xs ys : list Qc) (i : nat) (xi yi : Qc) :
  length ys = length xs ->
  strictly_increasing xs -> (Z.of_nat (length xs) <= 2 ^ 31)%Z ->
  xs !! i = Some xi -> ys !! i = Some yi ->
  (exists f, createNearestNeighborInterpolator (Fin <$> xs) (Fin <$> ys) = Ok f
             /\ f (Fin xi) = Ok (Fin yi))
  /\ (2 <= length xs ->
      exists f, createLinearInterpolator (Fin <$> xs) (Fin <$> ys) = Ok f
                /\ f (Fin xi) = Ok (Fin yi))
  /\ (3 <= length xs ->
      exists f, createCubicSplineInterpolator (Fin <$> xs) (Fin <$> ys) = Ok f
                /\ f (Fin xi) = Ok (Fin yi))
  /\ (5 <= length xs ->
      exists f, createAkimaSplineInterpolator (Fin <$> xs) (Fin <$> ys) = Ok f
                /\ f (Fin xi) = Ok (Fin yi)).
Proof.
  intros Hys Hinc Hbound Hxi Hyi. split; [|split; [|split]].
  - destruct (createNearestNeighborInterpolator_knots xs ys Hys Hinc Hbound) as (f & Hf & Hk).
    exists f. split; [done|]. by apply (Hk i).
  - intros Hlen.
    destruct (createLinearInterpolator_knots xs ys Hlen Hys Hinc Hbound) as (f & Hf & Hk).
    exists f. split; [done|]. by apply (Hk i).
  - intros Hlen.
    destruct (createCubicSplineInterpolator_knots xs ys Hlen Hys Hinc Hbound) as (f & Hf & Hk).
    exists f. split; [done|]. by apply (Hk i).
  - intros Hlen.
    destruct (createAkimaSplineInterpolator_knots xs ys Hlen Hys Hinc Hbound) as (f & Hf & Hk).
    exists f. split; [done|]. by apply (Hk i).
Qed.

(** The example of the specification: x = [0..6], y = [0,1,0,1,0,1,0];
    the Akima evaluator returns 0 at 0 and at 6. *)
Lemma interpolators_pass_through_samples_witness :
  exists f,
    createAkimaSplineInterpolator
      (Fin <$> [0; 1; Q2Qc 2; Q2Qc 3; Q2Qc 4; Q2Qc 5; Q2Qc 6]%Qc)
      (Fin <$> [0; 1; 0; 1; 0; 1; 0]%Qc) = Ok f
    /\ f (Fin 0%Qc) = Ok (Fin 0%Qc)
    /\ f (Fin (Q2Qc 6)) = Ok (Fin 0%Qc).
Proof.
  destruct (interpolators_pass_through_samples
              [0; 1; Q2Qc 2; Q2Qc 3; Q2Qc 4; Q2Qc 5; Q2Qc 6]%Qc [0; 1; 0; 1; 0; 1; 0]%Qc
              0 0%Qc 0%Qc) as (_ & _ & _ & Hfirst);
    [reflexivity|repeat split|simpl; lia|reflexivity|reflexivity|].
  destruct (interpolators_pass_through_samples
              [0; 1; Q2Qc 2; Q2Qc 3; Q2Qc 4; Q2Qc 5; Q2Qc 6]%Qc [0; 1; 0; 1; 0; 1; 0]%Qc
              6 (Q2Qc 6) 0%Qc) as (_ & _ & _ & Hlast);
    [reflexivity|repeat split|simpl; lia|reflexivity|reflexivity|].
  destruct Hfirst as (f & Hf & H0); [simpl; lia|].
  destruct Hlast as (f' & Hf' & H6); [simpl; lia|].
  exists f. split; [exact Hf|]. split; [exact H0|].
  rewrite Hf in Hf'. injection Hf' as <-. exact H6.
Defined.

(* ------------------------------------------------------------------ *)
(** ** The constructors on the store *)

Section StoreFacts.
Context {T : Type} `{Number T}.

Lemma bindM_Ok {A B : Type} (m : M T A) (k : A -> M T B) (h h' : store T) (a : A) :
  m h = Ok (a, h') -> bindM m k h = k a h'.
Proof. intros Hm. unfold bindM. by rewrite Hm. Qed.

Lemma bindM_Throw {A B : Type} (m : M T A) (k : A -> M T B) (h : store T) (e : error) :
  m h = Throw e -> bindM m k h = Throw e.
Proof. intros Hm. unfold bindM. by rewrite Hm. Qed.

Lemma bindM_OutOfFuel {A B : Type} (m : M T A) (k : A -> M T B) (h : store T) :
  m h = OutOfFuel -> bindM m k h = OutOfFuel.
Proof. intros Hm. unfold bindM. by rewrite Hm. Qed.

Lemma contents_app_new (h : store T) (a : list T) :
  contents (h ++ [a]) (length h) = a.
Proof. unfold contents. by rewrite lookup_app_r, Nat.sub_diag by lia. Qed.

Lemma contents_lookup (h : store T) (l : loc) (a : list T) :
  h !! l = Some a -> contents h l = a.
Proof. intros Hl. unfold contents. by rewrite Hl. Qed.

Lemma contents_insert_eq (h : store T) (l : loc) (a : list T) :
  l < length h -> contents (<[l := a]> h) l = a.
Proof. intros Hl. unfold contents. by rewrite list_lookup_insert_eq. Qed.

Lemma polynomialStands_later (h h' : store T) (above : loc) p g :
  (forall l, above < l -> l < length h -> h' !! l = h !! l) ->
  polynomialStands h above p g -> polynomialStands h' above p g.
Proof.
  intros Hsame (Habove & c2 & Hc2 & Hcall). split; [done|].
  exists c2. split; [|done]. rewrite Hsame; [done|done|]. by apply lookup_lt_Some in Hc2.
Qed.

Lemma createPolynomialFunction_h_sim (c : loc) (h : store T) :
  match createPolynomialFunction (contents h c) with
  | Ok g =>
      exists p,
        createPolynomialFunction_h c h = Ok (p, h ++ [contents h c])
        /\ poly_c2 p = length h
        /\ forall h1, h1 !! length h = Some (contents h c) ->
             forall x, callPolynomial h1 p x = g x
  | Throw e => createPolynomialFunction_h c h = Throw e
  | OutOfFuel => createPolynomialFunction_h c h = OutOfFuel
  end.
Proof.
  unfold createPolynomialFunction, createPolynomialFunction_h, bindM, sliceArray,
    newArray, readArray. cbv zeta. rewrite contents_app_new.
  destruct (length (contents h c) =? 0)%nat; [done|].
  eexists. split; [reflexivity|]. split; [done|].
  intros h1 Hh1 x. unfold callPolynomial. cbn [poly_c2 poly_n].
  by rewrite (contents_lookup _ _ _ Hh1).
Qed.

(** The loop of a constructor on the store against the loop on values. *)
Lemma forM_polynomials_sim (fill : nat -> list T -> list T) (cl : loc) (idxs : list nat) :
  forall (h : store T) (ps : list polynomialClosure) (gs : list (T -> T)),
    cl < length h ->
    Forall2 (polynomialStands h cl) ps gs ->
    match for_each (fun i '(coefficients, polynomials) =>
              let coefficients := fill i coefficients in
              p ← createPolynomialFunction coefficients;
              Ok (coefficients, polynomials ++ [p]))
            idxs (contents h cl, gs) with
    | Ok (_, gs') =>
        exists ps' h',
          forM (fun i polynomials =>
              bindM (updateArray cl (fill i)) (fun _ =>
              bindM (createPolynomialFunction_h cl) (fun p =>
              retM (polynomials ++ [p]))))
            idxs ps h = Ok (ps', h')
          /\ length h <= length h'
          /\ (forall l, l < cl -> h' !! l = h !! l)
          /\ Forall2 (polynomialStands h' cl) ps' gs'
    | Throw e =>
        forM (fun i polynomials =>
            bindM (updateArray cl (fill i)) (fun _ =>
            bindM (createPolynomialFunction_h cl) (fun p =>
            retM (polynomials ++ [p]))))
          idxs ps h = Throw e
    | OutOfFuel =>
        forM (fun i polynomials =>
            bindM (updateArray cl (fill i)) (fun _ =>
            bindM (createPolynomialFunction_h cl) (fun p =>
            retM (polynomials ++ [p]))))
          idxs ps h = OutOfFuel
    end.
Proof.
  induction idxs as [|i idxs IH]; intros h ps gs Hcl Hstand.
  - cbn [for_each forM]. exists ps, h. by repeat split.
  - cbn [for_each forM]. cbv zeta.
    set (h1 := <[cl := fill i (contents h cl)]> h).
    cbv [bindM updateArray retM] in IH |- *. fold h1.
    assert (contents h1 cl = fill i (contents h cl)) as Hbuf
      by (by apply contents_insert_eq).
    pose proof (createPolynomialFunction_h_sim cl h1) as Hsim. rewrite Hbuf in Hsim.
    destruct (createPolynomialFunction (fill i (contents h cl))) as [g|e|];
      cbn [mbind result_bind]; [|by rewrite Hsim|by rewrite Hsim].
    destruct Hsim as (p & -> & Hp & Hcall).
    set (h2 := h1 ++ [fill i (contents h cl)]).
    assert (length h1 = length h) as Hlen1 by (unfold h1; by rewrite length_insert).
    assert (contents h2 cl = fill i (contents h cl)) as Hbuf2.
    { unfold h2, contents. rewrite lookup_app_l by lia. exact Hbuf. }
    specialize (IH h2 (ps ++ [p]) (gs ++ [g])). rewrite Hbuf2 in IH.
    assert (cl < length h2) as Hcl2 by (unfold h2; rewrite length_app; lia).
    assert (Forall2 (polynomialStands h2 cl) (ps ++ [p]) (gs ++ [g])) as Hstand2.
    { apply Forall2_app.
      - eapply Forall2_impl; [exact Hstand|]. intros p' g'.
        apply polynomialStands_later. intros l Hl Hlh. unfold h2, h1.
        rewrite lookup_app_l by (rewrite length_insert; lia).
        rewrite list_lookup_insert_ne by lia. done.
      - constructor; [|constructor]. split; [lia|].
        exists (fill i (contents h cl)). split.
        + rewrite Hp. unfold h2. by rewrite lookup_app_r, Nat.sub_diag by lia.
        + rewrite Hp. exact Hcall. }
    specialize (IH Hcl2 Hstand2).
    destruct (for_each _ idxs _) as [[c' gs']|e|]; [|done|done].
    destruct IH as (ps' & h' & Hrun & Hlen & Hsame & Hstand').
    exists ps', h'. split; [exact Hrun|]. split.
    { unfold h2 in Hlen. rewrite length_app in Hlen. lia. }
    split; [|done]. intros l Hl. rewrite Hsame by done. unfold h2, h1.
    rewrite lookup_app_l by (rewrite length_insert; lia).
    by rewrite list_lookup_insert_ne by lia.
Qed.

Lemma buildPolynomials_h_sim (fill : nat -> list T -> list T) (width count : nat)
    (h : store T) :
  match for_each (fun i '(coefficients, polynomials) =>
            let coefficients := fill i coefficients in
            p ← createPolynomialFunction coefficients;
            Ok (coefficients, polynomials ++ [p]))
          (seq 0 count) (Float64Array width, []) with
  | Ok (_, gs) =>
      exists ps h',
        buildPolynomials_h fill width count h = Ok (ps, h')
        /\ length h < length h'
        /\ (forall l, l < length h -> h' !! l = h !! l)
        /\ Forall2 (polynomialStands h' (length h)) ps gs
  | Throw e => buildPolynomials_h fill width count h = Throw e
  | OutOfFuel => buildPolynomials_h fill width count h = OutOfFuel
  end.
Proof.
  unfold buildPolynomials_h.
  rewrite (bindM_Ok _ _ h (h ++ [Float64Array width]) (length h)) by done.
  pose proof (forM_polynomials_sim fill (length h) (seq 0 count)
                (h ++ [Float64Array width]) [] []) as Hsim.
  rewrite contents_app_new in Hsim.
  specialize (Hsim ltac:(rewrite length_app; simpl; lia) ltac:(constructor)).
  destruct (for_each _ _ _) as [[c' gs]|e|]; [|done|done].
  destruct Hsim as (ps & h' & Hrun & Hlen & Hsame & Hstand).
  exists ps, h'. split; [exact Hrun|]. rewrite length_app in Hlen. simpl in Hlen.
  split; [lia|]. split; [|done].
  intros l Hl. rewrite Hsame by done. by rewrite lookup_app_l.
Qed.

Lemma polynomialStands_lookup (h : store T) (above : loc) ps gs (i : nat) :
  Forall2 (polynomialStands h above) ps gs ->
  forall h1, (forall l, above < l -> l < length h -> h1 !! l = h !! l) ->
  forall x,
    match ps !! i with
    | Some p => callPolynomial h1 p x
    | None => nan
    end = nth i gs (fun _ => nan) x.
Proof.
  intros Hstand h1 Hsame x.
  destruct (ps !! i) as [p|] eqn:Hp.
  - destruct (Forall2_lookup_l _ _ _ _ _ Hstand Hp) as (g & Hg & Habove & c2 & Hc2 & Hcall).
    rewrite (nth_lookup_Some _ _ _ _ Hg). apply Hcall.
    rewrite Hsame; [done|done|]. by apply lookup_lt_Some in Hc2.
  - rewrite nth_overflow; [done|].
    rewrite <- (Forall2_length _ _ _ Hstand). by apply lookup_ge_None.
Qed.

Lemma createPolynomialSplineFunction_h_sim (knots above : loc) ps gs (h : store T) :
  above < length h ->
  Forall2 (polynomialStands h above) ps gs ->
  match createPolynomialSplineFunction (contents h knots) gs with
  | Ok g =>
      exists f,
        createPolynomialSplineFunction_h knots ps h = Ok (f, h ++ [contents h knots])
        /\ forall h1,
             (forall l, above < l -> l < S (length h) ->
                h1 !! l = (h ++ [contents h knots]) !! l) ->
             forall q, call h1 f q = g q
  | Throw e => createPolynomialSplineFunction_h knots ps h = Throw e
  | OutOfFuel => createPolynomialSplineFunction_h knots ps h = OutOfFuel
  end.
Proof.
  intros Habove Hstand.
  unfold createPolynomialSplineFunction, createPolynomialSplineFunction_h.
  cbv [bindM sliceArray newArray readArray throwM liftM retM]. cbv zeta.
  rewrite contents_app_new. rewrite (Forall2_length _ _ _ Hstand).
  destruct (length (contents h knots) <? 2)%nat; [done|].
  destruct (negb _); [done|].
  destruct (MathArrays_checkOrder (contents h knots)) as [[]|e|]; cbn [mbind result_bind];
    [|done|done].
  eexists. split; [reflexivity|]. intros h1 Hsame q. cbn [call].
  assert (contents h1 (length h) = contents h knots) as ->.
  { unfold contents at 1. rewrite Hsame by lia.
    by rewrite lookup_app_r, Nat.sub_diag by lia. }
  destruct (Arrays_binarySearch (contents h knots) q) as [i|e|]; cbn [mbind result_bind];
    [|done|done].
  f_equal. rewrite (Forall2_length _ _ _ Hstand).
  apply (polynomialStands_lookup h above); [done|].
  intros l Hl Hlh. rewrite Hsame by lia. by rewrite lookup_app_l.
Qed.

(** The tail of the three spline constructors. *)
Lemma spline_tail_simulates (fill : nat -> list T -> list T) (width count : nat)
    (knots : loc) (h : store T) :
  knots < length h ->
  simulates
    ('(_, polynomials) ←
       for_each (fun i '(coefficients, polynomials) =>
           let coefficients := fill i coefficients in
           p ← createPolynomialFunction coefficients;
           Ok (coefficients, polynomials ++ [p]))
         (seq 0 count) (Float64Array width, []);
     createPolynomialSplineFunction (contents h knots) polynomials)
    (bindM (buildPolynomials_h fill width count) (fun polynomials =>
     createPolynomialSplineFunction_h knots polynomials))
    h.
Proof.
  intros Hknots. pose proof (buildPolynomials_h_sim fill width count h) as Hbuild.
  destruct (for_each _ _ _) as [[c' gs]|e|]; cbn [mbind result_bind];
    [|by apply bindM_Throw|by apply bindM_OutOfFuel].
  destruct Hbuild as (ps & h' & Hrun & Hlen & Hsame & Hstand).
  pose proof (createPolynomialSplineFunction_h_sim knots (length h) ps gs h' Hlen Hstand)
    as Hspline.
  assert (contents h' knots = contents h knots) as Hk.
  { unfold contents. by rewrite Hsame. }
  rewrite Hk in Hspline. unfold simulates.
  destruct (createPolynomialSplineFunction (contents h knots) gs) as [g|e|].
  - destruct Hspline as (f & Hf & Hcall). exists f, (h' ++ [contents h knots]).
    split; [by rewrite (bindM_Ok _ _ _ _ _ Hrun)|].
    rewrite length_app. simpl. split; [lia|]. split.
    + intros l Hl. rewrite lookup_app_l by lia. by apply Hsame.
    + intros h1 Hh1 q. apply Hcall. intros l Hl Hl'. apply Hh1; lia.
  - by rewrite (bindM_Ok _ _ _ _ _ Hrun).
  - by rewrite (bindM_Ok _ _ _ _ _ Hrun).
Qed.

End StoreFacts.

Section StoreConstructors.
Context {T : Type} `{Number T}.

Lemma interpolateHermiteSorted_h_simulates (xvals yvals : loc) (fd : list T) (h : store T) :
  xvals < length h ->
  simulates (interpolateHermiteSorted (contents h xvals) (contents h yvals) fd)
    (interpolateHermiteSorted_h xvals yvals fd) h.
Proof.
  intros Hx. unfold simulates, interpolateHermiteSorted, interpolateHermiteSorted_h.
  rewrite (bindM_Ok _ _ h h (contents h xvals)) by done.
  rewrite (bindM_Ok _ _ h h (contents h yvals)) by done. cbv zeta.
  destruct (_ || _); [done|]. destruct (_ <? _)%nat; [done|].
  by apply spline_tail_simulates.
Qed.

Lemma createAkimaSplineInterpolator_h_simulates (xvals yvals : loc) (h : store T) :
  xvals < length h ->
  simulates (createAkimaSplineInterpolator (contents h xvals) (contents h yvals))
    (createAkimaSplineInterpolator_h xvals yvals) h.
Proof.
  intros Hx. unfold simulates, createAkimaSplineInterpolator, createAkimaSplineInterpolator_h.
  rewrite (bindM_Ok _ _ h h (contents h xvals)) by done.
  rewrite (bindM_Ok _ _ h h (contents h yvals)) by done. cbv zeta.
  destruct (negb _); [done|]. destruct (_ <? _)%nat; [done|].
  destruct (MathArrays_checkOrder (contents h xvals)) as [[]|e|] eqn:Hord;
    cbn [mbind result_bind].
  - rewrite (bindM_Ok _ _ h h tt) by done.
    by apply interpolateHermiteSorted_h_simulates.
  - by apply bindM_Throw.
  - by apply bindM_OutOfFuel.
Qed.

Lemma createCubicSplineInterpolator_h_simulates (xl yl : loc) (h : store T) :
  xl < length h ->
  simulates (createCubicSplineInterpolator (contents h xl) (contents h yl))
    (createCubicSplineInterpolator_h xl yl) h.
Proof.
  intros Hx. unfold simulates, createCubicSplineInterpolator, createCubicSplineInterpolator_h.
  rewrite (bindM_Ok _ _ h h (contents h xl)) by done.
  rewrite (bindM_Ok _ _ h h (contents h yl)) by done.
  destruct (computeCubicPolyCoefficients (contents h xl) (contents h yl))
    as [[[b c] d]|e|] eqn:Hc; cbn [mbind result_bind].
  - rewrite (bindM_Ok _ _ h h (b, c, d)) by done.
    cbv zeta. by apply spline_tail_simulates.
  - by apply bindM_Throw.
  - by apply bindM_OutOfFuel.
Qed.

Lemma createLinearInterpolator_h_simulates (xl yl : loc) (h : store T) :
  xl < length h ->
  simulates (createLinearInterpolator (contents h xl) (contents h yl))
    (createLinearInterpolator_h xl yl) h.
Proof.
  intros Hx. unfold simulates, createLinearInterpolator, createLinearInterpolator_h.
  rewrite (bindM_Ok _ _ h h (contents h xl)) by done.
  rewrite (bindM_Ok _ _ h h (contents h yl)) by done. cbv zeta.
  destruct (negb _); [done|]. destruct (_ <? _)%nat; [done|].
  destruct (MathArrays_checkOrder (contents h xl)) as [[]|e|] eqn:Hord;
    cbn [mbind result_bind].
  - rewrite (bindM_Ok _ _ h h tt) by done.
    by apply (spline_tail_simulates
                (fun i coefficients =>
                   <[1 := aref (linearSlopes (contents h xl) (contents h yl)
                                  (length (contents h xl) - 1)) i]>
                     (<[0 := aref (contents h yl) i]> coefficients))).
  - by apply bindM_Throw.
  - by apply bindM_OutOfFuel.
Qed.

Lemma createNearestNeighborInterpolator_h_simulates (xvals yvals : loc) (h : store T) :
  yvals < length h ->
  simulates (createNearestNeighborInterpolator (contents h xvals) (contents h yvals))
    (createNearestNeighborInterpolator_h xvals yvals) h.
Proof.
  intros Hyvals.
  unfold simulates, createNearestNeighborInterpolator, createNearestNeighborInterpolator_h.
  set (x := contents h xvals). set (y := contents h yvals).
  set (h1 := h ++ [x]). set (h2 := h1 ++ [y]).
  assert (contents h1 yvals = y) as Hy1.
  { unfold h1, y, contents. by rewrite lookup_app_l. }
  rewrite (bindM_Ok _ _ h h1 (length h)) by done.
  rewrite (bindM_Ok _ _ h1 h2 (length h1)).
  2:{ unfold sliceArray, newArray. by rewrite Hy1. }
  assert (contents h2 (length h) = x) as Hx2.
  { unfold h2, h1, contents. rewrite lookup_app_l by (rewrite length_app; simpl; lia).
    by rewrite lookup_app_r, Nat.sub_diag by lia. }
  assert (contents h2 (length h1) = y) as Hy2 by apply contents_app_new.
  rewrite (bindM_Ok _ _ h2 h2 x) by (unfold readArray; by rewrite Hx2).
  rewrite (bindM_Ok _ _ h2 h2 y) by (unfold readArray; by rewrite Hy2).
  cbv zeta.
  assert (length h2 = S (S (length h))) as Hlen2.
  { unfold h2, h1. rewrite !length_app. simpl. lia. }
  assert (forall l, l < length h -> h2 !! l = h !! l) as Hsame.
  { intros l Hl. unfold h2, h1. rewrite !lookup_app_l; rewrite ?length_app; simpl; (done || lia). }
  assert (forall h', (forall l, length h <= l -> l < length h2 -> h' !! l = h2 !! l) ->
            contents h' (length h) = x /\ contents h' (length h1) = y) as Hlater.
  { intros h' Hh'. unfold contents. rewrite !Hh'.
    - split; [exact Hx2|exact Hy2].
    - unfold h1. rewrite length_app. simpl. lia.
    - unfold h1. rewrite Hlen2, length_app. simpl. lia.
    - lia.
    - lia. }
  destruct (negb _); [done|].
  destruct (_ =? 0)%nat.
  { exists AlwaysNaN, h2. split; [done|]. split; [lia|]. split; [done|]. done. }
  destruct (_ =? 1)%nat.
  { exists (FirstValue (length h1)), h2. split; [done|]. split; [lia|]. split; [done|].
    intros h' Hh' q. cbn [call]. by destruct (Hlater h' Hh') as [_ ->]. }
  destruct (MathArrays_checkOrder x) as [[]|e|] eqn:Hord; cbn [mbind result_bind].
  - rewrite (bindM_Ok _ _ h2 h2 tt) by done.
    exists (Nearest (length h) (length h1) (length x)), h2.
    split; [done|]. split; [lia|]. split; [done|].
    intros h' Hh' q. cbn [call]. by destruct (Hlater h' Hh') as [-> ->].
  - by apply bindM_Throw.
  - by apply bindM_OutOfFuel.
Qed.

Lemma construct_h_simulates (k : constructor) (xl yl : loc) (h : store T) :
  xl < length h -> yl < length h ->
  simulates (construct k (contents h xl) (contents h yl)) (construct_h k xl yl) h.
Proof.
  intros Hx Hy. destruct k; cbn [construct construct_h].
  - by apply createNearestNeighborInterpolator_h_simulates.
  - by apply createLinearInterpolator_h_simulates.
  - by apply createCubicSplineInterpolator_h_simulates.
  - by apply createAkimaSplineInterpolator_h_simulates.
Qed.

End StoreConstructors.



(* ------------------------------------------------------------------ *)
(** ** The batch of queries, in general *)

Section Sparse.
Context {A : Type}.

Lemma js_get_set_eq (arr : list (option A)) (i : nat) (v : A) :
  js_get (js_set arr i v) i = Some v.
Proof.
  unfold js_get, js_set. destruct (Nat.ltb_spec i (length arr)).
  - by rewrite list_lookup_insert_eq.
  - rewrite lookup_app_r by lia. rewrite lookup_app_r; rewrite length_replicate; [|lia].
    by replace (i - length arr - (i - length arr)) with 0 by lia.
Qed.

Lemma js_get_set_ne (arr : list (option A)) (i j : nat) (v : A) :
  i <> j -> js_get (js_set arr i v) j = js_get arr j.
Proof.
  intros Hne. unfold js_get, js_set. destruct (Nat.ltb_spec i (length arr)).
  - by rewrite list_lookup_insert_ne.
  - destruct (decide (j < length arr)) as [Hj|Hj].
    + by rewrite lookup_app_l.
    + rewrite (lookup_ge_None_2 arr j) by lia. rewrite lookup_app_r by lia.
      destruct (decide (j - length arr < i - length arr)) as [Hlt|Hge].
      * rewrite lookup_app_l by (rewrite length_replicate; lia).
        by rewrite lookup_replicate_2.
      * rewrite lookup_app_r by (rewrite length_replicate; lia).
        rewrite length_replicate.
        destruct (j - length arr - (i - length arr)) as [|k] eqn:Hk; [lia|done].
Qed.

Lemma length_js_set (arr : list (option A)) (i : nat) (v : A) :
  length (js_set arr i v) = length arr `max` S i.
Proof.
  unfold js_set. destruct (Nat.ltb_spec i (length arr)).
  - rewrite length_insert. lia.
  - rewrite !length_app, length_replicate. simpl. lia.
Qed.

Lemma js_get_lt (arr : list (option A)) (i : nat) (v : A) :
  js_get arr i = Some v -> i < length arr.
Proof.
  unfold js_get. intros Hv. destruct (arr !! i) eqn:Hi; [|done].
  by apply lookup_lt_Some in Hi.
Qed.

Lemma js_get_lookup (arr : list (option A)) (i : nat) (v : A) :
  js_get arr i = Some v <-> arr !! i = Some (Some v).
Proof.
  unfold js_get. destruct (arr !! i) as [[w|]|]; simpl; split; congruence.
Qed.

End Sparse.

(** Invariants of the loops that may throw. *)
Lemma for_each_ind {S : Type} (P : nat -> S -> Prop) (body : nat -> S -> result S)
    (n : nat) : forall (lo : nat) (s : S),
  P lo s ->
  (forall i s, lo <= i < lo + n -> P i s -> exists s', body i s = Ok s' /\ P (Datatypes.S i) s') ->
  exists s', for_each body (seq lo n) s = Ok s' /\ P (lo + n) s'.
Proof.
  induction n as [|n IH]; intros lo s H0 Hstep.
  - exists s. split; [done|]. by rewrite Nat.add_0_r.
  - cbn [seq for_each]. destruct (Hstep lo s ltac:(lia) H0) as (s1 & -> & H1).
    cbn [mbind result_bind].
    destruct (IH (Datatypes.S lo) s1 H1) as (s' & Hrun & Hs').
    + intros i s2 Hi. apply Hstep. lia.
    + exists s'. split; [done|]. by replace (lo + Datatypes.S n) with (Datatypes.S lo + n) by lia.
Qed.

Lemma forEach_ind {A S : Type} (P : nat -> S -> Prop) (arr : list (option A))
    (callback : A -> nat -> S -> result S) (s : S) :
  P 0 s ->
  (forall i s v, js_get arr i = Some v -> P i s ->
     exists s', callback v i s = Ok s' /\ P (Datatypes.S i) s') ->
  (forall i s, i < length arr -> js_get arr i = None -> P i s -> P (Datatypes.S i) s) ->
  exists s', forEach arr callback s = Ok s' /\ P (length arr) s'.
Proof.
  intros H0 Hsome Hnone. unfold forEach.
  apply (for_each_ind P _ (length arr) 0 s H0).
  intros i s1 Hi HP. destruct (js_get arr i) as [v|] eqn:Hv.
  - apply js_get_lookup in Hv as Hl. rewrite Hl. by apply (Hsome i s1 v).
  - exists s1. split; [|apply Hnone; [lia|done|done]].
    unfold js_get in Hv. by destruct (arr !! i) as [[w|]|].
Qed.

Lemma bucket_step {A : Type} (sampleArr : list (option (list (option A))))
    (idx i : nat) (v : A) (s j : nat) :
  let sampleArr1 :=
    match sampleArr !! idx with
    | Some (Some _) => sampleArr
    | _ => js_set sampleArr idx []
    end in
  let bucket := default [] (mjoin (sampleArr1 !! idx)) in
  js_get2 (js_set sampleArr1 idx (js_set bucket i v)) s j
  = if decide (s = idx /\ j = i) then Some v else js_get2 sampleArr s j.
Proof.
  cbv zeta. unfold js_get2.
  destruct (decide (s = idx)) as [->|Hs].
  - rewrite js_get_set_eq. cbn [mbind option_bind].
    destruct (decide (j = i)) as [->|Hj].
    + rewrite js_get_set_eq. by rewrite decide_True.
    + rewrite js_get_set_ne by done. rewrite decide_False by tauto.
      change (js_get sampleArr idx) with (mjoin (sampleArr !! idx)).
      pose proof (js_get_set_eq sampleArr idx []) as Hnew. unfold js_get in Hnew.
      destruct (sampleArr !! idx) as [[b|]|] eqn:Hidx; by rewrite ?Hidx, ?Hnew.
  - rewrite js_get_set_ne by done. rewrite decide_False by tauto.
    destruct (sampleArr !! idx) as [[b|]|]; [done| |]; by rewrite js_get_set_ne.
Qed.

(** The first loop of the batch on rationals: the bucket of segment [s]
    holds, at index [j], the query [j] when [s] is its segment, and a hole
    otherwise. *)
Lemma bucketQueries_rational (xs qs : list Qc) :
  strictly_increasing xs -> (Z.of_nat (length xs) <= 2 ^ 31)%Z ->
  exists sampleArr,
    bucketQueries (Fin <$> xs) (Fin <$> qs) (length xs - 1) = Ok sampleArr
    /\ forall s j,
         js_get2 sampleArr s j
         = if decide (j < length qs /\ segmentOf xs (qref qs j) = s)
           then Some (Fin (qref qs j)) else None.
Proof.
  intros Hinc Hbound. unfold bucketQueries. rewrite length_fmap.
  destruct (for_each_ind
    (fun i sampleArr => forall s j,
       js_get2 sampleArr s j
       = if decide (j < i /\ segmentOf xs (qref qs j) = s)
         then Some (Fin (qref qs j)) else None)
    (fun i sampleArr =>
      idx ← Arrays_binarySearch (Fin <$> xs) (aref (Fin <$> qs) i);
      let idx := Z.to_nat (segmentIndex idx (length xs - 1)) in
      let sampleArr :=
        match sampleArr !! idx with
        | Some (Some _) => sampleArr
        | _ => js_set sampleArr idx []
        end in
      let bucket := default [] (mjoin (sampleArr !! idx)) in
      Ok (js_set sampleArr idx (js_set bucket i (aref (Fin <$> qs) i))))
    (length qs) 0 []) as (sampleArr & Hrun & Hpost).
  - intros s j. rewrite decide_False by lia. unfold js_get2, js_get.
    by rewrite lookup_nil.
  - intros i sampleArr Hi Hinv. rewrite aref_Fin by lia.
    destruct (Arrays_binarySearch_segment xs (qref qs i) (length xs - 1) Hinc Hbound)
      as (r & -> & Hr).
    cbn [mbind result_bind]. cbv zeta. eexists. split; [reflexivity|].
    intros s j. rewrite bucket_step. rewrite Hr.
    replace (Z.to_nat (Z.max 0 (Z.min (Z.of_nat (insertionPoint xs (qref qs i)) - 1)
                                  (Z.of_nat (length xs - 1) - 1))))
      with (segmentOf xs (qref qs i)) by (unfold segmentOf; lia).
    rewrite Hinv.
    destruct (decide (s = segmentOf xs (qref qs i) /\ j = i)) as [[-> ->]|Hne].
    + by rewrite decide_True by (split; [lia|done]).
    + destruct (decide (j < i /\ segmentOf xs (qref qs j) = s)) as [[Hj Hs]|Hno].
      * by rewrite decide_True by (split; [lia|done]).
      * rewrite decide_False; [done|]. intros [Hj Hs].
        destruct (decide (j = i)) as [->|Hji]; [by apply Hne|]. apply Hno. split; [lia|done].
  - exists sampleArr. split; [exact Hrun|]. exact Hpost.
Qed.

Section SecondLoop.
Context {T : Type} `{Number T}.

Lemma cubicCoefficients_buffer (y b c d : list T) (i : nat) (coefficients : list T) :
  length coefficients = 4 ->
  cubicCoefficients y b c d i coefficients = [aref y i; aref b i; aref c i; aref d i].
Proof.
  intros Hlen. destruct coefficients as [|k0 [|k1 [|k2 [|k3 [|]]]]]; simpl in Hlen; try lia.
  done.
Qed.

(** The second loop of the batch, for buckets filled as the first loop
    fills them: query [j], of segment [seg j], gets the polynomial of its
    segment at [qv j - x[j]]. *)
Lemma batch_second_loop (x y b c d : list T)
    (sampleArr : list (option (list (option T)))) (len : nat)
    (seg : nat -> nat) (qv : nat -> T) :
  (forall s j, js_get2 sampleArr s j
               = if decide (j < len /\ seg j = s) then Some (qv j) else None) ->
  exists coefficients results,
    forEach sampleArr (fun xqSubArr i '(coefficients, results) =>
        let coefficients := cubicCoefficients y b c d i coefficients in
        poly ← createPolynomialFunction coefficients;
        results ←
          forEach xqSubArr (fun xq i results =>
              Ok (js_set results i (poly (xq - aref x i)%num)))
            results;
        Ok (coefficients, results))
      (Float64Array 4, [])
    = Ok (coefficients, results)
    /\ length results = len
    /\ forall j, j < len ->
         js_get results j
         = Some (polynomialOf [aref y (seg j); aref b (seg j); aref c (seg j); aref d (seg j)]
                   (qv j - aref x j)%num).
Proof.
  intros Hbuckets.
  set (val := fun j =>
    polynomialOf [aref y (seg j); aref b (seg j); aref c (seg j); aref d (seg j)]
      (qv j - aref x j)%num).
  destruct (forEach_ind
    (fun s (st : list T * list (option T)) =>
       length st.1 = 4 /\ length st.2 <= len
       /\ forall j, js_get st.2 j
                    = if decide (j < len /\ seg j < s) then Some (val j) else None)
    sampleArr
    (fun xqSubArr i '(coefficients, results) =>
        let coefficients := cubicCoefficients y b c d i coefficients in
        poly ← createPolynomialFunction coefficients;
        results ←
          forEach xqSubArr (fun xq i results =>
              Ok (js_set results i (poly (xq - aref x i)%num)))
            results;
        Ok (coefficients, results))
    (Float64Array 4, [])) as ([cf results] & Hrun & Hcf & Hlen & Hres).
  - cbn. split; [done|]. split; [lia|]. intros j. rewrite decide_False by lia.
    unfold js_get. by rewrite lookup_nil.
  - intros s [cf results] bucket Hbucket (Hcf & Hlen & Hres). cbn [fst snd] in *. cbv zeta.
    rewrite (cubicCoefficients_buffer y b c d s cf Hcf).
    rewrite createPolynomialFunction_Ok by done. cbn [mbind result_bind].
    destruct (forEach_ind
      (fun j (rs : list (option T)) =>
         length rs <= len
         /\ forall j', js_get rs j'
                       = if decide (j' < len /\ (seg j' < s \/ (seg j' = s /\ j' < j)))
                         then Some (val j') else None)
      bucket
      (fun xq i results =>
         Ok (js_set results i
               (polynomialOf [aref y s; aref b s; aref c s; aref d s] (xq - aref x i)%num)))
      results) as (results' & Hinner & Hlen' & Hres').
    + split; [done|]. intros j'. rewrite Hres.
      destruct (decide (j' < len /\ seg j' < s)) as [[? ?]|Hno].
      * by rewrite decide_True by (split; [done|by left]).
      * rewrite decide_False; [done|]. intros [? [?|[? ?]]]; [by apply Hno|lia].
    + intros j rs v Hv [Hrs Hget].
      pose proof (Hbuckets s j) as Hsj. unfold js_get2 in Hsj. rewrite Hbucket in Hsj.
      cbn [mbind option_bind] in Hsj. rewrite Hv in Hsj.
      destruct (decide (j < len /\ seg j = s)) as [[Hj Hs]|]; [|done].
      injection Hsj as ->.
      eexists. split; [reflexivity|]. split.
      { rewrite length_js_set. lia. }
      intros j'. destruct (decide (j' = j)) as [->|Hne].
      * rewrite js_get_set_eq. rewrite decide_True by (split; [done|right; split; [done|lia]]).
        unfold val. by rewrite Hs.
      * rewrite js_get_set_ne by done. rewrite Hget.
        destruct (decide (j' < len /\ (seg j' < s \/ seg j' = s /\ j' < j))) as [[? Hc]|Hno].
        -- rewrite decide_True; [done|]. split; [done|]. destruct Hc as [?|[? ?]]; [by left|right; split; [done|lia]].
        -- rewrite decide_False; [done|]. intros [? [?|[? ?]]]; apply Hno; (split; [done|]);
             [by left|right; split; [done|lia]].
    + intros j rs Hj Hv [Hrs Hget]. split; [done|]. intros j'. rewrite Hget.
      pose proof (Hbuckets s j) as Hsj. unfold js_get2 in Hsj. rewrite Hbucket in Hsj.
      cbn [mbind option_bind] in Hsj. rewrite Hv in Hsj.
      destruct (decide (j < len /\ seg j = s)) as [|Hnot]; [done|].
      destruct (decide (j' < len /\ (seg j' < s \/ seg j' = s /\ j' < j))) as [[? Hc]|Hno].
      * rewrite decide_True; [done|]. split; [done|].
        destruct Hc as [?|[? ?]]; [by left|right; split; [done|lia]].
      * rewrite decide_False; [done|]. intros [? [?|[? ?]]].
        -- apply Hno. split; [done|by left].
        -- destruct (decide (j' = j)) as [->|?]; [by apply Hnot|].
           apply Hno. split; [done|]. right. split; [done|lia].
    + rewrite Hinner. cbn [mbind result_bind]. eexists. split; [reflexivity|].
      cbn [fst snd]. split; [done|]. split; [done|]. intros j. rewrite Hres'.
      destruct (decide (j < len /\ (seg j < s \/ seg j = s /\ j < length bucket)))
        as [[? Hc]|Hno].
      * rewrite decide_True; [done|]. split; [done|]. destruct Hc as [?|[? ?]]; lia.
      * rewrite decide_False; [done|]. intros [Hj Hs]. apply Hno. split; [done|].
        destruct (decide (seg j < s)) as [?|?]; [by left|]. right. split; [lia|].
        pose proof (Hbuckets s j) as Hsj. unfold js_get2 in Hsj. rewrite Hbucket in Hsj.
        cbn [mbind option_bind] in Hsj.
        rewrite decide_True in Hsj by (split; [done|lia]). by apply js_get_lt in Hsj.
  - intros s [cf results] Hs Hhole (Hcf & Hlen & Hres). cbn [fst snd] in *.
    split; [done|]. split; [done|]. intros j. rewrite Hres.
    destruct (decide (j < len /\ seg j < s)) as [[? ?]|Hno].
    + by rewrite decide_True by (split; [done|lia]).
    + rewrite decide_False; [done|]. intros [Hj Hsj]. apply Hno. split; [done|].
      destruct (decide (seg j = s)) as [Heq|?]; [|lia]. exfalso.
      pose proof (Hbuckets s j) as Hb. unfold js_get2 in Hb. rewrite Hhole in Hb.
      cbn [mbind option_bind] in Hb. by rewrite decide_True in Hb.
  - cbn [fst snd] in *. exists cf, results. split; [exact Hrun|].
    assert (forall j, j < len -> js_get results j = Some (val j)) as Hall.
    { intros j Hj. rewrite Hres. rewrite decide_True; [done|]. split; [done|].
      pose proof (Hbuckets (seg j) j) as Hb. rewrite decide_True in Hb by done.
      unfold js_get2 in Hb. destruct (js_get sampleArr (seg j)) as [bk|] eqn:Hbk; [|done].
      by apply js_get_lt in Hbk. }
    split; [|exact Hall].
    destruct len as [|len]; [lia|].
    pose proof (js_get_lt _ _ _ (Hall len ltac:(lia))). lia.
Qed.

End SecondLoop.

(** X1.  What the batch computes on rational samples and queries, next to the
    evaluator of [createCubicSplineInterpolator].  The coefficients [b],
    [c], [d] are those of [computeCubicPolyCoefficients], the same for
    every batch of queries.  The output has one entry per query and no
    hole; the evaluator gives the cubic of the query's segment [s] at
    [q - x[s]], the batch gives the same cubic at [q - x[j]] where [j] is
    the index of the query in [xq], and at [q - undefined], a NaN, when
    [x] has no index [j]. *)
Theorem cubicSplineInterpolate_rational (xs ys : list Qc) :
  3 <= length xs -> length ys = length xs ->
  strictly_increasing xs -> (Z.of_nat (length xs) <= 2 ^ 31)%Z ->
  exists f bq cq dq,
    createCubicSplineInterpolator (Fin <$> xs) (Fin <$> ys) = Ok f
    /\ computeCubicPolyCoefficients (Fin <$> xs) (Fin <$> ys)
       = Ok (Fin <$> bq, Fin <$> cq, Fin <$> dq)
    /\ cubic_relations xs ys bq cq dq
    /\ forall qs : list Qc, exists results,
         cubicSplineInterpolate (Fin <$> xs) (Fin <$> ys) (Fin <$> qs) = Ok results
         /\ length results = length qs
         /\ forall j q, qs !! j = Some q ->
              let s := segmentOf xs q in
              f (Fin q)
              = Ok (Fin (cubicValue (qref ys s) (qref bq s) (qref cq s) (qref dq s)
                           (q - qref xs s)%Qc))
              /\ (forall xj, xs !! j = Some xj ->
                    results !! j
                    = Some (Some (Fin (cubicValue (qref ys s) (qref bq s) (qref cq s)
                                         (qref dq s) (q - xj)%Qc))))
              /\ (length xs <= j ->
                    results !! j
                    = Some (Some (polynomialOf
                                    [Fin (qref ys s); Fin (qref bq s); Fin (qref cq s);
                                     Fin (qref dq s)] NaN))).
Proof.
  intros Hlen Hys Hinc Hbound.
  destruct (createCubicSplineInterpolator_eval xs ys Hlen Hys Hinc Hbound)
    as (f & bq & cq & dq & Hf & Hsolve & Hrel & Heval).
  exists f, bq, cq, dq. split; [done|]. split; [done|]. split; [done|]. intros qs.
  unfold cubicSplineInterpolate. rewrite Hsolve. cbn [mbind result_bind]. cbv zeta.
  rewrite length_fmap.
  destruct (bucketQueries_rational xs qs Hinc Hbound) as (sampleArr & -> & Hbuckets).
  cbn [mbind result_bind].
  destruct (batch_second_loop (Fin <$> xs) (Fin <$> ys) (Fin <$> bq) (Fin <$> cq) (Fin <$> dq)
              sampleArr (length qs) (fun j => segmentOf xs (qref qs j))
              (fun j => Fin (qref qs j)) Hbuckets)
    as (cf & results & Hrun & Hresults & Hget).
  cbv zeta in Hrun. rewrite Hrun. cbn [mbind result_bind].
  exists results. split; [done|]. split; [done|].
  intros j q Hq. cbv zeta. split; [apply Heval|].
  pose proof (lookup_lt_Some _ _ _ Hq) as Hj.
  pose proof (Hget j Hj) as Hv. rewrite (qref_Some _ _ _ Hq) in Hv.
  apply js_get_lookup in Hv. rewrite Hv.
  pose proof (segmentOf_lt xs q ltac:(lia)) as Hseg.
  destruct Hrel as (Hb & Hc & Hd & _).
  rewrite !aref_Fin by lia. split.
  - intros xj Hxj. rewrite (aref_Fin_lookup xs j xj Hxj). xnum_simpl.
    by rewrite polynomialOf_4.
  - intros Hout. unfold aref at 1. rewrite list_lookup_fmap.
    by rewrite (lookup_ge_None_2 xs j Hout).
Qed.

Lemma cubicSplineInterpolate_rational_witness :
  exists f results,
    createCubicSplineInterpolator (Fin <$> [0; 1; 1 + 1]%Qc) (Fin <$> [0; 1; 0]%Qc) = Ok f
    /\ cubicSplineInterpolate (Fin <$> [0; 1; 1 + 1]%Qc) (Fin <$> [0; 1; 0]%Qc)
         (Fin <$> [Q2Qc (3 # 2)]) = Ok results
    /\ results = [Some (Fin (Q2Qc (-11 # 16)))]
    /\ f (Fin (Q2Qc (3 # 2))) = Ok (Fin (Q2Qc (11 # 16))).
Proof.
  destruct (cubicSplineInterpolate_rational [0; 1; 1 + 1]%Qc [0; 1; 0]%Qc)
    as (f & bq & cq & dq & Hf & Hsolve & Hrel & Hall).
  - simpl. lia.
  - reflexivity.
  - repeat split.
  - simpl. lia.
  - destruct (Hall [Q2Qc (3 # 2)]) as (results & Hrun & Hlen & Hres).
    exists f, results. split; [exact Hf|]. split; [exact Hrun|].
    vm_compute in Hsolve. injection Hsolve as Hb Hc Hd.
    destruct (Hres 0 (Q2Qc (3 # 2)) eq_refl) as (Hval & Hat & _).
    specialize (Hat 0%Qc eq_refl). cbv zeta in Hval, Hat.
    destruct bq as [|b0 [|b1 [|]]]; try discriminate.
    destruct cq as [|c0 [|c1 [|c2 [|]]]]; try discriminate.
    destruct dq as [|d0 [|d1 [|]]]; try discriminate.
    injection Hb as <- <-. injection Hc as <- <- <-. injection Hd as <- <-.
    split.
    + destruct results as [|r0 [|]]; try discriminate. f_equal.
      simpl in Hat. injection Hat as ->.
      do 2 f_equal; try (apply Qc_is_canon; reflexivity).
    + rewrite Hval. do 2 f_equal; try (apply Qc_is_canon; reflexivity).
Defined.

(* ------------------------------------------------------------------ *)
(** ** The examples on doubles *)

(** The two examples of the specification, on doubles. *)
Example linear_example_on_doubles :
  interpolateAt (createLinearInterpolator [0; 2]%float [0; 10]%float) 1%float = Ok 5%float.
Proof. vm_compute. reflexivity. Qed.

Example akima_example_on_doubles :
  interpolateAt
    (createAkimaSplineInterpolator [0; 1; 2; 3; 4; 5; 6]%float [0; 1; 0; 1; 0; 1; 0]%float)
    0%float = Ok 0%float
  /\ interpolateAt
       (createAkimaSplineInterpolator [0; 1; 2; 3; 4; 5; 6]%float [0; 1; 0; 1; 0; 1; 0]%float)
       6%float = Ok 0%float.
Proof. split; vm_compute; reflexivity. Qed.

(* ------------------------------------------------------------------ *)
(** ** The search on any array *)

Section SearchAnyArray.
Context {T : Type} `{Number T}.

(** Whatever the array holds, a result of the loop lies in the interval
    it was given: an index of the interval whose element equals the key, or
    the code of a position of the interval. *)
Lemma binarySearch_loop_result (fuel : nat) : forall (a : list T) key low high r,
  (0 <= low)%Z -> (low <= high + 1)%Z -> (high < 2 ^ 31)%Z ->
  binarySearch_loop fuel a key low high = Ok r ->
  ((low <= r <= high)%Z /\ (arefZ a r ==? key)%num = true)
  \/ (exists p, r = (- (p + 1))%Z /\ (low <= p <= high + 1)%Z).
Proof.
  induction fuel as [|fuel IH]; intros a key low high r Hlow Hlh Hhigh;
    rewrite binarySearch_loop_unfold; destruct (Z.leb_spec low high) as [Hle|Hgt];
    try done.
  - intros [= <-]. right. exists low. lia.
  - pose proof (ushr1_half low high Hlow Hle Hhigh) as Hmid. cbv zeta.
    destruct (_ <? _)%num.
    { intros Hr. apply IH in Hr; [|lia..].
      destruct Hr as [[Hr ?]|(p & -> & Hp)]; [left|right; exists p]; split; (done || lia). }
    destruct (_ <? _)%num.
    { intros Hr. apply IH in Hr; [|lia..].
      destruct Hr as [[Hr ?]|(p & -> & Hp)]; [left|right; exists p]; split; (done || lia). }
    destruct (_ ==? _)%num eqn:Heq; [|done].
    intros [= <-]. left. split; [lia|done].
  - intros [= <-]. right. exists low. lia.
Qed.

(** A larger budget gives the same answer. *)
Lemma binarySearch_loop_fuel (fuel : nat) : forall fuel' (a : list T) key low high,
  fuel <= fuel' ->
  binarySearch_loop fuel a key low high <> OutOfFuel ->
  binarySearch_loop fuel' a key low high = binarySearch_loop fuel a key low high.
Proof.
  induction fuel as [|fuel IH]; intros fuel' a key low high Hle.
  - rewrite (binarySearch_loop_unfold fuel'), (binarySearch_loop_unfold 0).
    by destruct (Z.leb_spec low high).
  - destruct fuel' as [|fuel']; [lia|].
    rewrite (binarySearch_loop_unfold (S fuel')), (binarySearch_loop_unfold (S fuel)).
    destruct (Z.leb_spec low high) as [Hlh|Hlh]; [|done]. cbv zeta.
    destruct (_ <? _)%num; [intros; apply IH; [lia|done]|].
    destruct (_ <? _)%num; [intros; apply IH; [lia|done]|]. done.
Qed.

(** The interval halves at every probe. *)
Lemma binarySearch_loop_log (fuel : nat) : forall (a : list T) key low high,
  (0 <= low)%Z -> (high < 2 ^ 31)%Z ->
  (high - low + 1 < 2 ^ Z.of_nat fuel)%Z ->
  binarySearch_loop fuel a key low high <> OutOfFuel.
Proof.
  induction fuel as [|fuel IH]; intros a key low high Hlow Hhigh Hfuel;
    rewrite binarySearch_loop_unfold; destruct (Z.leb_spec low high) as [Hle|Hgt];
    try done.
  - simpl in Hfuel. lia.
  - pose proof (ushr1_half low high Hlow Hle Hhigh) as Hmid. cbv zeta.
    assert (ushr1 (low + high) = (low + high) / 2)%Z as Hhalf.
    { unfold ushr1. rewrite Z.mod_small by lia. by rewrite Z.shiftr_div_pow2 by lia. }
    rewrite Nat2Z.inj_succ, Z.pow_succ_r in Hfuel by lia.
    destruct (_ <? _)%num; [apply IH; try lia; rewrite Hhalf in *|].
    { pose proof (Z.div_mod (low + high) 2 ltac:(lia)).
      pose proof (Z.mod_pos_bound (low + high) 2 ltac:(lia)). lia. }
    destruct (_ <? _)%num; [apply IH; try lia; rewrite Hhalf in *|].
    { pose proof (Z.div_mod (low + high) 2 ltac:(lia)).
      pose proof (Z.mod_pos_bound (low + high) 2 ltac:(lia)). lia. }
    by destruct (_ ==? _)%num.
Qed.

End SearchAnyArray.

(** X3.  The search on any array of at most 2^31 elements, of any numbers
    (doubles included), sorted or not, with or without NaN: the loop ends
    within its budget; a result [r] satisfies
    [-(length + 1) <= r < length]; and a non-negative result is an index
    of the array whose element [==] the key. *)
Theorem Arrays_binarySearch_any_array (T : Type) (N : Number T) (a : list T) (key : T) :
  (Z.of_nat (length a) <= 2 ^ 31)%Z ->
  Arrays_binarySearch a key <> OutOfFuel
  /\ forall r, Arrays_binarySearch a key = Ok r ->
       (- Z.of_nat (length a) - 1 <= r < Z.of_nat (length a))%Z
       /\ ((0 <= r)%Z -> (arefZ a r ==? key)%num = true).
Proof.
  intros Hlen. split; [by apply Arrays_binarySearch_terminates|].
  intros r Hr. apply binarySearch_loop_result in Hr; [|lia..].
  destruct Hr as [[Hr Heq]|(p & -> & Hp)]; (split; [lia|]); [done|lia].
Qed.

Lemma Arrays_binarySearch_any_array_witness :
  Arrays_binarySearch [3; 1; 2]%float 2%float <> OutOfFuel
  /\ forall r, Arrays_binarySearch [3; 1; 2]%float 2%float = Ok r ->
       (- Z.of_nat 3 - 1 <= r < Z.of_nat 3)%Z
       /\ ((0 <= r)%Z -> (arefZ [3; 1; 2]%float r ==? 2%float)%num = true).
Proof. apply (Arrays_binarySearch_any_array float _ [3; 1; 2]%float 2%float). simpl. lia. Defined.

(** X4.  The search is logarithmic: on any array of [n <= 2^31] elements of
    any numbers, the loop given [floor(log2 n) + 1] iterations only answers
    what the search answers, and the search does not run out of its
    budget. *)
Theorem Arrays_binarySearch_logarithmic (T : Type) (N : Number T) (a : list T) (key : T) :
  (Z.of_nat (length a) <= 2 ^ 31)%Z ->
  binarySearch_loop (Z.to_nat (Z.log2 (Z.of_nat (length a))) + 1) a key
    0 (Z.of_nat (length a) - 1)
  = Arrays_binarySearch a key
  /\ Arrays_binarySearch a key <> OutOfFuel.
Proof.
  intros Hlen. set (iterations := Z.to_nat (Z.log2 (Z.of_nat (length a))) + 1).
  assert (binarySearch_loop iterations a key 0 (Z.of_nat (length a) - 1) <> OutOfFuel) as Hrun.
  { apply binarySearch_loop_log; [lia..|]. subst iterations.
    rewrite Nat2Z.inj_add, Z2Nat.id by apply Z.log2_nonneg.
    destruct (decide (length a = 0)) as [->|Hne]; [done|].
    pose proof (Z.log2_spec (Z.of_nat (length a)) ltac:(lia)) as [_ Hlog].
    replace (Z.succ (Z.log2 (Z.of_nat (length a))))
      with (Z.log2 (Z.of_nat (length a)) + Z.of_nat 1)%Z in Hlog by lia. lia. }
  split; [|by apply Arrays_binarySearch_terminates]. unfold Arrays_binarySearch.
  destruct (Nat.le_ge_cases iterations (length a)) as [Hle|Hge].
  - symmetry. by apply binarySearch_loop_fuel.
  - apply binarySearch_loop_fuel; [done|].
    apply binarySearch_loop_terminates; lia.
Qed.

Lemma Arrays_binarySearch_logarithmic_witness :
  binarySearch_loop 3 [1; 2; 3; 4; 5; 6; 7]%float 6%float 0 6
  = Arrays_binarySearch [1; 2; 3; 4; 5; 6; 7]%float 6%float
  /\ Arrays_binarySearch [1; 2; 3; 4; 5; 6; 7]%float 6%float <> OutOfFuel.
Proof.
  apply (Arrays_binarySearch_logarithmic float _ [1; 2; 3; 4; 5; 6; 7]%float 6%float).
  simpl. lia.
Defined.

Section ProbesInRange.
Context {T : Type} `{Number T}.

Lemma binarySearch_probes_range (fuel : nat) : forall (a : list T) key low high mid,
  (0 <= low)%Z -> (high < 2 ^ 31)%Z ->
  mid ∈ binarySearch_probes fuel a key low high -> (low <= mid <= high)%Z.
Proof.
  induction fuel as [|fuel IH]; intros a key low high mid Hlow Hhigh;
    cbn [binarySearch_probes]; destruct (Z.leb_spec low high) as [Hle|Hgt];
    try (by intros ?%elem_of_nil).
  pose proof (ushr1_half low high Hlow Hle Hhigh) as Hmid. cbv zeta.
  intros [->|Hin]%elem_of_cons; [done|].
  destruct (_ <? _)%num; [apply IH in Hin; lia|].
  destruct (_ <? _)%num; [apply IH in Hin; lia|].
  by apply elem_of_nil in Hin.
Qed.

End ProbesInRange.

(** X25.  The search reads inside the array: for any numbers and any array
    of at most 2^31 elements, every index that the loop inspects is an
    index of the array. *)
Theorem Arrays_binarySearch_probes_in_range (T : Type) (N : Number T) (a : list T)
    (key : T) (mid : Z) :
  (Z.of_nat (length a) <= 2 ^ 31)%Z ->
  mid ∈ Arrays_probes a key ->
  (0 <= mid < Z.of_nat (length a))%Z /\ is_Some (a !! Z.to_nat mid).
Proof.
  intros Hlen Hin. apply binarySearch_probes_range in Hin; [|lia..].
  split; [lia|]. apply lookup_lt_is_Some_2. lia.
Qed.

Lemma Arrays_binarySearch_probes_in_range_witness :
  1%Z ∈ Arrays_probes [3; 1; 2]%float 2%float
  /\ (0 <= 1 < Z.of_nat 3)%Z /\ is_Some ([3; 1; 2]%float !! Z.to_nat 1).
Proof.
  split; [vm_compute; left|].
  apply (Arrays_binarySearch_probes_in_range float _ [3; 1; 2]%float 2%float 1);
    [simpl; lia|].
  vm_compute. left.
Defined.

(* ------------------------------------------------------------------ *)
(** ** The contract of the search and of the order check *)

(** X2.  The contract of [java.util.Arrays.binarySearch], on strictly
    increasing rational knots (at most 2^31) and a rational key: the search
    returns; its result is non-negative exactly when the key is in the
    array, and is then an index that holds the key; otherwise it is
    [-(p + 1)] for the insertion point [p]: every element before [p] is
    below the key and every element from [p] on is above it. *)
Theorem Arrays_binarySearch_contract (xs : list Qc) (q : Qc) :
  strictly_increasing xs -> (Z.of_nat (length xs) <= 2 ^ 31)%Z ->
  exists r,
    Arrays_binarySearch (Fin <$> xs) (Fin q) = Ok r
    /\ ((0 <= r)%Z <-> q ∈ xs)
    /\ ((0 <= r)%Z -> xs !! Z.to_nat r = Some q)
    /\ ((r < 0)%Z ->
        exists p, r = (- (Z.of_nat p + 1))%Z
          /\ p = insertionPoint xs q
          /\ p <= length xs
          /\ (forall k v, xs !! k = Some v -> k < p -> (v < q)%Qc)
          /\ (forall k v, xs !! k = Some v -> p <= k -> (q < v)%Qc)).
Proof.
  intros Hinc Hlen.
  destruct (Arrays_binarySearch_cases xs q Hinc Hlen)
    as [(j & -> & Hj & _)|(-> & Hbelow & Habove)]; eexists; (split; [reflexivity|]).
  - split; [|split].
    + split; [intros _; by eapply list_elem_of_lookup_2|lia].
    + intros _. by rewrite Nat2Z.id.
    + lia.
  - pose proof (insertionPoint_le xs q). split; [|split].
    + split; [lia|]. intros (k & Hk)%list_elem_of_lookup. exfalso.
      destruct (Nat.lt_ge_cases k (insertionPoint xs q)) as [Hlt|Hge].
      * apply (Qclt_not_le q q); [by apply (Hbelow k)|apply Qcle_refl].
      * apply (Qclt_not_le q q); [by apply (Habove k)|apply Qcle_refl].
    + lia.
    + intros _. exists (insertionPoint xs q). repeat split; eauto.
Qed.

Lemma Arrays_binarySearch_contract_witness :
  exists r,
    Arrays_binarySearch (Fin <$> [0; 1; Q2Qc 3]%Qc) (Fin (Q2Qc 2)) = Ok r
    /\ r = (-3)%Z.
Proof.
  destruct (Arrays_binarySearch_contract [0; 1; Q2Qc 3]%Qc (Q2Qc 2))
    as (r & Hr & _ & _ & Hneg); [repeat split|simpl; lia|].
  exists r. split; [done|].
  assert (Arrays_binarySearch (Fin <$> [0; 1; Q2Qc 3]%Qc) (Fin (Q2Qc 2)) = Ok (-3)%Z) as Hrun
    by (vm_compute; reflexivity).
  rewrite Hrun in Hr. by injection Hr.
Defined.

Lemma checkOrder_from_rational rest : forall previous,
  checkOrder_from (Fin previous) (Fin <$> rest) = Ok tt /\ increasing_from previous rest
  \/ checkOrder_from (Fin previous) (Fin <$> rest) = Throw OrderError
     /\ exists i a b, (previous :: rest) !! i = Some a /\ (previous :: rest) !! (i + 1) = Some b
                      /\ (b <= a)%Qc.
Proof.
  induction rest as [|w rest IH]; intros previous; [by left|].
  rewrite fmap_cons. cbn [checkOrder_from].
  rewrite leb_Fin. destruct (Qc_is Gt w previous) eqn:Hgt; cbn [negb].
  - apply Qc_is_Gt in Hgt. destruct (IH w) as [[-> Hinc]|[-> (i & a & b & Ha & Hb & Hab)]].
    + by left.
    + right. split; [done|]. by exists (S i), a, b.
  - right. split; [done|]. exists 0, previous, w. repeat split.
    apply Qcnot_lt_le. intros Hlt. apply Qc_is_Gt in Hlt. congruence.
Qed.

(** X5.  The order check on rationals: it answers or raises OrderError and
    nothing else; it answers exactly when every element is below every
    later one (the empty and the one-element array pass); it raises
    OrderError exactly when some element is not above its predecessor. *)
Theorem MathArrays_checkOrder_rational (xs : list Qc) :
  (MathArrays_checkOrder (Fin <$> xs) = Ok tt
   \/ MathArrays_checkOrder (Fin <$> xs) = Throw OrderError)
  /\ (MathArrays_checkOrder (Fin <$> xs) = Ok tt
      <-> forall i j a b, i < j -> xs !! i = Some a -> xs !! j = Some b -> (a < b)%Qc)
  /\ (MathArrays_checkOrder (Fin <$> xs) = Throw OrderError
      <-> exists i a b, xs !! i = Some a /\ xs !! (i + 1) = Some b /\ (b <= a)%Qc).
Proof.
  destruct xs as [|x0 rest].
  { split; [by left|]. split.
    - split; [intros _ i j a b _ Hi; done|done].
    - split; [done|intros (i & a & b & Ha & _); done]. }
  cbn [fmap list_fmap MathArrays_checkOrder].
  change (list_fmap Qc xnum Fin rest) with (Fin <$> rest).
  destruct (checkOrder_from_rational rest x0) as [[Hok Hinc]|[Herr Hbad]]; rewrite ?Hok, ?Herr.
  - split; [by left|]. split.
    + split; [|done]. intros _ i j a b. by apply (strictly_increasing_lookup (x0 :: rest)).
    + split; [done|]. intros (i & a & b & Ha & Hb & Hab). exfalso.
      apply (Qclt_not_le a b); [|done].
      apply (strictly_increasing_lookup (x0 :: rest) i (i + 1)); (done || lia).
  - split; [by right|]. split.
    + split; [done|]. intros Hall. exfalso. destruct Hbad as (i & a & b & Ha & Hb & Hab).
      apply (Qclt_not_le a b); [|done]. apply (Hall i (i + 1)); (done || lia).
    + done.
Qed.

(* ------------------------------------------------------------------ *)
(** ** Polynomial functions *)

Section TrailingZeros.
Context {T : Type} `{Number T}.

Lemma aref_app_l (c zs : list T) (i : nat) : i < length c -> aref (c ++ zs) i = aref c i.
Proof. intros Hi. unfold aref. by rewrite lookup_app_l. Qed.

Lemma trimDegree_le (c : list T) (n : nat) : trimDegree c n <= n.
Proof.
  induction n as [|n IH]; [done|]. cbn [trimDegree].
  destruct n as [|n]; [done|]. destruct (_ ==? _)%num; lia.
Qed.

Lemma trimDegree_pos (c : list T) (n : nat) : 1 <= n -> 1 <= trimDegree c n.
Proof.
  induction n as [|n IH]; [lia|]. intros _. cbn [trimDegree].
  destruct n as [|n]; [done|]. destruct (_ ==? _)%num; [apply IH|]; lia.
Qed.

Lemma trimDegree_app (c zs : list T) (n : nat) :
  n <= length c -> trimDegree (c ++ zs) n = trimDegree c n.
Proof.
  induction n as [|n IH]; [done|]. intros Hn. cbn [trimDegree].
  destruct n as [|n]; [done|]. rewrite aref_app_l by lia.
  destruct (_ ==? _)%num; [apply IH; lia|done].
Qed.

Lemma trimDegree_zeros (l : list T) (n k : nat) :
  1 <= n ->
  (forall i, n <= i < n + k -> (aref l i ==? zero)%num = true) ->
  trimDegree l (n + k) = trimDegree l n.
Proof.
  intros Hn. induction k as [|k IH]; intros Hzero; [by rewrite Nat.add_0_r|].
  replace (n + S k) with (S (n + k)) by lia.
  assert (trimDegree l (S (n + k)) = trimDegree l (n + k)) as ->.
  { cbn [trimDegree]. destruct (n + k) as [|m] eqn:Hm; [lia|]. rewrite <- Hm.
    by rewrite Hzero by lia. }
  apply IH. intros i Hi. apply Hzero. lia.
Qed.

Lemma horner_app (c zs : list T) (k : nat) (x v : T) :
  k <= length c -> horner (c ++ zs) k x v = horner c k x v.
Proof.
  revert v. induction k as [|k IH]; intros v Hk; [done|]. cbn [horner].
  rewrite aref_app_l by lia. apply IH. lia.
Qed.

Lemma polynomialOf_trailing_zeros (c zs : list T) (x : T) :
  c <> [] -> Forall (fun z => (z ==? zero)%num = true) zs ->
  polynomialOf (c ++ zs) x = polynomialOf c x.
Proof.
  intros Hc Hzs. unfold polynomialOf.
  assert (1 <= length c) as Hlen by (destruct c; [done|simpl; lia]).
  rewrite length_app, trimDegree_zeros, trimDegree_app; [|lia|lia|].
  - pose proof (trimDegree_le c (length c)). pose proof (trimDegree_pos c (length c) Hlen).
    rewrite aref_app_l by lia. apply horner_app. lia.
  - intros i Hi. unfold aref. rewrite lookup_app_r by lia.
    destruct (lookup_lt_is_Some_2 zs (i - length c) ltac:(lia)) as [z Hz]. rewrite Hz.
    by apply (Forall_lookup_1 _ _ _ _ Hzs Hz).
Qed.

End TrailingZeros.

(** X7.  Trailing zeros are ignored, for any numbers: the polynomial of a
    non-empty array [c] followed by coefficients that [== 0] is, at every
    argument, the polynomial of [c]; when [c] has one element, it is the
    constant [c[0]] at every argument (on doubles: at NaN and at the
    infinities too, and with [-0] among the zeros). *)
Theorem createPolynomialFunction_trailing_zeros (T : Type) (N : Number T) (c zs : list T) :
  c <> [] -> Forall (fun z => (z ==? zero)%num = true) zs ->
  exists f g,
    createPolynomialFunction (c ++ zs) = Ok f
    /\ createPolynomialFunction c = Ok g
    /\ (forall x, f x = g x)
    /\ (length c = 1 -> forall x, f x = aref c 0).
Proof.
  intros Hc Hzs. exists (polynomialOf (c ++ zs)), (polynomialOf c).
  split; [apply createPolynomialFunction_Ok; by destruct c|].
  split; [by apply createPolynomialFunction_Ok|].
  split; [intros x; by apply polynomialOf_trailing_zeros|].
  intros Hlen x. rewrite polynomialOf_trailing_zeros by done.
  destruct c as [|c0 [|? ?]]; done.
Qed.

Lemma createPolynomialFunction_trailing_zeros_witness :
  exists f,
    createPolynomialFunction [5; 0; -0]%float = Ok f
    /\ f PrimFloat.nan = 5%float /\ f PrimFloat.infinity = 5%float.
Proof.
  destruct (createPolynomialFunction_trailing_zeros float _ [5]%float [0; -0]%float)
    as (f & g & Hf & _ & _ & Hconst); [done|by repeat constructor|].
  exists f. split; [exact Hf|]. split; by rewrite Hconst.
Defined.

(** Horner on rationals *)

Lemma monomialSum_app (l : list Qc) : forall (c t : Qc) (i : nat),
  monomialSum (l ++ [c]) t i = (monomialSum l t i + c * t ^ (i + length l))%Qc.
Proof.
  induction l as [|w l IH]; intros c t i; simpl.
  - rewrite Nat.add_0_r. ring.
  - rewrite IH. replace (S i + length l) with (i + S (length l)) by lia. ring.
Qed.

Lemma monomialSum_take (cs : list Qc) (t : Qc) (k : nat) :
  k < length cs ->
  monomialSum (take (S k) cs) t 0 = (monomialSum (take k cs) t 0 + qref cs k * t ^ k)%Qc.
Proof.
  intros Hk. destruct (lookup_lt_is_Some_2 cs k Hk) as [c Hc].
  rewrite (take_S_r _ _ _ Hc), monomialSum_app, length_take_le by lia.
  by rewrite (qref_Some _ _ _ Hc).
Qed.

Lemma horner_rational (cs : list Qc) (t : Qc) (k : nat) : forall v,
  k <= length cs ->
  horner (Fin <$> cs) k (Fin t) (Fin v) = Fin (t ^ k * v + monomialSum (take k cs) t 0)%Qc.
Proof.
  induction k as [|k IH]; intros v Hk.
  - cbn [horner]. rewrite take_0. f_equal. simpl. ring.
  - cbn [horner]. rewrite aref_Fin by lia. rewrite mul_Fin, add_Fin, IH by lia.
    f_equal. rewrite monomialSum_take by lia. simpl. ring.
Qed.

Lemma trimDegree_rational (cs : list Qc) (t : Qc) (n : nat) :
  1 <= n -> n <= length cs ->
  monomialSum (take (trimDegree (Fin <$> cs) n) cs) t 0 = monomialSum (take n cs) t 0.
Proof.
  induction n as [|n IH]; [lia|]. intros _ Hn. cbn [trimDegree].
  destruct n as [|n]; [done|]. rewrite aref_Fin by lia.
  rewrite zero_Fin, eqb_Fin. destruct (Qc_is Eq _ _) eqn:Heq; [|done].
  apply Qc_is_Eq in Heq. rewrite IH by lia.
  rewrite (monomialSum_take cs t (S n)) by lia. rewrite Heq. ring.
Qed.

(** X6.  Horner's rule on rationals: for a non-empty array of rational
    coefficients the function of [createPolynomialFunction] maps [t] to
    [c[0] + c[1] t + c[2] t^2 + ...]; the trailing zero coefficients that
    the constructor drops do not change the value. *)
Theorem createPolynomialFunction_rational (cs : list Qc) :
  cs <> [] ->
  exists f,
    createPolynomialFunction (Fin <$> cs) = Ok f
    /\ forall t, f (Fin t) = Fin (monomialSum cs t 0).
Proof.
  intros Hcs. exists (polynomialOf (Fin <$> cs)).
  split; [apply createPolynomialFunction_Ok; by destruct cs|].
  intros t. unfold polynomialOf. rewrite length_fmap.
  assert (1 <= length cs) as Hlen by (destruct cs; [done|simpl; lia]).
  pose proof (trimDegree_le (Fin <$> cs) (length cs)) as Hle.
  pose proof (trimDegree_pos (Fin <$> cs) (length cs) Hlen) as Hpos.
  pose proof (trimDegree_rational cs t (length cs) Hlen ltac:(lia)) as Hsum.
  rewrite firstn_all in Hsum. rewrite <- Hsum.
  set (n := trimDegree (Fin <$> cs) (length cs)) in *.
  rewrite aref_Fin, horner_rational by lia. f_equal.
  pose proof (monomialSum_take cs t (n - 1) ltac:(lia)) as Htake.
  replace (S (n - 1)) with n in Htake by lia. rewrite Htake. ring.
Qed.

Lemma createPolynomialFunction_rational_witness :
  exists f,
    createPolynomialFunction (Fin <$> [1; Q2Qc 2; 0; Q2Qc 3; 0]%Qc) = Ok f
    /\ f (Fin (Q2Qc 2)) = Fin (Q2Qc 29).
Proof.
  destruct (createPolynomialFunction_rational [1; Q2Qc 2; 0; Q2Qc 3; 0]%Qc)
    as (f & Hf & Hval); [done|].
  exists f. split; [exact Hf|]. rewrite Hval. f_equal; by apply Qc_is_canon.
Defined.

(* ------------------------------------------------------------------ *)
(** ** What the constructors answer to any input *)

Section Outcome.
Context {T : Type} `{Number T}.

Lemma checkOrder_from_outcome rest : forall previous : T,
  checkOrder_from previous rest = Ok tt \/ checkOrder_from previous rest = Throw OrderError.
Proof.
  induction rest as [|v rest IH]; intros previous; [by left|].
  cbn [checkOrder_from]. destruct (_ <=? _)%num; [by right|apply IH].
Qed.

Lemma checkOrder_outcome (val : list T) :
  MathArrays_checkOrder val = Ok tt \/ MathArrays_checkOrder val = Throw OrderError.
Proof. destruct val as [|v0 rest]; [by left|apply checkOrder_from_outcome]. Qed.

(** The loop that builds the polynomials and the spline function made of
    them raise nothing when the knots are in order: the buffer is never
    empty and there is one polynomial per interval. *)
Lemma spline_tail_Ok (fill : nat -> list T -> list T) (w : nat) (x : list T) :
  0 < w -> 2 <= length x ->
  (forall i c, length c = w -> length (fill i c) = w) ->
  (forall i c c', length c = w -> length c' = w -> fill i c = fill i c') ->
  MathArrays_checkOrder x = Ok tt ->
  exists f,
    ('(_, polynomials) ←
       for_each (fun i '(coefficients, polynomials) =>
           let coefficients := fill i coefficients in
           p ← createPolynomialFunction coefficients;
           Ok (coefficients, polynomials ++ [p]))
         (seq 0 (length x - 1)) (Float64Array w, []);
     createPolynomialSplineFunction x polynomials) = Ok f.
Proof.
  intros Hw Hlen Hfill Hsame Horder.
  destruct (for_each_polynomials fill (fun i => fill i (Float64Array w)) w
              (seq 0 (length x - 1)) Hw)
    with (c := Float64Array (T:=T) w) (ps := @nil (T -> T)) as (c' & Hrun & _).
  { intros i c _ Hc. apply Hsame; [done|]. unfold Float64Array. by rewrite length_replicate. }
  { intros i _. apply Hfill. unfold Float64Array. by rewrite length_replicate. }
  { unfold Float64Array. by rewrite length_replicate. }
  cbv zeta in Hrun |- *. rewrite Hrun. cbn [mbind result_bind]. rewrite app_nil_l.
  unfold createPolynomialSplineFunction. cbv zeta.
  destruct (Nat.ltb_spec (length x) 2) as [|_]; [lia|].
  rewrite length_fmap, length_seq, Nat.eqb_refl. cbn [negb].
  rewrite Horder. cbn [mbind result_bind]. by eexists.
Qed.

Lemma length_4 (c : list T) :
  length c = 4 -> exists c0 c1 c2 c3, c = [c0; c1; c2; c3].
Proof.
  intros Hc. destruct c as [|c0 [|c1 [|c2 [|c3 [|]]]]]; simpl in Hc; try lia.
  by exists c0, c1, c2, c3.
Qed.

Lemma createNearestNeighborInterpolator_outcome (x y : list T) :
  length x = length y -> MathArrays_checkOrder x = Ok tt ->
  exists f, createNearestNeighborInterpolator x y = Ok f.
Proof.
  intros Hlen Horder. unfold createNearestNeighborInterpolator. cbv zeta.
  rewrite Hlen, Nat.eqb_refl. cbn [negb].
  destruct (length y =? 0)%nat; [by eexists|].
  destruct (length y =? 1)%nat; [by eexists|].
  rewrite Horder. cbn [mbind result_bind]. by eexists.
Qed.

Lemma createLinearInterpolator_outcome (x y : list T) :
  length x = length y -> 2 <= length x -> MathArrays_checkOrder x = Ok tt ->
  exists f, createLinearInterpolator x y = Ok f.
Proof.
  intros Hlen Hmin Horder. unfold createLinearInterpolator. cbv zeta.
  rewrite Hlen, Nat.eqb_refl. cbn [negb]. rewrite <- Hlen.
  destruct (Nat.ltb_spec (length x) 2) as [|_]; [lia|].
  rewrite Horder. cbn [mbind result_bind].
  apply (spline_tail_Ok
           (fun i c => <[1 := aref (linearSlopes x y (length x - 1)) i]> (<[0 := aref y i]> c)) 2);
    [lia|done| | |done].
  - intros i c Hc. by rewrite !length_insert.
  - intros i c c' Hc Hc'.
    destruct c as [|? [|? [|]]], c' as [|? [|? [|]]]; simpl in Hc, Hc'; try lia. done.
Qed.

Lemma createCubicSplineInterpolator_outcome (x y : list T) :
  length x = length y -> 3 <= length x -> MathArrays_checkOrder x = Ok tt ->
  exists f, createCubicSplineInterpolator x y = Ok f.
Proof.
  intros Hlen Hmin Horder. unfold createCubicSplineInterpolator.
  destruct (computeCubicPolyCoefficients_shape x y Hlen Hmin Horder)
    as (b & c & d & -> & _). cbn [mbind result_bind]. cbv zeta.
  apply (spline_tail_Ok (cubicCoefficients y b c d) 4); [lia|lia| | |done].
  - intros i k Hk. unfold cubicCoefficients. by rewrite !length_insert.
  - intros i k k' Hk Hk'.
    destruct (length_4 k Hk) as (? & ? & ? & ? & ->).
    by destruct (length_4 k' Hk') as (? & ? & ? & ? & ->).
Qed.

Lemma interpolateHermiteSorted_outcome (x y fd : list T) :
  length x = length y -> length x = length fd -> 2 <= length x ->
  MathArrays_checkOrder x = Ok tt ->
  exists f, interpolateHermiteSorted x y fd = Ok f.
Proof.
  intros Hlen Hfd Hmin Horder. unfold interpolateHermiteSorted. cbv zeta.
  rewrite <- Hlen, <- Hfd, Nat.eqb_refl. cbn [negb orb].
  destruct (Nat.ltb_spec (length x) 2) as [|_]; [lia|].
  apply (spline_tail_Ok (hermiteCoefficients x y fd) 4); [lia|lia| | |done].
  - intros i k Hk. unfold hermiteCoefficients. cbv zeta. by rewrite !length_insert.
  - intros i k k' Hk Hk'.
    destruct (length_4 k Hk) as (? & ? & ? & ? & ->).
    by destruct (length_4 k' Hk') as (? & ? & ? & ? & ->).
Qed.

Lemma akimaFirstDerivatives_length (x y : list T) (n : nat) :
  length (akimaFirstDerivatives x y n) = n.
Proof.
  unfold akimaFirstDerivatives. cbv zeta. rewrite !length_insert.
  unfold akimaInterior.
  destruct (Nat.le_gt_cases 2 (n - 2)) as [Hle|Hgt].
  - apply (for_up_ind (fun _ (a : list T) => length a = n)); [done| |].
    + unfold Float64Array. by rewrite length_replicate.
    + intros i a _ Ha. destruct (_ && _); by rewrite length_insert.
  - unfold for_up. replace (n - 2 - 2) with 0 by lia. simpl.
    unfold Float64Array. by rewrite length_replicate.
Qed.

Lemma createAkimaSplineInterpolator_outcome (x y : list T) :
  length x = length y -> 5 <= length x -> MathArrays_checkOrder x = Ok tt ->
  exists f, createAkimaSplineInterpolator x y = Ok f.
Proof.
  intros Hlen Hmin Horder. unfold createAkimaSplineInterpolator. cbv zeta.
  rewrite <- Hlen, Nat.eqb_refl. cbn [negb].
  destruct (Nat.ltb_spec (length x) 5) as [|_]; [lia|].
  rewrite Horder. cbn [mbind result_bind].
  apply interpolateHermiteSorted_outcome; [done| |lia|done].
  by rewrite akimaFirstDerivatives_length.
Qed.

(** The four cases of a constructor, in the order of its checks. *)
Lemma construct_mismatch (k : constructor) (x y : list T) :
  length x <> length y -> construct k x y = Throw DimensionMismatchError.
Proof.
  intros Hlen. apply Nat.eqb_neq in Hlen.
  destruct k; cbn [construct];
    [unfold createNearestNeighborInterpolator|unfold createLinearInterpolator
    |unfold createCubicSplineInterpolator, computeCubicPolyCoefficients
    |unfold createAkimaSplineInterpolator]; cbv zeta; by rewrite Hlen.
Qed.

Lemma construct_too_few (k : constructor) (x y : list T) :
  length x = length y -> length x < minimumPoints k ->
  construct k x y = Throw InsufficientPointsError.
Proof.
  intros Hlen Hmin. destruct k; cbn [construct minimumPoints] in *; [lia| | |].
  - unfold createLinearInterpolator. rewrite <- Hlen, Nat.eqb_refl. cbn [negb].
    by destruct (Nat.ltb_spec (length x) 2); [|lia].
  - unfold createCubicSplineInterpolator, computeCubicPolyCoefficients.
    rewrite <- Hlen, Nat.eqb_refl. cbn [negb].
    by destruct (Nat.ltb_spec (length x) 3); [|lia].
  - unfold createAkimaSplineInterpolator. cbv zeta. rewrite <- Hlen, Nat.eqb_refl. cbn [negb].
    by destruct (Nat.ltb_spec (length x) 5); [|lia].
Qed.

Lemma construct_disorder (k : constructor) (x y : list T) :
  length x = length y -> minimumPoints k <= length x ->
  MathArrays_checkOrder x = Throw OrderError ->
  construct k x y = Throw OrderError.
Proof.
  intros Hlen Hmin Horder. destruct k; cbn [construct minimumPoints] in *.
  - unfold createNearestNeighborInterpolator. cbv zeta. rewrite <- Hlen, Nat.eqb_refl.
    cbn [negb]. destruct x as [|x0 [|x1 x]]; [done|done|].
    cbn [length Nat.eqb]. by rewrite Horder.
  - unfold createLinearInterpolator. rewrite <- Hlen, Nat.eqb_refl. cbn [negb].
    destruct (Nat.ltb_spec (length x) 2); [lia|]. by rewrite Horder.
  - unfold createCubicSplineInterpolator, computeCubicPolyCoefficients.
    rewrite <- Hlen, Nat.eqb_refl. cbn [negb].
    destruct (Nat.ltb_spec (length x) 3); [lia|]. by rewrite Horder.
  - unfold createAkimaSplineInterpolator. cbv zeta. rewrite <- Hlen, Nat.eqb_refl. cbn [negb].
    destruct (Nat.ltb_spec (length x) 5); [lia|]. by rewrite Horder.
Qed.

Lemma construct_accepts (k : constructor) (x y : list T) :
  length x = length y -> minimumPoints k <= length x ->
  MathArrays_checkOrder x = Ok tt ->
  exists f, construct k x y = Ok f.
Proof.
  intros Hlen Hmin Horder. destruct k; cbn [construct minimumPoints] in *.
  - by apply createNearestNeighborInterpolator_outcome.
  - by apply createLinearInterpolator_outcome.
  - by apply createCubicSplineInterpolator_outcome.
  - by apply createAkimaSplineInterpolator_outcome.
Qed.

End Outcome.

(** X8.  What the four constructors answer to any pair of arrays of any
    numbers: DimensionMismatchError when the lengths differ; otherwise
    InsufficientPointsError below the least number of points (none for the
    nearest neighbour, 2 linear, 3 cubic, 5 Akima); otherwise OrderError
    when the order check of [x] raises it; otherwise an evaluator.  The
    order check answers or raises OrderError, so these are all the cases:
    no constructor raises InsufficientKnotsError, EmptyCoefficientsError or
    InvalidValueError, and the checks inside [interpolateHermiteSorted] and
    [createPolynomialSplineFunction] never fail there. *)
Theorem constructors_outcome (T : Type) (N : Number T) (k : constructor) (x y : list T) :
  (length x <> length y -> construct k x y = Throw DimensionMismatchError)
  /\ (length x = length y -> length x < minimumPoints k ->
      construct k x y = Throw InsufficientPointsError)
  /\ (length x = length y -> minimumPoints k <= length x ->
      MathArrays_checkOrder x = Throw OrderError ->
      construct k x y = Throw OrderError)
  /\ (length x = length y -> minimumPoints k <= length x ->
      MathArrays_checkOrder x = Ok tt ->
      exists f, construct k x y = Ok f)
  /\ (MathArrays_checkOrder x = Ok tt \/ MathArrays_checkOrder x = Throw OrderError).
Proof.
  split; [|split; [|split; [|split]]].
  - apply construct_mismatch.
  - apply construct_too_few.
  - apply construct_disorder.
  - apply construct_accepts.
  - apply checkOrder_outcome.
Qed.

(* ------------------------------------------------------------------ *)
(** ** The evaluators read inside their arrays *)

Section InRange.
Context {T : Type} `{Number T}.

Lemma Arrays_binarySearch_range (a : list T) (key : T) (r : Z) :
  (Z.of_nat (length a) <= 2 ^ 31)%Z -> Arrays_binarySearch a key = Ok r ->
  (- Z.of_nat (length a) - 1 <= r < Z.of_nat (length a))%Z.
Proof.
  intros Hlen Hr. apply binarySearch_loop_result in Hr; [|lia..].
  destruct Hr as [[Hr _]|(p & -> & Hp)]; lia.
Qed.

Lemma arefZ_lookup (a : list T) (i : nat) (v : T) :
  a !! i = Some v -> arefZ a (Z.of_nat i) = v.
Proof.
  intros Hv. unfold arefZ, aref. destruct (Z.ltb_spec (Z.of_nat i) 0); [lia|].
  by rewrite Nat2Z.id, Hv.
Qed.

End InRange.

(** X20.  The evaluator of [createPolynomialSplineFunction] reads inside
    its arrays: for any numbers and any accepted knots and polynomials, a
    value that it returns is [p (q - k)] for the polynomial [p] and the
    knot [k] at one index present in both arrays. *)
Theorem spline_evaluator_reads_in_range (T : Type) (N : Number T)
    (knots : list T) (polynomials : list (T -> T)) (f : T -> result T) (q v : T) :
  createPolynomialSplineFunction knots polynomials = Ok f ->
  f q = Ok v ->
  exists i p k,
    polynomials !! i = Some p /\ knots !! i = Some k /\ v = p (q - k)%num.
Proof.
  unfold createPolynomialSplineFunction.
  destruct (Nat.ltb_spec (length knots) 2) as [|Hlen]; [done|].
  destruct (Nat.eqb_spec (length knots - 1) (length polynomials)) as [Hcount|]; [|done].
  cbn [negb]. destruct (MathArrays_checkOrder knots); cbn [mbind result_bind]; try done.
  intros [= <-].
  destruct (Arrays_binarySearch knots q) as [r| |]; cbn [mbind result_bind]; try done.
  intros [= <-].
  pose proof (segmentIndex_range r (length polynomials) ltac:(lia)) as Hseg.
  set (i := segmentIndex r (length polynomials)) in *.
  destruct (lookup_lt_is_Some_2 polynomials (Z.to_nat i) ltac:(lia)) as [p Hp].
  destruct (lookup_lt_is_Some_2 knots (Z.to_nat i) ltac:(lia)) as [k Hk].
  exists (Z.to_nat i), p, k. split; [done|]. split; [done|].
  rewrite (nth_lookup_Some _ _ _ _ Hp).
  rewrite <- (arefZ_lookup knots (Z.to_nat i) k Hk). by rewrite Z2Nat.id by lia.
Qed.

Lemma spline_evaluator_reads_in_range_witness :
  exists i p k,
    [fun t : float => t; fun t => (t * t)%float] !! i = Some p
    /\ [1; 2; 3]%float !! i = Some k
    /\ 0.25%float = p (2.5 - k)%float.
Proof.
  assert (exists f,
            createPolynomialSplineFunction [1; 2; 3]%float
              [fun t : float => t; fun t => (t * t)%float] = Ok f
            /\ f 2.5%float = Ok 0.25%float) as (f & Hf & Hv)
    by (eexists; split; [reflexivity|vm_compute; reflexivity]).
  exact (spline_evaluator_reads_in_range float _ _ _ f 2.5%float 0.25%float Hf Hv).
Defined.

(** X19.  The nearest-neighbour evaluator reads inside its arrays: for any
    numbers (doubles included) and any accepted input of 1 to 2^31 points,
    a value that the evaluator returns is an element of [yvals]. *)
Theorem nearest_neighbor_returns_a_sample (T : Type) (N : Number T)
    (xvals yvals : list T) (f : T -> result T) (q v : T) :
  createNearestNeighborInterpolator xvals yvals = Ok f ->
  1 <= length xvals -> (Z.of_nat (length xvals) <= 2 ^ 31)%Z ->
  f q = Ok v -> v ∈ yvals.
Proof.
  unfold createNearestNeighborInterpolator. cbv zeta. intros Hf Hlen Hbound.
  destruct (Nat.eqb_spec (length xvals) (length yvals)) as [Hys|]; [|done]. cbn [negb] in Hf.
  destruct (Nat.eqb_spec (length xvals) 0); [lia|].
  assert (forall j, j < length yvals -> aref yvals j ∈ yvals) as Hin.
  { intros j Hj. unfold aref. destruct (lookup_lt_is_Some_2 yvals j Hj) as [w Hw].
    rewrite Hw. by eapply list_elem_of_lookup_2. }
  assert (forall j, (0 <= j < Z.of_nat (length yvals))%Z -> arefZ yvals j ∈ yvals) as HinZ.
  { intros j Hj. unfold arefZ. destruct (Z.ltb_spec j 0); [lia|]. apply Hin. lia. }
  destruct (Nat.eqb_spec (length xvals) 1).
  { injection Hf as <-. intros [= <-]. apply Hin. lia. }
  destruct (MathArrays_checkOrder xvals); cbn [mbind result_bind] in Hf; try done.
  injection Hf as <-.
  destruct (Arrays_binarySearch xvals q) as [r| |] eqn:Hr; cbn [mbind result_bind]; try done.
  apply Arrays_binarySearch_range in Hr; [|done].
  destruct (Z.leb_spec 0 r); [intros [= <-]; apply HinZ; lia|].
  destruct (Z.eqb_spec (- r - 1) 0); [intros [= <-]; apply Hin; lia|].
  destruct (Z.leb_spec (Z.of_nat (length xvals)) (- r - 1)); [intros [= <-]; apply Hin; lia|].
  intros [= <-]. destruct (_ <? _)%num; apply HinZ; lia.
Qed.

Lemma nearest_neighbor_returns_a_sample_witness :
  exists f,
    createNearestNeighborInterpolator [0; 2; 4]%float [10; 20; 30]%float = Ok f
    /\ f 7%float = Ok 30%float
    /\ 30%float ∈ [10; 20; 30]%float.
Proof.
  assert (exists f,
            createNearestNeighborInterpolator [0; 2; 4]%float [10; 20; 30]%float = Ok f
            /\ f 7%float = Ok 30%float) as (f & Hf & Hv)
    by (eexists; split; [reflexivity|vm_compute; reflexivity]).
  exists f. split; [exact Hf|]. split; [exact Hv|].
  apply (nearest_neighbor_returns_a_sample float _ _ _ f 7%float 30%float Hf);
    [simpl; lia|simpl; lia|exact Hv].
Defined.

(* ------------------------------------------------------------------ *)
(** ** The three-point derivative and the Hermite conditions *)

Lemma differentiateThreePoint_value (xs ys : list Qc) (i0 i1 i2 i3 : nat) :
  i0 < length xs -> i1 < length xs -> i2 < length xs -> i3 < length xs ->
  length ys = length xs ->
  qref xs i2 <> qref xs i1 -> qref xs i3 <> qref xs i1 -> qref xs i3 <> qref xs i2 ->
  differentiateThreePoint (Fin <$> xs) (Fin <$> ys) i0 i1 i2 i3
  = Fin (threePoint xs ys i0 i1 i2 i3).
Proof.
  intros H0 H1 H2 H3 Hys H21 H31 H32. unfold differentiateThreePoint, threePoint. cbv zeta.
  rewrite !aref_Fin by lia. xnum_simpl.
  assert (qref xs i2 - qref xs i1 <> 0)%Qc as Ht1.
  { intros Hz. apply H21. rewrite <- (Qcplus_0_l (qref xs i1)), <- Hz. ring. }
  assert (qref xs i3 - qref xs i1 <> 0)%Qc as Ht2.
  { intros Hz. apply H31. rewrite <- (Qcplus_0_l (qref xs i1)), <- Hz. ring. }
  assert (qref xs i3 - qref xs i2 <> 0)%Qc as Ht3.
  { intros Hz. apply H32. rewrite <- (Qcplus_0_l (qref xs i2)), <- Hz. ring. }
  assert ((qref xs i3 - qref xs i1) * (qref xs i3 - qref xs i1)
          - (qref xs i2 - qref xs i1) * (qref xs i3 - qref xs i1) <> 0)%Qc as Hden.
  { replace ((qref xs i3 - qref xs i1) * (qref xs i3 - qref xs i1)
             - (qref xs i2 - qref xs i1) * (qref xs i3 - qref xs i1))%Qc
      with ((qref xs i3 - qref xs i1) * (qref xs i3 - qref xs i2))%Qc by ring.
    by apply Qc_mult_nonzero. }
  repeat (rewrite div_Fin by assumption; xnum_simpl). done.
Qed.

Lemma threePoint_exact (xs ys : list Qc) (i0 i1 i2 i3 : nat) (a2 a1 a0 : Qc) :
  qref xs i2 <> qref xs i1 -> qref xs i3 <> qref xs i1 -> qref xs i3 <> qref xs i2 ->
  qref ys i1 = (a2 * qref xs i1 * qref xs i1 + a1 * qref xs i1 + a0)%Qc ->
  qref ys i2 = (a2 * qref xs i2 * qref xs i2 + a1 * qref xs i2 + a0)%Qc ->
  qref ys i3 = (a2 * qref xs i3 * qref xs i3 + a1 * qref xs i3 + a0)%Qc ->
  threePoint xs ys i0 i1 i2 i3 = ((1 + 1) * a2 * qref xs i0 + a1)%Qc.
Proof.
  intros H21 H31 H32 Hq1 Hq2 Hq3. unfold threePoint. cbv zeta.
  rewrite Hq1, Hq2, Hq3.
  assert (qref xs i2 - qref xs i1 <> 0)%Qc as Ht1.
  { intros Hz. apply H21. rewrite <- (Qcplus_0_l (qref xs i1)), <- Hz. ring. }
  assert (qref xs i3 - qref xs i1 <> 0)%Qc as Ht2.
  { intros Hz. apply H31. rewrite <- (Qcplus_0_l (qref xs i1)), <- Hz. ring. }
  assert (qref xs i3 - qref xs i2 <> 0)%Qc as Ht3.
  { intros Hz. apply H32. rewrite <- (Qcplus_0_l (qref xs i2)), <- Hz. ring. }
  field. repeat split; try done.
  replace ((qref xs i3 - qref xs i1) * (qref xs i3 - qref xs i1)
             - (qref xs i2 - qref xs i1) * (qref xs i3 - qref xs i1))%Qc
      with ((qref xs i3 - qref xs i1) * (qref xs i3 - qref xs i2))%Qc by ring.
  by apply Qc_mult_nonzero.
Qed.

(** X9.  The three-point derivative is exact on parabolas: when the three
    sample abscissae are pairwise different and the three samples lie on
    [a2 x^2 + a1 x + a0], [differentiateThreePoint] on rationals returns
    the derivative [2 a2 x + a1] at the point of differentiation. *)
Theorem differentiateThreePoint_exact_on_quadratics (xs ys : list Qc) (i0 i1 i2 i3 : nat)
    (a2 a1 a0 : Qc) :
  i0 < length xs -> i1 < length xs -> i2 < length xs -> i3 < length xs ->
  length ys = length xs ->
  qref xs i2 <> qref xs i1 -> qref xs i3 <> qref xs i1 -> qref xs i3 <> qref xs i2 ->
  qref ys i1 = (a2 * qref xs i1 * qref xs i1 + a1 * qref xs i1 + a0)%Qc ->
  qref ys i2 = (a2 * qref xs i2 * qref xs i2 + a1 * qref xs i2 + a0)%Qc ->
  qref ys i3 = (a2 * qref xs i3 * qref xs i3 + a1 * qref xs i3 + a0)%Qc ->
  differentiateThreePoint (Fin <$> xs) (Fin <$> ys) i0 i1 i2 i3
  = Fin ((1 + 1) * a2 * qref xs i0 + a1)%Qc.
Proof.
  intros H0 H1 H2 H3 Hys H21 H31 H32 Hq1 Hq2 Hq3.
  rewrite differentiateThreePoint_value by done. f_equal. by eapply threePoint_exact.
Qed.

Lemma differentiateThreePoint_exact_on_quadratics_witness :
  differentiateThreePoint (Fin <$> [0; 1; Q2Qc 3]%Qc) (Fin <$> [1; Q2Qc 2; Q2Qc 10]%Qc) 2 0 1 2
  = Fin ((1 + 1) * 1 * Q2Qc 3 + 0)%Qc.
Proof.
  apply (differentiateThreePoint_exact_on_quadratics
           [0; 1; Q2Qc 3]%Qc [1; Q2Qc 2; Q2Qc 10]%Qc 2 0 1 2 1 0 1);
    try (simpl; lia); try done; by apply Qc_is_canon.
Defined.

Lemma hermite_slope_right_end (y yP fd fdP w : Qc) :
  w <> 0%Qc ->
  cubicSlope fd (hermite2 y yP fd fdP w) (hermite3 y yP fd fdP w) w = fdP.
Proof. intros Hw. unfold cubicSlope, hermite2, hermite3. field. done. Qed.

Lemma cubicSlope_left_end (b c d : Qc) : cubicSlope b c d 0%Qc = b.
Proof. unfold cubicSlope. ring. Qed.

(** X10.  The Hermite construction on rationals: over strictly increasing
    knots (2 to 2^31 of them) the evaluator is, on each interval
    [x[i] <= q < x[i+1]], a cubic in [q - x[i]] (the first and last cubic
    extend below and above the knots) with, at the left end, the value
    [y[i]] and the derivative [fd[i]] and, at the right end, the value
    [y[i+1]] and the derivative [fd[i+1]]: the spline and its first
    derivative are continuous at the knots. *)
Theorem interpolateHermiteSorted_conditions (xs ys fdq : list Qc) :
  2 <= length xs -> length ys = length xs -> length fdq = length xs ->
  strictly_increasing xs -> (Z.of_nat (length xs) <= 2 ^ 31)%Z ->
  exists f (c2 c3 : nat -> Qc),
    interpolateHermiteSorted (Fin <$> xs) (Fin <$> ys) (Fin <$> fdq) = Ok f
    /\ (forall q,
          let s := segmentOf xs q in
          f (Fin q)
          = Ok (Fin (cubicValue (qref ys s) (qref fdq s) (c2 s) (c3 s) (q - qref xs s)%Qc)))
    /\ (forall i q, i + 1 < length xs -> (qref xs i <= q)%Qc -> (q < qref xs (i + 1))%Qc ->
          segmentOf xs q = i)
    /\ (forall i, i + 1 < length xs ->
          let w := (qref xs (i + 1) - qref xs i)%Qc in
          cubicValue (qref ys i) (qref fdq i) (c2 i) (c3 i) 0 = qref ys i
          /\ cubicSlope (qref fdq i) (c2 i) (c3 i) 0 = qref fdq i
          /\ cubicValue (qref ys i) (qref fdq i) (c2 i) (c3 i) w = qref ys (i + 1)
          /\ cubicSlope (qref fdq i) (c2 i) (c3 i) w = qref fdq (i + 1)).
Proof.
  intros Hlen Hys Hfd Hinc Hbound.
  destruct (interpolateHermiteSorted_eval xs ys fdq Hlen Hys Hfd Hinc Hbound)
    as (f & Hf & Heval).
  exists f,
    (fun i => hermite2 (qref ys i) (qref ys (i + 1)) (qref fdq i) (qref fdq (i + 1))
                (qref xs (i + 1) - qref xs i)%Qc),
    (fun i => hermite3 (qref ys i) (qref ys (i + 1)) (qref fdq i) (qref fdq (i + 1))
                (qref xs (i + 1) - qref xs i)%Qc).
  split; [done|]. split; [exact Heval|]. split.
  { intros i q Hi Hlo Hhi. by apply segmentOf_interval. }
  intros i Hi. cbv zeta. pose proof (step_nonzero xs i Hinc Hi) as Hw.
  split; [apply cubicValue_left_end|]. split; [apply cubicSlope_left_end|].
  split; [by apply hermite_right_end|by apply hermite_slope_right_end].
Qed.

Lemma interpolateHermiteSorted_conditions_witness :
  exists f,
    interpolateHermiteSorted (Fin <$> [0; 1; Q2Qc 3]%Qc) (Fin <$> [0; 1; 0]%Qc)
      (Fin <$> [1; 0; 1]%Qc) = Ok f.
Proof.
  destruct (interpolateHermiteSorted_conditions [0; 1; Q2Qc 3]%Qc [0; 1; 0]%Qc [1; 0; 1]%Qc)
    as (f & _ & _ & Hf & _); [simpl; lia|done|done|repeat split|simpl; lia|].
  by exists f.
Defined.

(** X23.  The Hermite construction is exact on cubics: when the rational
    values and derivatives handed to [interpolateHermiteSorted] are those
    of one cubic polynomial at the knots, the evaluator returns the value
    of that polynomial at every rational query. *)
Theorem interpolateHermiteSorted_exact_on_cubics (xs ys fdq : list Qc)
    (a3 a2 a1 a0 : Qc) :
  2 <= length xs -> length ys = length xs -> length fdq = length xs ->
  strictly_increasing xs -> (Z.of_nat (length xs) <= 2 ^ 31)%Z ->
  (forall i, i < length xs ->
     qref ys i = (((a3 * qref xs i + a2) * qref xs i + a1) * qref xs i + a0)%Qc) ->
  (forall i, i < length xs ->
     qref fdq i
     = (((1 + 1 + 1) * a3 * qref xs i + (1 + 1) * a2) * qref xs i + a1)%Qc) ->
  exists f,
    interpolateHermiteSorted (Fin <$> xs) (Fin <$> ys) (Fin <$> fdq) = Ok f
    /\ forall q, f (Fin q) = Ok (Fin (((a3 * q + a2) * q + a1) * q + a0)%Qc).
Proof.
  intros Hlen Hys Hfd Hinc Hbound Hy Hd.
  destruct (interpolateHermiteSorted_eval xs ys fdq Hlen Hys Hfd Hinc Hbound)
    as (f & Hf & Heval).
  exists f. split; [done|]. intros q. rewrite Heval. cbv zeta.
  pose proof (segmentOf_lt xs q Hlen) as Hs. set (s := segmentOf xs q) in *.
  rewrite !Hy, !Hd by lia. do 2 f_equal.
  pose proof (step_nonzero xs s Hinc ltac:(lia)) as Hw.
  unfold cubicValue, hermite2, hermite3. field. done.
Qed.

Lemma interpolateHermiteSorted_exact_on_cubics_witness :
  exists f,
    interpolateHermiteSorted (Fin <$> [0; 1; Q2Qc 3]%Qc) (Fin <$> [0; 1; Q2Qc 27]%Qc)
      (Fin <$> [0; Q2Qc 3; Q2Qc 27]%Qc) = Ok f
    /\ f (Fin (Q2Qc 2)) = Ok (Fin (Q2Qc 8)).
Proof.
  destruct (interpolateHermiteSorted_exact_on_cubics
              [0; 1; Q2Qc 3]%Qc [0; 1; Q2Qc 27]%Qc [0; Q2Qc 3; Q2Qc 27]%Qc 1 0 0 0)
    as (f & Hf & Hval); [simpl; lia|done|done|repeat split|simpl; lia| | |].
  { intros [|[|[|i]]] Hi; simpl in Hi; try lia; by apply Qc_is_canon. }
  { intros [|[|[|i]]] Hi; simpl in Hi; try lia; by apply Qc_is_canon. }
  exists f. split; [done|]. rewrite Hval. do 2 f_equal; by apply Qc_is_canon.
Defined.

(* ------------------------------------------------------------------ *)
(** ** The natural spline is twice continuously differentiable *)

Lemma cubicForward_recurrence (xs ys : list Qc) :
  strictly_increasing xs -> length ys = length xs -> 2 <= length xs ->
  exists muq zq,
    cubicForward (Fin <$> xs) (Fin <$> ys) (Fin <$> widths xs) (length xs - 1)
      = (Fin <$> muq, Fin <$> zq)
    /\ length muq = length xs - 1 /\ length zq = length xs
    /\ qref muq 0 = 0%Qc /\ qref zq 0 = 0%Qc
    /\ forall i, 1 <= i -> i + 1 < length xs -> forwardStep xs ys muq zq i.
Proof.
  intros Hinc Hys Hlen. unfold cubicForward. set (n := length xs - 1).
  cut (exists muq zq,
    for_up 1 n
      (fun i '(mu, z) =>
         let g := (two * (aref (Fin <$> xs) (i + 1) - aref (Fin <$> xs) (i - 1))
                   - aref (Fin <$> widths xs) (i - 1) * aref mu (i - 1))%num in
         let mu := <[i := (aref (Fin <$> widths xs) i / g)%num]> mu in
         let z := <[i := ((three * (aref (Fin <$> ys) (i + 1) * aref (Fin <$> widths xs) (i - 1)
                                    - aref (Fin <$> ys) i
                                      * (aref (Fin <$> xs) (i + 1) - aref (Fin <$> xs) (i - 1))
                                    + aref (Fin <$> ys) (i - 1) * aref (Fin <$> widths xs) i)
                           / (aref (Fin <$> widths xs) (i - 1) * aref (Fin <$> widths xs) i)
                           - aref (Fin <$> widths xs) (i - 1) * aref z (i - 1)) / g)%num]> z in
         (mu, z))
      (<[0 := zero]> (Float64Array n), <[0 := zero]> (Float64Array (n + 1)))
    = (Fin <$> muq, Fin <$> zq)
    /\ length muq = n /\ length zq = n + 1
    /\ (forall k, k < n -> (0 <= qref muq k)%Qc /\ (qref muq k <= 1)%Qc)
    /\ qref muq 0 = 0%Qc /\ qref zq 0 = 0%Qc
    /\ forall k, 1 <= k -> k < n -> forwardStep xs ys muq zq k).
  { intros (muq & zq & Heq & Hmu & Hz & _ & Hmu0 & Hz0 & Hstep). exists muq, zq.
    split; [exact Heq|]. split; [done|]. split; [unfold n in *; lia|].
    split; [done|]. split; [done|]. intros i Hi1 Hi2. apply Hstep; unfold n; lia. }
  apply (for_up_ind (fun i (s : list xnum * list xnum) =>
    exists muq zq, s = (Fin <$> muq, Fin <$> zq)
      /\ length muq = n /\ length zq = n + 1
      /\ (forall k, k < i -> (0 <= qref muq k)%Qc /\ (qref muq k <= 1)%Qc)
      /\ qref muq 0 = 0%Qc /\ qref zq 0 = 0%Qc
      /\ forall k, 1 <= k -> k < i -> forwardStep xs ys muq zq k)).
  - unfold n. lia.
  - exists (<[0 := 0%Qc]> (replicate n 0%Qc)), (<[0 := 0%Qc]> (replicate (n + 1) 0%Qc)).
    rewrite !Float64Array_Fin, zero_Fin, !insert_Fin, !length_insert, !length_replicate.
    assert (qref (<[0 := 0%Qc]> (replicate n 0%Qc)) 0 = 0%Qc) as Hmu0.
    { rewrite qref_insert_eq; [done|]. rewrite length_replicate. unfold n. lia. }
    assert (qref (<[0 := 0%Qc]> (replicate (n + 1) 0%Qc)) 0 = 0%Qc) as Hz0.
    { rewrite qref_insert_eq; [done|]. rewrite length_replicate. lia. }
    split; [done|]. split; [done|]. split; [done|]. split.
    { intros k Hk. assert (k = 0) as -> by lia. by rewrite Hmu0. }
    split; [done|]. split; [done|]. intros k Hk1 Hk2. lia.
  - intros i [mu z] Hi (muq & zq & [= -> ->] & Hmu & Hz & Hbound & Hmu0 & Hz0 & Hsteps).
    destruct (Hbound (i - 1) ltac:(lia)) as [Hm0 Hm1].
    pose proof (strictly_increasing_qref xs (i - 1) i Hinc ltac:(lia) ltac:(unfold n in *; lia)) as Hx1.
    pose proof (strictly_increasing_qref xs i (i + 1) Hinc ltac:(lia) ltac:(unfold n in *; lia)) as Hx2.
    pose proof (pivot_bound _ _ _ _ Hx1 Hx2 Hm0 Hm1) as Hg.
    pose proof (step_positive xs i Hinc ltac:(unfold n in *; lia)) as Hhi.
    pose proof (step_positive xs (i - 1) Hinc ltac:(unfold n in *; lia)) as Hhm.
    replace (i - 1 + 1) with i in Hhm by lia.
    set (g := ((1 + 1) * (qref xs (i + 1) - qref xs (i - 1))
               - (qref xs i - qref xs (i - 1)) * qref muq (i - 1))%Qc) in *.
    assert (0 < g)%Qc as Hgpos by (eapply Qclt_trans; [exact Hhi|exact Hg]).
    cbv zeta. rewrite !aref_Fin by (rewrite ?widths_length; unfold n in *; lia).
    rewrite !widths_qref by (unfold n in *; lia).
    replace (i - 1 + 1) with i by lia. xnum_simpl. fold g.
    repeat (rewrite div_Fin by
              (try apply Qc_mult_nonzero; apply Qc_pos_nonzero; assumption);
            xnum_simpl).
    rewrite !insert_Fin.
    eexists _, _. split; [reflexivity|]. rewrite !length_insert.
    split; [done|]. split; [done|]. split.
    { intros k Hk. destruct (decide (k = i)) as [->|Hne].
      + rewrite qref_insert_eq by lia. by apply ratio_bound.
      + rewrite qref_insert_ne by done. apply Hbound. lia. }
    split; [by rewrite qref_insert_ne by lia|].
    split; [by rewrite qref_insert_ne by lia|].
    intros k Hk1 Hk2. unfold forwardStep, sweepPivot.
    rewrite (qref_insert_ne _ i (k - 1)) by lia.
    rewrite (qref_insert_ne _ i (k - 1)) by lia.
    destruct (decide (k = i)) as [->|Hne].
    + rewrite !qref_insert_eq by lia. fold g.
      split; [by apply Qc_pos_nonzero|]. split; [done|]. unfold sweepRhs. done.
    + rewrite !(qref_insert_ne _ i k) by done. apply Hsteps; lia.
Qed.

Lemma cubicBackward_recurrence (xs ys muq zq : list Qc) :
  strictly_increasing xs -> length ys = length xs -> 2 <= length xs ->
  length muq = length xs - 1 -> length zq = length xs ->
  exists bq cq dq,
    cubicBackward (Fin <$> ys) (Fin <$> widths xs) (Fin <$> muq) (Fin <$> zq) (length xs - 1)
      = (Fin <$> bq, Fin <$> cq, Fin <$> dq)
    /\ cubic_relations xs ys bq cq dq
    /\ qref cq (length xs - 1) = 0%Qc
    /\ forall j, j + 1 < length xs ->
         qref cq j = (qref zq j - qref muq j * qref cq (j + 1))%Qc.
Proof.
  intros Hinc Hys Hlen Hmu Hz. unfold cubicBackward, cubic_relations. set (n := length xs - 1).
  cut (exists bq cq dq,
    for_down 0 n
      (fun j '(b, c, d) =>
         let c := <[j := (aref (Fin <$> zq) j - aref (Fin <$> muq) j * aref c (j + 1))%num]> c in
         let b := <[j := ((aref (Fin <$> ys) (j + 1) - aref (Fin <$> ys) j)
                          / aref (Fin <$> widths xs) j
                          - aref (Fin <$> widths xs) j * (aref c (j + 1) + two * aref c j)
                            / three)%num]> b in
         let d := <[j := ((aref c (j + 1) - aref c j)
                          / (three * aref (Fin <$> widths xs) j))%num]> d in
         (b, c, d))
      (Float64Array n, <[n := zero]> (Float64Array (n + 1)), Float64Array n)
    = (Fin <$> bq, Fin <$> cq, Fin <$> dq)
    /\ length bq = n /\ length cq = n + 1 /\ length dq = n
    /\ qref cq n = 0%Qc
    /\ forall j, 0 <= j < n ->
       qref bq j
       = ((qref ys (j + 1) - qref ys j) / (qref xs (j + 1) - qref xs j)
          - (qref xs (j + 1) - qref xs j) * (qref cq (j + 1) + (1 + 1) * qref cq j)
            / (1 + 1 + 1))%Qc
       /\ qref dq j
          = ((qref cq (j + 1) - qref cq j) / ((1 + 1 + 1) * (qref xs (j + 1) - qref xs j)))%Qc
       /\ qref cq j = (qref zq j - qref muq j * qref cq (j + 1))%Qc).
  { intros (bq & cq & dq & Heq & Hb & Hc & Hd & Hcn & Hrel). exists bq, cq, dq.
    split; [exact Heq|]. unfold n in *.
    split; [repeat split; try lia; apply Hrel; lia|]. split; [done|].
    intros j Hj. apply Hrel. lia. }
  apply (for_down_ind (fun i (s : list xnum * list xnum * list xnum) =>
    exists bq cq dq, s = (Fin <$> bq, Fin <$> cq, Fin <$> dq)
      /\ length bq = n /\ length cq = n + 1 /\ length dq = n
      /\ qref cq n = 0%Qc
      /\ forall j, i <= j < n ->
         qref bq j
         = ((qref ys (j + 1) - qref ys j) / (qref xs (j + 1) - qref xs j)
            - (qref xs (j + 1) - qref xs j) * (qref cq (j + 1) + (1 + 1) * qref cq j)
              / (1 + 1 + 1))%Qc
         /\ qref dq j
            = ((qref cq (j + 1) - qref cq j) / ((1 + 1 + 1) * (qref xs (j + 1) - qref xs j)))%Qc
         /\ qref cq j = (qref zq j - qref muq j * qref cq (j + 1))%Qc)).
  - lia.
  - exists (replicate n 0%Qc), (<[n := 0%Qc]> (replicate (n + 1) 0%Qc)), (replicate n 0%Qc).
    rewrite !Float64Array_Fin, zero_Fin, !insert_Fin, !length_insert, !length_replicate.
    split; [done|]. split; [done|]. split; [done|]. split; [done|]. split.
    + rewrite qref_insert_eq; [done|]. rewrite length_replicate. lia.
    + intros; lia.
  - intros i [[b c] d] Hi (bq & cq & dq & [= -> -> ->] & Hb & Hc & Hd & Hcn & Hrel).
    pose proof (step_positive xs i Hinc ltac:(unfold n in *; lia)) as Hh.
    cbv zeta. rewrite !aref_Fin by (rewrite ?widths_length; unfold n in *; lia).
    xnum_simpl. rewrite insert_Fin.
    rewrite !aref_Fin by (rewrite ?length_insert; lia).
    rewrite !widths_qref by (unfold n in *; lia).
    repeat (rewrite div_Fin by
              (try apply Qc_mult_nonzero; try apply Qc_three_nonzero;
               apply Qc_pos_nonzero; assumption);
            xnum_simpl).
    rewrite !insert_Fin.
    eexists _, _, _. split; [reflexivity|]. rewrite !length_insert.
    split; [done|]. split; [done|]. split; [done|].
    split; [by rewrite qref_insert_ne by lia|].
    intros j Hj. destruct (decide (j = i)) as [->|Hne].
    + rewrite !qref_insert_eq by lia. rewrite (qref_insert_ne _ i (i + 1)) by lia. done.
    + rewrite !(qref_insert_ne _ i j) by done.
      rewrite (qref_insert_ne _ i (j + 1)) by lia. apply Hrel. lia.
Qed.

(** The solver on rationals, with what its sweeps computed. *)
Lemma computeCubicPolyCoefficients_sweeps (xs ys : list Qc) :
  strictly_increasing xs -> length ys = length xs -> 3 <= length xs ->
  exists muq zq bq cq dq,
    computeCubicPolyCoefficients (Fin <$> xs) (Fin <$> ys)
      = Ok (Fin <$> bq, Fin <$> cq, Fin <$> dq)
    /\ cubic_relations xs ys bq cq dq
    /\ cubic_sweeps xs ys muq zq cq.
Proof.
  intros Hinc Hys Hlen. unfold computeCubicPolyCoefficients.
  rewrite !length_fmap, Hys, Nat.eqb_refl. simpl negb. cbv iota.
  destruct (Nat.ltb_spec (length xs) 3) as [|_]; [lia|].
  rewrite (checkOrder_increasing xs Hinc). cbn [mbind result_bind]. cbv zeta.
  rewrite widths_loop.
  destruct (cubicForward_recurrence xs ys Hinc Hys ltac:(lia))
    as (muq & zq & -> & Hmu & Hz & Hmu0 & Hz0 & Hfwd).
  rewrite zero_Fin, insert_Fin.
  destruct (cubicBackward_recurrence xs ys muq (<[length xs - 1 := 0%Qc]> zq) Hinc Hys
              ltac:(lia) Hmu ltac:(by rewrite length_insert))
    as (bq & cq & dq & -> & Hrel & Hcn & Hback).
  exists muq, zq, bq, cq, dq. split; [done|]. split; [done|].
  split; [done|]. split; [done|]. split; [done|]. split; [done|].
  intros j Hj. rewrite (Hback j Hj). by rewrite qref_insert_ne by lia.
Qed.

Lemma fmap_Fin_inj (l : list Qc) : forall l', Fin <$> l = Fin <$> l' -> l = l'.
Proof.
  induction l as [|v l IH]; intros [|v' l'] Heq; try done.
  rewrite !fmap_cons in Heq. inversion Heq; subst. f_equal. by apply IH.
Qed.

(** One row of the system that the two sweeps solve. *)
Lemma tridiagonal_row (hm h mum zm mu z cm c cp rhs g : Qc) :
  g <> 0%Qc -> g = ((1 + 1) * (hm + h) - hm * mum)%Qc ->
  mu = (h / g)%Qc -> z = ((rhs - hm * zm) / g)%Qc ->
  cm = (zm - mum * c)%Qc -> c = (z - mu * cp)%Qc ->
  (hm * cm + (1 + 1) * (hm + h) * c + h * cp)%Qc = rhs.
Proof.
  intros Hg Hgdef -> -> -> Hc.
  assert (g * c = rhs - hm * zm - h * cp)%Qc as Hgc by (rewrite Hc; field; done).
  replace (hm * (zm - mum * c) + (1 + 1) * (hm + h) * c + h * cp)%Qc
    with (hm * zm + g * c + h * cp)%Qc by (rewrite Hgdef; ring).
  rewrite Hgc. ring.
Qed.

Lemma slope_continuity (D0 D1 h0 h1 c0 c1 c2 b0 b1 d0 : Qc) :
  h0 <> 0%Qc ->
  b0 = (D0 - h0 * (c1 + (1 + 1) * c0) / (1 + 1 + 1))%Qc ->
  b1 = (D1 - h1 * (c2 + (1 + 1) * c1) / (1 + 1 + 1))%Qc ->
  d0 = ((c1 - c0) / ((1 + 1 + 1) * h0))%Qc ->
  (h0 * c0 + (1 + 1) * (h0 + h1) * c1 + h1 * c2)%Qc = ((1 + 1 + 1) * (D1 - D0))%Qc ->
  cubicSlope b0 c0 d0 h0 = b1.
Proof.
  intros Hh -> -> -> Htri.
  assert (D1 = D0 + (h0 * c0 + (1 + 1) * (h0 + h1) * c1 + h1 * c2) / (1 + 1 + 1))%Qc as ->
    by (rewrite Htri; field; discriminate).
  unfold cubicSlope. field. split; [discriminate|done].
Qed.

Lemma bend_continuity (h0 c0 c1 d0 d1 : Qc) :
  h0 <> 0%Qc -> d0 = ((c1 - c0) / ((1 + 1 + 1) * h0))%Qc ->
  cubicBend c0 d0 h0 = cubicBend c1 d1 0.
Proof. intros Hh ->. unfold cubicBend. field. repeat split; first [done|discriminate]. Qed.

Lemma sweepRhs_slopes (xs ys : list Qc) (i : nat) :
  (qref xs i - qref xs (i - 1))%Qc <> 0%Qc -> (qref xs (i + 1) - qref xs i)%Qc <> 0%Qc ->
  sweepRhs xs ys i
  = ((1 + 1 + 1) * ((qref ys (i + 1) - qref ys i) / (qref xs (i + 1) - qref xs i)
                    - (qref ys i - qref ys (i - 1)) / (qref xs i - qref xs (i - 1))))%Qc.
Proof. intros Hm Hp. unfold sweepRhs. field. done. Qed.

(** The coefficients of the solver satisfy the system of the natural
    spline: one row per interior knot. *)
Lemma cubic_system_row (xs ys muq zq cq : list Qc) (i : nat) :
  strictly_increasing xs -> cubic_sweeps xs ys muq zq cq ->
  1 <= i -> i + 1 < length xs ->
  ((qref xs i - qref xs (i - 1)) * qref cq (i - 1)
   + (1 + 1) * ((qref xs i - qref xs (i - 1)) + (qref xs (i + 1) - qref xs i)) * qref cq i
   + (qref xs (i + 1) - qref xs i) * qref cq (i + 1))%Qc
  = sweepRhs xs ys i.
Proof.
  intros Hinc (Hmu0 & Hz0 & Hcn & Hfwd & Hback) Hi1 Hi2.
  destruct (Hfwd i Hi1 Hi2) as (Hg & Hmu & Hz).
  pose proof (Hback (i - 1) ltac:(lia)) as Hcm. replace (i - 1 + 1) with i in Hcm by lia.
  pose proof (Hback i Hi2) as Hc.
  eapply (tridiagonal_row _ _ (qref muq (i - 1)) (qref zq (i - 1)) (qref muq i) (qref zq i));
    [exact Hg| |exact Hmu|exact Hz|exact Hcm|exact Hc].
  unfold sweepPivot. ring.
Qed.

(** X11.  The natural cubic spline on rationals (3 to 2^31 strictly
    increasing knots): the evaluator is the cubic of the query's segment,
    with the coefficients of [computeCubicPolyCoefficients]; each cubic
    reaches the next sample at the end of its interval; at every interior
    knot the first and the second derivative of the cubic on its left
    equal those of the cubic on its right; and the second derivative is 0
    at the first and at the last knot. *)
Theorem natural_cubic_spline_smooth (xs ys : list Qc) :
  3 <= length xs -> length ys = length xs ->
  strictly_increasing xs -> (Z.of_nat (length xs) <= 2 ^ 31)%Z ->
  exists f bq cq dq,
    createCubicSplineInterpolator (Fin <$> xs) (Fin <$> ys) = Ok f
    /\ computeCubicPolyCoefficients (Fin <$> xs) (Fin <$> ys)
       = Ok (Fin <$> bq, Fin <$> cq, Fin <$> dq)
    /\ (forall q,
          let s := segmentOf xs q in
          f (Fin q)
          = Ok (Fin (cubicValue (qref ys s) (qref bq s) (qref cq s) (qref dq s)
                       (q - qref xs s)%Qc)))
    /\ (forall i, i + 1 < length xs ->
          cubicValue (qref ys i) (qref bq i) (qref cq i) (qref dq i)
            (qref xs (i + 1) - qref xs i)%Qc = qref ys (i + 1))
    /\ (forall i, i + 2 < length xs ->
          cubicSlope (qref bq i) (qref cq i) (qref dq i) (qref xs (i + 1) - qref xs i)%Qc
          = cubicSlope (qref bq (i + 1)) (qref cq (i + 1)) (qref dq (i + 1)) 0
          /\ cubicBend (qref cq i) (qref dq i) (qref xs (i + 1) - qref xs i)%Qc
             = cubicBend (qref cq (i + 1)) (qref dq (i + 1)) 0)
    /\ cubicBend (qref cq 0) (qref dq 0) 0 = 0%Qc
    /\ cubicBend (qref cq (length xs - 2)) (qref dq (length xs - 2))
         (qref xs (length xs - 1) - qref xs (length xs - 2))%Qc = 0%Qc.
Proof.
  intros Hlen Hys Hinc Hbound.
  destruct (createCubicSplineInterpolator_eval xs ys Hlen Hys Hinc Hbound)
    as (f & bq & cq & dq & Hf & Hsolve & Hrel & Heval).
  destruct (computeCubicPolyCoefficients_sweeps xs ys Hinc Hys Hlen)
    as (muq & zq & bq' & cq' & dq' & Hsolve' & _ & Hsweeps).
  rewrite Hsolve in Hsolve'. injection Hsolve' as _ Hc _.
  apply fmap_Fin_inj in Hc as <-.
  exists f, bq, cq, dq. split; [done|]. split; [done|]. split; [exact Heval|].
  destruct Hrel as (Hb & Hclen & Hd & Hrel).
  pose proof Hsweeps as (Hmu0 & Hz0 & Hcn & Hfwd & Hback).
  assert (qref cq 0 = 0%Qc) as Hc0.
  { rewrite (Hback 0) by lia. rewrite Hmu0, Hz0. ring. }
  split; [|split; [|split]].
  - intros i Hi. destruct (Hrel i Hi) as [Hbi Hdi].
    eapply cubicValue_right_end; [|exact Hbi|exact Hdi]. by apply step_nonzero.
  - intros i Hi.
    destruct (Hrel i ltac:(lia)) as [Hbi Hdi].
    destruct (Hrel (i + 1) ltac:(lia)) as [Hbi1 _].
    pose proof (step_nonzero xs i Hinc ltac:(lia)) as Hh0.
    pose proof (step_nonzero xs (i + 1) Hinc ltac:(lia)) as Hh1.
    split; [|by apply bend_continuity].
    rewrite cubicSlope_left_end.
    eapply slope_continuity; [exact Hh0|exact Hbi|exact Hbi1|exact Hdi|].
    pose proof (cubic_system_row xs ys muq zq cq (i + 1) Hinc Hsweeps ltac:(lia) ltac:(lia))
      as Hrow.
    replace (i + 1 - 1) with i in Hrow by lia.
    rewrite Hrow, sweepRhs_slopes; replace (i + 1 - 1) with i by lia; done.
  - unfold cubicBend. rewrite Hc0. ring.
  - destruct (Hrel (length xs - 2) ltac:(lia)) as [_ Hdn].
    replace (length xs - 2 + 1) with (length xs - 1) in Hdn by lia.
    pose proof (step_nonzero xs (length xs - 2) Hinc ltac:(lia)) as Hh.
    replace (length xs - 2 + 1) with (length xs - 1) in Hh by lia.
    rewrite (bend_continuity _ _ (qref cq (length xs - 1)) _ 0%Qc Hh Hdn).
    unfold cubicBend. rewrite Hcn. ring.
Qed.

Lemma natural_cubic_spline_smooth_witness :
  exists f,
    createCubicSplineInterpolator (Fin <$> [0; 1; Q2Qc 3]%Qc) (Fin <$> [0; 1; 0]%Qc) = Ok f.
Proof.
  destruct (natural_cubic_spline_smooth [0; 1; Q2Qc 3]%Qc [0; 1; 0]%Qc)
    as (f & _ & _ & _ & Hf & _); [simpl; lia|done|repeat split|simpl; lia|].
  by exists f.
Defined.

Section Lines.
Variables (xs ys : list Qc) (m k : Qc).
Hypothesis Hinc : strictly_increasing xs.
Hypothesis Hline : forall i, i < length xs -> qref ys i = (m * qref xs i + k)%Qc.

Lemma line_sweepRhs (i : nat) : 1 <= i -> i + 1 < length xs -> sweepRhs xs ys i = 0%Qc.
Proof using Hinc Hline.
  intros Hi1 Hi2. unfold sweepRhs.
  rewrite !Hline by lia.
  pose proof (step_nonzero xs i Hinc Hi2) as Hp.
  pose proof (step_nonzero xs (i - 1) Hinc ltac:(lia)) as Hm.
  replace (i - 1 + 1) with i in Hm by lia.
  field. done.
Qed.

Lemma line_slope (i : nat) :
  i + 1 < length xs ->
  ((qref ys (i + 1) - qref ys i) / (qref xs (i + 1) - qref xs i))%Qc = m.
Proof using Hinc Hline.
  intros Hi. rewrite !Hline by lia.
  pose proof (step_nonzero xs i Hinc Hi) as Hp. field. done.
Qed.

Lemma line_sweeps (muq zq cq : list Qc) :
  cubic_sweeps xs ys muq zq cq -> forall j, j < length xs -> qref cq j = 0%Qc.
Proof using Hinc Hline.
  intros (Hmu0 & Hz0 & Hcn & Hfwd & Hback).
  assert (forall i, i + 1 < length xs -> qref zq i = 0%Qc) as Hz.
  { induction i as [|i IH]; intros Hi; [done|].
    destruct (Hfwd (S i) ltac:(lia) Hi) as (Hg & _ & ->).
    rewrite line_sweepRhs by lia. replace (S i - 1) with i by lia.
    rewrite IH by lia. field. done. }
  assert (forall d j, j + d = length xs - 1 -> qref cq j = 0%Qc) as Hc.
  { induction d as [|d IH]; intros j Hj.
    - replace j with (length xs - 1) by lia. done.
    - rewrite Hback by lia. rewrite Hz, (IH (j + 1)) by lia. ring. }
  intros j Hj. apply (Hc (length xs - 1 - j)). lia.
Qed.

End Lines.

(** X12.  The natural cubic spline reproduces straight lines: when the
    rational samples lie on [y = m x + k], the evaluator returns
    [m q + k] at every rational query, below and above the knots as
    well. *)
Theorem natural_cubic_spline_reproduces_lines (xs ys : list Qc) (m k : Qc) :
  3 <= length xs -> length ys = length xs ->
  strictly_increasing xs -> (Z.of_nat (length xs) <= 2 ^ 31)%Z ->
  (forall i, i < length xs -> qref ys i = (m * qref xs i + k)%Qc) ->
  exists f,
    createCubicSplineInterpolator (Fin <$> xs) (Fin <$> ys) = Ok f
    /\ forall q, f (Fin q) = Ok (Fin (m * q + k)%Qc).
Proof.
  intros Hlen Hys Hinc Hbound Hline.
  destruct (createCubicSplineInterpolator_eval xs ys Hlen Hys Hinc Hbound)
    as (f & bq & cq & dq & Hf & Hsolve & Hrel & Heval).
  destruct (computeCubicPolyCoefficients_sweeps xs ys Hinc Hys Hlen)
    as (muq & zq & bq' & cq' & dq' & Hsolve' & _ & Hsweeps).
  rewrite Hsolve in Hsolve'. injection Hsolve' as _ Hc _.
  apply fmap_Fin_inj in Hc as <-.
  exists f. split; [done|]. intros q. rewrite Heval. cbv zeta.
  pose proof (segmentOf_lt xs q ltac:(lia)) as Hs. set (s := segmentOf xs q) in *.
  destruct Hrel as (_ & _ & _ & Hrel). destruct (Hrel s ltac:(lia)) as [-> ->].
  rewrite (line_slope xs ys m k Hinc Hline s) by lia.
  rewrite !(line_sweeps xs ys m k Hinc Hline muq zq cq Hsweeps) by lia.
  rewrite Hline by lia. do 2 f_equal. unfold cubicValue.
  pose proof (step_nonzero xs s Hinc ltac:(lia)) as Hh.
  field. repeat split; first [done|discriminate].
Qed.

Lemma natural_cubic_spline_reproduces_lines_witness :
  exists f,
    createCubicSplineInterpolator (Fin <$> [0; 1; Q2Qc 3]%Qc) (Fin <$> [1; Q2Qc 3; Q2Qc 7]%Qc)
      = Ok f
    /\ f (Fin (Q2Qc 5)) = Ok (Fin (Q2Qc 11)).
Proof.
  destruct (natural_cubic_spline_reproduces_lines
              [0; 1; Q2Qc 3]%Qc [1; Q2Qc 3; Q2Qc 7]%Qc (Q2Qc 2) 1)
    as (f & Hf & Hval); [simpl; lia|done|repeat split|simpl; lia| |].
  { intros [|[|[|i]]] Hi; simpl in Hi; try lia; by apply Qc_is_canon. }
  exists f. split; [done|]. rewrite Hval. do 2 f_equal; by apply Qc_is_canon.
Defined.

(* ------------------------------------------------------------------ *)
(** ** Akima's derivatives *)

Section Loops.
Context {T : Type} `{Number T}.

Lemma for_up_ext {S : Type} (lo hi : nat) (body body' : nat -> S -> S) (s : S) :
  (forall i s, lo <= i < hi -> body i s = body' i s) ->
  for_up lo hi body s = for_up lo hi body' s.
Proof.
  intros Hext. unfold for_up.
  assert (forall i, i ∈ seq lo (hi - lo) -> lo <= i < hi) as Hin.
  { intros i Hi%elem_of_seq. lia. }
  revert s Hin. generalize (seq lo (hi - lo)) as l.
  induction l as [|i l IH]; intros s Hin; [done|]. simpl.
  rewrite Hext by (apply Hin; left). apply IH. intros k Hk. apply Hin. by right.
Qed.

(** A loop that stores [f i] at every index of its range, over a fresh
    array: the array of the [f i], zero outside the range. *)
Lemma for_up_fill_fresh (f : nat -> T) (lo hi n : nat) :
  lo <= hi -> hi <= n ->
  for_up lo hi (fun i a => <[i := f i]> a) (Float64Array n)
  = (fun k => if (lo <=? k)%nat && (k <? hi)%nat then f k else zero) <$> seq 0 n.
Proof.
  intros Hlo Hhi.
  destruct (for_up_fill f lo hi (Float64Array n) Hlo) as (Hlen & Hin & Hout).
  cbv zeta in Hlen, Hin, Hout. set (a := for_up _ _ _ _) in *.
  unfold Float64Array in Hlen, Hin, Hout. rewrite length_replicate in Hlen, Hin.
  apply list_eq. intros k. rewrite list_lookup_fmap.
  destruct (decide (k < n)) as [Hk|Hk].
  - rewrite lookup_seq_lt by done. simpl.
    destruct (Nat.leb_spec lo k), (Nat.ltb_spec k hi); simpl.
    + apply Hin; lia.
    + rewrite Hout by lia. by apply lookup_replicate_2.
    + rewrite Hout by lia. by apply lookup_replicate_2.
    + rewrite Hout by lia. by apply lookup_replicate_2.
  - rewrite !lookup_ge_None_2; [done|rewrite length_seq; lia|lia].
Qed.

End Loops.

Lemma slopes_length xs ys : length (slopes xs ys) = length xs - 1.
Proof. unfold slopes. by rewrite length_fmap, length_seq. Qed.

Lemma slopes_qref xs ys i : i + 1 < length xs -> qref (slopes xs ys) i = slope xs ys i.
Proof.
  intros Hi. unfold qref at 1, slopes. by rewrite list_lookup_fmap, lookup_seq_lt by lia.
Qed.

Lemma akimaDifferences_slopes (xs ys : list Qc) :
  strictly_increasing xs -> length ys = length xs ->
  akimaDifferences (Fin <$> xs) (Fin <$> ys) (length xs - 1) = Fin <$> slopes xs ys.
Proof.
  intros Hinc Hys. unfold akimaDifferences.
  rewrite (for_up_fill_fresh
    (fun i => ((aref (Fin <$> ys) (i + 1) - aref (Fin <$> ys) i)
               / (aref (Fin <$> xs) (i + 1) - aref (Fin <$> xs) i))%num)) by lia.
  unfold slopes. rewrite <- list_fmap_compose. apply list_fmap_ext.
  intros k i Hk. apply lookup_seq in Hk as [Heq Hk]. simpl in Heq. subst k. simpl.
  destruct (Nat.ltb_spec i (length xs - 1)); [|lia]. simpl.
  rewrite !aref_Fin by lia. xnum_simpl.
  rewrite div_Fin by (apply step_nonzero; [done|lia]). done.
Qed.

Lemma akimaWeights_slopes (xs ys : list Qc) :
  2 <= length xs ->
  akimaWeights (Fin <$> slopes xs ys) (length xs - 1)
  = Fin <$> ((fun i => if (1 <=? i)%nat then akimaWeight xs ys i else 0%Qc)
               <$> seq 0 (length xs - 1)).
Proof.
  intros Hlen. unfold akimaWeights.
  rewrite (for_up_fill_fresh
    (fun i => abs (aref (Fin <$> slopes xs ys) i - aref (Fin <$> slopes xs ys) (i - 1))%num))
    by lia.
  rewrite <- list_fmap_compose. apply list_fmap_ext.
  intros k i Hk. apply lookup_seq in Hk as [Heq Hk]. simpl in Heq. subst k.
  unfold compose. cbv beta.
  destruct (Nat.ltb_spec i (length xs - 1)); [|lia].
  destruct (Nat.leb_spec 1 i); cbn [andb]; [|by rewrite zero_Fin].
  rewrite !aref_Fin by (rewrite slopes_length; lia). xnum_simpl.
  by rewrite !slopes_qref by lia.
Qed.

Lemma akimaWeightsQ_length xs ys : length (akimaWeightsQ xs ys) = length xs - 1.
Proof. unfold akimaWeightsQ. by rewrite length_fmap, length_seq. Qed.

Lemma akimaWeightsQ_qref xs ys i :
  1 <= i -> i + 1 < length xs -> qref (akimaWeightsQ xs ys) i = akimaWeight xs ys i.
Proof.
  intros Hi1 Hi2. unfold qref at 1, akimaWeightsQ.
  rewrite list_lookup_fmap, lookup_seq_lt by lia. simpl.
  destruct i; [lia|done].
Qed.

Lemma akimaWeight_nonneg xs ys i : (0 <= akimaWeight xs ys i)%Qc.
Proof. apply Qcabs_nonneg. Qed.

Lemma akimaInterior_slopes (xs ys : list Qc) :
  strictly_increasing xs -> length ys = length xs -> 5 <= length xs ->
  akimaInterior (Fin <$> xs) (Fin <$> slopes xs ys) (Fin <$> akimaWeightsQ xs ys) (length xs)
  = Fin <$> ((fun i => if (2 <=? i)%nat && (i <? length xs - 2)%nat
                       then akimaSlope xs ys i else 0%Qc) <$> seq 0 (length xs)).
Proof.
  intros Hinc Hys Hlen. unfold akimaInterior.
  rewrite (for_up_ext 2 (length xs - 2) _
    (fun i firstDerivatives =>
       <[i := let wP := aref (Fin <$> akimaWeightsQ xs ys) (i + 1) in
              let wM := aref (Fin <$> akimaWeightsQ xs ys) (i - 1) in
              if (abs wP <? EPSILON)%num && (abs wM <? EPSILON)%num then
                let xv := aref (Fin <$> xs) i in
                let xvP := aref (Fin <$> xs) (i + 1) in
                let xvM := aref (Fin <$> xs) (i - 1) in
                (((xvP - xv) * aref (Fin <$> slopes xs ys) (i - 1)
                  + (xv - xvM) * aref (Fin <$> slopes xs ys) i) / (xvP - xvM))%num
              else
                ((wP * aref (Fin <$> slopes xs ys) (i - 1) + wM * aref (Fin <$> slopes xs ys) i)
                 / (wP + wM))%num]> firstDerivatives)).
  2:{ intros i s Hi. cbv zeta. by destruct (_ && _). }
  rewrite for_up_fill_fresh by lia.
  rewrite <- list_fmap_compose. apply list_fmap_ext.
  intros k i Hk. apply lookup_seq in Hk as [Heq Hk]. simpl in Heq. subst k.
  unfold compose. cbv beta zeta.
  destruct (Nat.leb_spec 2 i), (Nat.ltb_spec i (length xs - 2)); cbn [andb];
    try by rewrite zero_Fin.
  rewrite !aref_Fin by (rewrite ?akimaWeightsQ_length, ?slopes_length; lia).
  rewrite !akimaWeightsQ_qref, !slopes_qref by lia.
  rewrite EPSILON_Fin. xnum_simpl. unfold akimaSlope. cbv zeta.
  rewrite !Qcabs_of_nonneg by apply akimaWeight_nonneg.
  destruct (Qc_is Lt (akimaWeight xs ys (i + 1)) _ && Qc_is Lt (akimaWeight xs ys (i - 1)) _)
    eqn:Hflat.
  - pose proof (strictly_increasing_qref xs (i - 1) (i + 1) Hinc ltac:(lia) ltac:(lia)).
    rewrite div_Fin by (qc_to_q; lra). done.
  - rewrite div_Fin; [done|].
    intros Hsum.
    destruct (sum_nonneg_zero _ _ (akimaWeight_nonneg xs ys (i + 1))
                (akimaWeight_nonneg xs ys (i - 1)) Hsum) as [HP HM].
    rewrite HP, HM in Hflat. done.
Qed.

Lemma akimaFirstDerivatives_rational (xs ys : list Qc) :
  strictly_increasing xs -> length ys = length xs -> 5 <= length xs ->
  akimaFirstDerivatives (Fin <$> xs) (Fin <$> ys) (length xs)
  = Fin <$> (akimaDerivative xs ys <$> seq 0 (length xs)).
Proof.
  intros Hinc Hys Hlen. unfold akimaFirstDerivatives. cbv zeta.
  rewrite akimaDifferences_slopes by done.
  pose proof (akimaWeights_slopes xs ys ltac:(lia)) as Hw.
  fold (akimaWeightsQ xs ys) in Hw. rewrite Hw.
  rewrite akimaInterior_slopes by done.
  assert (forall i j, i < j -> j < length xs -> qref xs j <> qref xs i) as Hne.
  { intros i j Hij Hj Heq.
    pose proof (strictly_increasing_qref xs i j Hinc Hij Hj) as Hlt.
    rewrite Heq in Hlt. by apply (Qclt_not_le _ _ Hlt), Qcle_refl. }
  rewrite !differentiateThreePoint_value by (try lia; apply Hne; lia).
  rewrite !insert_Fin. f_equal.
  apply list_eq. intros k. rewrite list_lookup_fmap.
  destruct (decide (k < length xs)) as [Hk|Hk].
  2:{ rewrite !lookup_ge_None_2; [done|rewrite length_seq; lia|].
      rewrite !length_insert, length_fmap, length_seq. lia. }
  rewrite lookup_seq_lt by done. cbn [fmap option_fmap option_map Nat.add].
  unfold akimaDerivative. cbv zeta.
  destruct (Nat.eqb_spec k (length xs - 1)) as [->|Hn1].
  { rewrite list_lookup_insert_eq; [done|].
    rewrite !length_insert, length_fmap, length_seq. lia. }
  rewrite list_lookup_insert_ne by done.
  destruct (Nat.eqb_spec k (length xs - 2)) as [->|Hn2].
  { rewrite list_lookup_insert_eq; [done|].
    rewrite !length_insert, length_fmap, length_seq. lia. }
  rewrite list_lookup_insert_ne by done.
  destruct (Nat.eqb_spec k 1) as [->|H1].
  { rewrite list_lookup_insert_eq; [done|].
    rewrite !length_insert, length_fmap, length_seq. lia. }
  rewrite list_lookup_insert_ne by done.
  destruct (Nat.eqb_spec k 0) as [->|H0].
  { rewrite list_lookup_insert_eq; [done|].
    rewrite length_fmap, length_seq. lia. }
  rewrite list_lookup_insert_ne by done.
  rewrite list_lookup_fmap, lookup_seq_lt by done. cbn [fmap option_fmap option_map Nat.add].
  destruct (Nat.leb_spec 2 k), (Nat.ltb_spec k (length xs - 2)); try lia. done.
Qed.

Lemma createAkimaSplineInterpolator_derivatives (xs ys : list Qc) :
  5 <= length xs -> length ys = length xs -> strictly_increasing xs ->
  createAkimaSplineInterpolator (Fin <$> xs) (Fin <$> ys)
  = interpolateHermiteSorted (Fin <$> xs) (Fin <$> ys)
      (Fin <$> (akimaDerivative xs ys <$> seq 0 (length xs))).
Proof.
  intros Hlen Hys Hinc. unfold createAkimaSplineInterpolator. cbv zeta.
  rewrite !length_fmap, Hys, Nat.eqb_refl. simpl negb. cbv iota.
  destruct (Nat.ltb_spec (length xs) 5) as [|_]; [lia|].
  rewrite (checkOrder_increasing xs Hinc). cbn [mbind result_bind].
  by rewrite akimaFirstDerivatives_rational.
Qed.

Lemma akimaDerivatives_qref xs ys i :
  i < length xs -> qref (akimaDerivative xs ys <$> seq 0 (length xs)) i = akimaDerivative xs ys i.
Proof. intros Hi. unfold qref. by rewrite list_lookup_fmap, lookup_seq_lt by lia. Qed.

Lemma akimaDerivative_line (xs ys : list Qc) (m k : Qc) :
  strictly_increasing xs -> 5 <= length xs ->
  (forall i, i < length xs -> qref ys i = (m * qref xs i + k)%Qc) ->
  forall i, i < length xs -> akimaDerivative xs ys i = m.
Proof.
  intros Hinc Hlen Hline.
  assert (forall i j, i < j -> j < length xs -> qref xs j <> qref xs i) as Hne.
  { intros i j Hij Hj Heq.
    pose proof (strictly_increasing_qref xs i j Hinc Hij Hj) as Hlt.
    rewrite Heq in Hlt. by apply (Qclt_not_le _ _ Hlt), Qcle_refl. }
  assert (forall i0 i1 i2 i3, i1 < i2 -> i2 < i3 -> i3 < length xs ->
            threePoint xs ys i0 i1 i2 i3 = m) as Hthree.
  { intros i0 i1 i2 i3 H12 H23 H3.
    rewrite (threePoint_exact xs ys i0 i1 i2 i3 0 m k);
      [ring|apply Hne; lia|apply Hne; lia|apply Hne; lia|..];
      rewrite Hline by lia; ring. }
  assert (forall j, j + 1 < length xs -> slope xs ys j = m) as Hslope.
  { intros j Hj. by apply (line_slope xs ys m k). }
  intros i Hi. unfold akimaDerivative. cbv zeta.
  destruct (Nat.eqb_spec i (length xs - 1)) as [_|?]; [apply Hthree; lia|].
  destruct (Nat.eqb_spec i (length xs - 2)) as [_|?]; [apply Hthree; lia|].
  destruct (Nat.eqb_spec i 1) as [_|?]; [apply Hthree; lia|].
  destruct (Nat.eqb_spec i 0) as [_|?]; [apply Hthree; lia|].
  unfold akimaSlope, akimaWeight. cbv zeta.
  rewrite !Hslope by lia.
  replace (m - m)%Qc with 0%Qc by ring.
  assert (Qcabs 0 = 0%Qc) as -> by (by apply Qcabs_of_nonneg).
  assert (Qc_is Lt 0 (Q2Qc (1 # 4503599627370496)) = true) as -> by (vm_compute; reflexivity).
  cbn [andb]. pose proof (Hne (i - 1) (i + 1) ltac:(lia) ltac:(lia)) as Hx.
  field. intros Hz. apply Hx. rewrite <- (Qcplus_0_l (qref xs (i - 1))), <- Hz. ring.
Qed.

(** X13.  The Akima spline reproduces straight lines: when the rational
    samples (5 or more) lie on [y = m x + k], the evaluator returns
    [m q + k] at every rational query, below and above the knots as
    well. *)
Theorem akima_spline_reproduces_lines (xs ys : list Qc) (m k : Qc) :
  5 <= length xs -> length ys = length xs ->
  strictly_increasing xs -> (Z.of_nat (length xs) <= 2 ^ 31)%Z ->
  (forall i, i < length xs -> qref ys i = (m * qref xs i + k)%Qc) ->
  exists f,
    createAkimaSplineInterpolator (Fin <$> xs) (Fin <$> ys) = Ok f
    /\ forall q, f (Fin q) = Ok (Fin (m * q + k)%Qc).
Proof.
  intros Hlen Hys Hinc Hbound Hline.
  rewrite createAkimaSplineInterpolator_derivatives by done.
  destruct (interpolateHermiteSorted_eval xs ys (akimaDerivative xs ys <$> seq 0 (length xs)))
    as (f & Hf & Heval); [lia|done|by rewrite length_fmap, length_seq|done|done|].
  exists f. split; [done|]. intros q. rewrite Heval. cbv zeta.
  pose proof (segmentOf_lt xs q ltac:(lia)) as Hs. set (s := segmentOf xs q) in *.
  rewrite !akimaDerivatives_qref by lia.
  rewrite !(akimaDerivative_line xs ys m k Hinc Hlen Hline) by lia.
  rewrite !Hline by lia. do 2 f_equal.
  pose proof (step_nonzero xs s Hinc ltac:(lia)) as Hw.
  unfold cubicValue, hermite2, hermite3. field. done.
Qed.

Lemma akima_spline_reproduces_lines_witness :
  exists f,
    createAkimaSplineInterpolator
      (Fin <$> [0; 1; Q2Qc 3; Q2Qc 4; Q2Qc 6]%Qc)
      (Fin <$> [1; Q2Qc 3; Q2Qc 7; Q2Qc 9; Q2Qc 13]%Qc) = Ok f
    /\ f (Fin (Q2Qc 5)) = Ok (Fin (Q2Qc 11)).
Proof.
  destruct (akima_spline_reproduces_lines
              [0; 1; Q2Qc 3; Q2Qc 4; Q2Qc 6]%Qc [1; Q2Qc 3; Q2Qc 7; Q2Qc 9; Q2Qc 13]%Qc
              (Q2Qc 2) 1)
    as (f & Hf & Hval); [simpl; lia|done|repeat split|simpl; lia| |].
  { intros [|[|[|[|[|i]]]]] Hi; simpl in Hi; try lia; by apply Qc_is_canon. }
  exists f. split; [done|]. rewrite Hval. do 2 f_equal; by apply Qc_is_canon.
Defined.

(** The derivative at a point depends on the samples at most two
    points away. *)
Lemma akimaDerivative_local (xs ys ys' : list Qc) (j : nat) :
  5 <= length xs -> j < length xs ->
  (forall t, j - 2 <= t -> t <= j + 2 -> t < length xs -> qref ys t = qref ys' t) ->
  akimaDerivative xs ys j = akimaDerivative xs ys' j.
Proof.
  intros Hlen Hj Hy. unfold akimaDerivative. cbv zeta.
  destruct (Nat.eqb_spec j (length xs - 1)) as [?|?];
    [unfold threePoint; cbv zeta; rewrite !Hy by lia; done|].
  destruct (Nat.eqb_spec j (length xs - 2)) as [?|?];
    [unfold threePoint; cbv zeta; rewrite !Hy by lia; done|].
  destruct (Nat.eqb_spec j 1) as [?|?];
    [unfold threePoint; cbv zeta; rewrite !Hy by lia; done|].
  destruct (Nat.eqb_spec j 0) as [?|?];
    [unfold threePoint; cbv zeta; rewrite !Hy by lia; done|].
  unfold akimaSlope, akimaWeight, slope. cbv zeta.
  replace (j - 1 - 1) with (j - 2) by lia.
  replace (j - 2 + 1) with (j - 1) by lia.
  replace (j - 1 + 1) with j by lia.
  replace (j + 1 - 1) with j by lia.
  rewrite !Hy by lia. done.
Qed.

(** X14.  The Akima spline is local: on rationals, two sample sets over
    the same knots that agree at the points [i - 2 .. i + 3] give
    evaluators that agree on the segment [i], hence at every query with
    [x[i] <= q < x[i+1]]. *)
Theorem akima_spline_is_local (xs ys ys' : list Qc) (i : nat) :
  5 <= length xs -> length ys = length xs -> length ys' = length xs ->
  strictly_increasing xs -> (Z.of_nat (length xs) <= 2 ^ 31)%Z ->
  i + 1 < length xs ->
  (forall t, i - 2 <= t -> t <= i + 3 -> t < length xs -> qref ys t = qref ys' t) ->
  exists f f',
    createAkimaSplineInterpolator (Fin <$> xs) (Fin <$> ys) = Ok f
    /\ createAkimaSplineInterpolator (Fin <$> xs) (Fin <$> ys') = Ok f'
    /\ (forall q, segmentOf xs q = i -> f (Fin q) = f' (Fin q))
    /\ (forall q, (qref xs i <= q)%Qc -> (q < qref xs (i + 1))%Qc -> f (Fin q) = f' (Fin q)).
Proof.
  intros Hlen Hys Hys' Hinc Hbound Hi Hy.
  rewrite !createAkimaSplineInterpolator_derivatives by done.
  destruct (interpolateHermiteSorted_eval xs ys (akimaDerivative xs ys <$> seq 0 (length xs)))
    as (f & Hf & Heval); [lia|done|by rewrite length_fmap, length_seq|done|done|].
  destruct (interpolateHermiteSorted_eval xs ys' (akimaDerivative xs ys' <$> seq 0 (length xs)))
    as (f' & Hf' & Heval'); [lia|done|by rewrite length_fmap, length_seq|done|done|].
  exists f, f'. split; [done|]. split; [done|].
  assert (forall q, segmentOf xs q = i -> f (Fin q) = f' (Fin q)) as Hsame.
  { intros q Hq. rewrite Heval, Heval'. cbv zeta. rewrite Hq.
    rewrite !akimaDerivatives_qref by lia.
    rewrite (akimaDerivative_local xs ys ys' i), (akimaDerivative_local xs ys ys' (i + 1));
      [|lia|lia|intros; apply Hy; lia|lia|lia|intros; apply Hy; lia].
    by rewrite !Hy by lia. }
  split; [exact Hsame|].
  intros q Hlo Hhi. apply Hsame. by apply segmentOf_interval.
Qed.

Lemma akima_spline_is_local_witness :
  exists f f',
    createAkimaSplineInterpolator
      (Fin <$> [0; 1; Q2Qc 2; Q2Qc 3; Q2Qc 4; Q2Qc 5; Q2Qc 6]%Qc)
      (Fin <$> [0; 1; 0; 1; 0; 1; 0]%Qc) = Ok f
    /\ createAkimaSplineInterpolator
         (Fin <$> [0; 1; Q2Qc 2; Q2Qc 3; Q2Qc 4; Q2Qc 5; Q2Qc 6]%Qc)
         (Fin <$> [0; 1; 0; 1; 0; 1; Q2Qc 9]%Qc) = Ok f'
    /\ f (Fin (Q2Qc (1 # 2))) = f' (Fin (Q2Qc (1 # 2))).
Proof.
  destruct (akima_spline_is_local
              [0; 1; Q2Qc 2; Q2Qc 3; Q2Qc 4; Q2Qc 5; Q2Qc 6]%Qc
              [0; 1; 0; 1; 0; 1; 0]%Qc [0; 1; 0; 1; 0; 1; Q2Qc 9]%Qc 0)
    as (f & f' & Hf & Hf' & _ & Hsame); [simpl; lia|done|done|repeat split|simpl; lia|simpl; lia| |].
  { intros [|[|[|[|t]]]] _ Ht _; try done; lia. }
  exists f, f'. split; [done|]. split; [done|]. by apply Hsame.
Defined.

(** X15.  The Akima constructor on rationals (5 to 2^31 strictly
    increasing knots): every division is by a non-zero number, the
    derivatives it computes are [akimaDerivative] (Akima's weighted mean
    of the two neighbouring slopes at interior points, the three-point
    derivative at the first two and the last two points), and the
    evaluator is on each segment the cubic with the values [y[i]],
    [y[i+1]] and these derivatives at the two ends. *)
Theorem akima_spline_hermite_conditions (xs ys : list Qc) :
  5 <= length xs -> length ys = length xs ->
  strictly_increasing xs -> (Z.of_nat (length xs) <= 2 ^ 31)%Z ->
  exists f (c2 c3 : nat -> Qc),
    createAkimaSplineInterpolator (Fin <$> xs) (Fin <$> ys) = Ok f
    /\ akimaFirstDerivatives (Fin <$> xs) (Fin <$> ys) (length xs)
       = Fin <$> (akimaDerivative xs ys <$> seq 0 (length xs))
    /\ (forall q,
          let s := segmentOf xs q in
          f (Fin q)
          = Ok (Fin (cubicValue (qref ys s) (akimaDerivative xs ys s) (c2 s) (c3 s)
                       (q - qref xs s)%Qc)))
    /\ (forall i, i + 1 < length xs ->
          let w := (qref xs (i + 1) - qref xs i)%Qc in
          cubicValue (qref ys i) (akimaDerivative xs ys i) (c2 i) (c3 i) 0 = qref ys i
          /\ cubicSlope (akimaDerivative xs ys i) (c2 i) (c3 i) 0 = akimaDerivative xs ys i
          /\ cubicValue (qref ys i) (akimaDerivative xs ys i) (c2 i) (c3 i) w = qref ys (i + 1)
          /\ cubicSlope (akimaDerivative xs ys i) (c2 i) (c3 i) w
             = akimaDerivative xs ys (i + 1)).
Proof.
  intros Hlen Hys Hinc Hbound.
  rewrite createAkimaSplineInterpolator_derivatives by done.
  destruct (interpolateHermiteSorted_eval xs ys (akimaDerivative xs ys <$> seq 0 (length xs)))
    as (f & Hf & Heval); [lia|done|by rewrite length_fmap, length_seq|done|done|].
  exists f,
    (fun i => hermite2 (qref ys i) (qref ys (i + 1)) (akimaDerivative xs ys i)
                (akimaDerivative xs ys (i + 1)) (qref xs (i + 1) - qref xs i)%Qc),
    (fun i => hermite3 (qref ys i) (qref ys (i + 1)) (akimaDerivative xs ys i)
                (akimaDerivative xs ys (i + 1)) (qref xs (i + 1) - qref xs i)%Qc).
  split; [done|]. split; [by apply akimaFirstDerivatives_rational|]. split.
  - intros q. rewrite Heval. cbv zeta.
    pose proof (segmentOf_lt xs q ltac:(lia)) as Hs.
    by rewrite !akimaDerivatives_qref by lia.
  - intros i Hi. cbv zeta. pose proof (step_nonzero xs i Hinc Hi) as Hw.
    split; [apply cubicValue_left_end|]. split; [apply cubicSlope_left_end|].
    split; [by apply hermite_right_end|by apply hermite_slope_right_end].
Qed.

Lemma akima_spline_hermite_conditions_witness :
  exists f,
    createAkimaSplineInterpolator
      (Fin <$> [0; 1; Q2Qc 2; Q2Qc 3; Q2Qc 4; Q2Qc 5; Q2Qc 6]%Qc)
      (Fin <$> [0; 1; 0; 1; 0; 1; 0]%Qc) = Ok f.
Proof.
  destruct (akima_spline_hermite_conditions
              [0; 1; Q2Qc 2; Q2Qc 3; Q2Qc 4; Q2Qc 5; Q2Qc 6]%Qc [0; 1; 0; 1; 0; 1; 0]%Qc)
    as (f & _ & _ & Hf & _); [simpl; lia|done|repeat split|simpl; lia|].
  by exists f.
Defined.

(** A mean of two numbers with non-negative weights lies between them. *)
Lemma weighted_mean_between (a b p q : Qc) :
  (0 <= a)%Qc -> (0 <= b)%Qc -> (a + b)%Qc <> 0%Qc ->
  ((p <= q)%Qc ->
     (p <= (a * p + b * q) / (a + b))%Qc /\ ((a * p + b * q) / (a + b) <= q)%Qc)
  /\ ((q <= p)%Qc ->
     (q <= (a * p + b * q) / (a + b))%Qc /\ ((a * p + b * q) / (a + b) <= p)%Qc).
Proof.
  intros Ha Hb Hab.
  assert ((a * p + b * q) / (a + b) * (a + b) = a * p + b * q)%Qc as Hr by (field; done).
  set (r := ((a * p + b * q) / (a + b))%Qc) in *. clearbody r.
  assert (0 < a + b)%Qc as Hpos.
  { destruct (Qcle_lt_or_eq 0 (a + b)) as [?|Heq]; [qc_to_q; lra|done|].
    exfalso. by apply Hab. }
  split; intros Hpq; qc_to_q; split; nra.
Qed.

Lemma akimaSlope_between (xs ys : list Qc) (i : nat) :
  strictly_increasing xs -> 1 <= i -> i + 1 < length xs ->
  ((slope xs ys (i - 1) <= slope xs ys i)%Qc ->
     (slope xs ys (i - 1) <= akimaSlope xs ys i)%Qc
     /\ (akimaSlope xs ys i <= slope xs ys i)%Qc)
  /\ ((slope xs ys i <= slope xs ys (i - 1))%Qc ->
     (slope xs ys i <= akimaSlope xs ys i)%Qc
     /\ (akimaSlope xs ys i <= slope xs ys (i - 1))%Qc).
Proof.
  intros Hinc Hi1 Hi2. unfold akimaSlope. cbv zeta.
  destruct (_ && _) eqn:Hflat.
  - pose proof (step_positive xs i Hinc Hi2) as HP.
    pose proof (step_positive xs (i - 1) Hinc ltac:(lia)) as HM.
    replace (i - 1 + 1) with i in HM by lia.
    replace (qref xs (i + 1) - qref xs (i - 1))%Qc
      with ((qref xs (i + 1) - qref xs i) + (qref xs i - qref xs (i - 1)))%Qc by ring.
    apply weighted_mean_between; [by apply Qclt_le_weak..|].
    apply Qc_pos_nonzero. qc_to_q. lra.
  - apply weighted_mean_between; [apply akimaWeight_nonneg..|].
    intros Hsum.
    destruct (sum_nonneg_zero _ _ (akimaWeight_nonneg xs ys (i + 1))
                (akimaWeight_nonneg xs ys (i - 1)) Hsum) as [HP HM].
    rewrite HP, HM in Hflat. done.
Qed.

(** X24.  Akima's derivative at an interior point lies between the slopes
    of the two chords that meet there: on rationals, for [2 <= i < n - 2],
    the entry [i] of the derivatives that the constructor computes is at
    least the smaller and at most the larger of [slope (i - 1)] and
    [slope i]. *)
Theorem akima_derivative_between_slopes (xs ys : list Qc) :
  5 <= length xs -> length ys = length xs -> strictly_increasing xs ->
  exists fdq,
    akimaFirstDerivatives (Fin <$> xs) (Fin <$> ys) (length xs) = Fin <$> fdq
    /\ length fdq = length xs
    /\ forall i, 2 <= i -> i + 2 < length xs ->
         ((slope xs ys (i - 1) <= slope xs ys i)%Qc ->
            (slope xs ys (i - 1) <= qref fdq i)%Qc /\ (qref fdq i <= slope xs ys i)%Qc)
         /\ ((slope xs ys i <= slope xs ys (i - 1))%Qc ->
            (slope xs ys i <= qref fdq i)%Qc /\ (qref fdq i <= slope xs ys (i - 1))%Qc).
Proof.
  intros Hlen Hys Hinc. exists (akimaDerivative xs ys <$> seq 0 (length xs)).
  split; [by apply akimaFirstDerivatives_rational|].
  split; [by rewrite length_fmap, length_seq|].
  intros i Hi1 Hi2. rewrite akimaDerivatives_qref by lia.
  unfold akimaDerivative. cbv zeta.
  destruct (Nat.eqb_spec i (length xs - 1)); [lia|].
  destruct (Nat.eqb_spec i (length xs - 2)); [lia|].
  destruct (Nat.eqb_spec i 1); [lia|].
  destruct (Nat.eqb_spec i 0); [lia|].
  apply akimaSlope_between; (done || lia).
Qed.

Lemma akima_derivative_between_slopes_witness :
  exists fdq,
    akimaFirstDerivatives (Fin <$> [0; 1; Q2Qc 2; Q2Qc 3; Q2Qc 5]%Qc)
      (Fin <$> [0; 1; Q2Qc 3; Q2Qc 4; Q2Qc 4]%Qc) 5 = Fin <$> fdq
    /\ length fdq = 5.
Proof.
  destruct (akima_derivative_between_slopes [0; 1; Q2Qc 2; Q2Qc 3; Q2Qc 5]%Qc
              [0; 1; Q2Qc 3; Q2Qc 4; Q2Qc 4]%Qc)
    as (fdq & Hfd & Hlen & _); [simpl; lia|done|repeat split|].
  by exists fdq.
Defined.

(* ------------------------------------------------------------------ *)
(** ** The nearest knot *)

Lemma Qcabs_sub_le (a b : Qc) : (a <= b)%Qc -> Qcabs (a - b) = (b - a)%Qc.
Proof.
  intros Hab. unfold Qcabs. destruct (Qc_is Lt (a - b) 0) eqn:Hlt.
  - ring.
  - apply Qc_is_Lt_false in Hlt. assert (a = b) as -> by (apply Qcle_antisym; [done|qc_to_q; lra]).
    ring.
Qed.

Lemma Qcabs_sub_ge (a b : Qc) : (b <= a)%Qc -> Qcabs (a - b) = (a - b)%Qc.
Proof. intros Hab. apply Qcabs_of_nonneg. qc_to_q. lra. Qed.

Lemma strictly_increasing_qref_le xs i j :
  strictly_increasing xs -> i <= j -> j < length xs -> (qref xs i <= qref xs j)%Qc.
Proof.
  intros Hinc Hij Hj. destruct (decide (i = j)) as [->|Hne]; [apply Qcle_refl|].
  apply Qclt_le_weak. apply strictly_increasing_qref; (done || lia).
Qed.

Section Nearest.
Variables (xs : list Qc) (q : Qc).
Hypothesis Hinc : strictly_increasing xs.

(** The knots on either side of a query, by distance. *)
Lemma left_knots_farther (j k : nat) :
  k <= j -> j < length xs -> (qref xs j <= q)%Qc ->
  (Qcabs (qref xs j - q) <= Qcabs (qref xs k - q))%Qc.
Proof using Hinc.
  intros Hkj Hj Hq. pose proof (strictly_increasing_qref_le xs k j Hinc Hkj Hj) as Hx.
  rewrite !Qcabs_sub_le by (done || by eapply Qcle_trans). qc_to_q. lra.
Qed.

Lemma right_knots_farther (j k : nat) :
  j <= k -> k < length xs -> (q <= qref xs j)%Qc ->
  (Qcabs (qref xs j - q) <= Qcabs (qref xs k - q))%Qc.
Proof using Hinc.
  intros Hjk Hk Hq. pose proof (strictly_increasing_qref_le xs j k Hinc Hjk Hk) as Hx.
  rewrite !Qcabs_sub_ge by (done || by eapply Qcle_trans). qc_to_q. lra.
Qed.

Lemma right_knots_strictly_farther (j k : nat) :
  j < k -> k < length xs -> (q <= qref xs j)%Qc ->
  Qcabs (qref xs k - q) <> Qcabs (qref xs j - q).
Proof using Hinc.
  intros Hjk Hk Hq. pose proof (strictly_increasing_qref xs j k Hinc Hjk Hk) as Hx.
  rewrite !Qcabs_sub_ge by (done || (apply Qclt_le_weak; by eapply Qcle_lt_trans)).
  intros Heq. assert (qref xs k = qref xs j) as Hkj by (qc_to_q; lra).
  rewrite Hkj in Hx. by apply (Qclt_not_le _ _ Hx), Qcle_refl.
Qed.

End Nearest.

(** X18.  The nearest-neighbour interpolator returns the sample of a
    nearest knot: on 1 to 2^31 strictly increasing rational knots, for
    every rational query there is an index [j] with the value [y[j]]
    returned such that no knot is closer to the query than [x[j]], and
    [j] is the largest such index (of two knots at the same distance the
    right one wins). *)
Theorem nearest_neighbor_is_nearest (xs : list Qc) (ys : list xnum) :
  length ys = length xs -> 1 <= length xs ->
  strictly_increasing xs -> (Z.of_nat (length xs) <= 2 ^ 31)%Z ->
  exists f,
    createNearestNeighborInterpolator (Fin <$> xs) ys = Ok f
    /\ forall q, exists j,
         j < length xs
         /\ f (Fin q) = Ok (aref ys j)
         /\ (forall k, k < length xs ->
               (Qcabs (qref xs j - q) <= Qcabs (qref xs k - q))%Qc)
         /\ (forall k, k < length xs ->
               Qcabs (qref xs k - q) = Qcabs (qref xs j - q) -> k <= j).
Proof.
  intros Hys Hlen Hinc Hbound. unfold createNearestNeighborInterpolator.
  rewrite !length_fmap, Hys, Nat.eqb_refl. simpl negb. cbv iota.
  destruct (Nat.eqb_spec (length xs) 0) as [|_]; [lia|].
  destruct (Nat.eqb_spec (length xs) 1) as [Hone|Hmore].
  { eexists. split; [reflexivity|]. intros q. exists 0. split; [lia|]. split; [done|].
    split; intros k Hk; assert (k = 0) as -> by lia; [apply Qcle_refl|done]. }
  rewrite (checkOrder_increasing xs Hinc). cbn [mbind result_bind].
  eexists. split; [reflexivity|]. intros q. cbv beta.
  destruct (Arrays_binarySearch_cases xs q Hinc Hbound)
    as [(j & -> & Hj & _)|(-> & Hbelow & Habove)]; cbn [mbind result_bind].
  - (* the query is the knot j *)
    pose proof (lookup_lt_Some _ _ _ Hj) as Hjlen. pose proof (qref_Some _ _ _ Hj) as Hxj.
    destruct (Z.leb_spec 0 (Z.of_nat j)) as [_|]; [|lia].
    exists j. split; [done|]. split.
    { unfold arefZ. destruct (Z.ltb_spec (Z.of_nat j) 0); [lia|]. by rewrite Nat2Z.id. }
    split.
    + intros k Hk. destruct (Nat.le_ge_cases k j).
      * apply left_knots_farther; [done..|]. rewrite Hxj. apply Qcle_refl.
      * apply right_knots_farther; [done..|]. rewrite Hxj. apply Qcle_refl.
    + intros k Hk Heq. destruct (Nat.le_gt_cases k j) as [|Hgt]; [done|]. exfalso.
      eapply (right_knots_strictly_farther xs q Hinc j k); [done..| |done].
      rewrite Hxj. apply Qcle_refl.
  - (* the query is no knot; p is its insertion point *)
    set (p := insertionPoint xs q) in *.
    pose proof (insertionPoint_le xs q) as Hp. fold p in Hp.
    assert (forall k, k < p -> k < length xs -> (qref xs k < q)%Qc) as Hlo.
    { intros k Hk Hk'. apply (Hbelow k); [done|]. by apply qref_lookup. }
    assert (forall k, p <= k -> k < length xs -> (q < qref xs k)%Qc) as Hhi.
    { intros k Hk Hk'. apply (Habove k); [done|]. by apply qref_lookup. }
    destruct (Z.leb_spec 0 (- (Z.of_nat p + 1))) as [|_]; [lia|].
    replace (- - (Z.of_nat p + 1) - 1)%Z with (Z.of_nat p) by lia.
    destruct (Z.eqb_spec (Z.of_nat p) 0) as [Hp0|Hp0].
    { (* below the first knot *)
      exists 0. split; [lia|]. split; [done|].
      pose proof (Hhi 0 ltac:(lia) ltac:(lia)) as Hq0. split.
      - intros k Hk. apply right_knots_farther; [done|lia|done|by apply Qclt_le_weak].
      - intros k Hk Heq. destruct (Nat.le_gt_cases k 0) as [|Hgt]; [done|]. exfalso.
        eapply (right_knots_strictly_farther xs q Hinc 0 k); [done..| |done].
        by apply Qclt_le_weak. }
    destruct (Z.leb_spec (Z.of_nat (length xs)) (Z.of_nat p)) as [Hpn|Hpn].
    { (* above the last knot *)
      exists (length xs - 1). split; [lia|]. split; [done|].
      pose proof (Hlo (length xs - 1) ltac:(lia) ltac:(lia)) as Hqn. split.
      - intros k Hk. apply left_knots_farther; [done|lia|lia|by apply Qclt_le_weak].
      - intros k Hk _. lia. }
    (* strictly between the knots p - 1 and p *)
    replace (Z.of_nat p - 1)%Z with (Z.of_nat (p - 1)) by lia.
    rewrite (arefZ_Fin_lookup xs (Z.of_nat (p - 1)) (qref xs (p - 1)))
      by (lia || (rewrite Nat2Z.id; apply qref_lookup; lia)).
    rewrite (arefZ_Fin_lookup xs (Z.of_nat p) (qref xs p))
      by (lia || (rewrite Nat2Z.id; apply qref_lookup; lia)).
    xnum_simpl.
    pose proof (Hlo (p - 1) ltac:(lia) ltac:(lia)) as Hql.
    pose proof (Hhi p ltac:(lia) ltac:(lia)) as Hqr.
    destruct (Qc_is Lt _ _) eqn:Hnear.
    + apply Qc_is_Lt in Hnear. exists (p - 1). split; [lia|]. split.
      { unfold arefZ. destruct (Z.ltb_spec (Z.of_nat (p - 1)) 0); [lia|]. by rewrite Nat2Z.id. }
      assert (forall k, p <= k -> k < length xs ->
                (Qcabs (qref xs (p - 1) - q) < Qcabs (qref xs k - q))%Qc) as Hright.
      { intros k Hk Hk'.
        pose proof (strictly_increasing_qref_le xs p k Hinc Hk Hk') as Hx.
        rewrite Qcabs_sub_le by (by apply Qclt_le_weak).
        rewrite Qcabs_sub_ge by (apply Qclt_le_weak; by eapply Qclt_le_trans).
        qc_to_q. lra. }
      split.
      * intros k Hk. destruct (Nat.lt_ge_cases k p).
        -- apply left_knots_farther; [done|lia|lia|by apply Qclt_le_weak].
        -- apply Qclt_le_weak. by apply Hright.
      * intros k Hk Heq. destruct (Nat.lt_ge_cases k p) as [|Hge]; [lia|]. exfalso.
        pose proof (Hright k Hge Hk) as Hlt. rewrite Heq in Hlt.
        by apply (Qclt_not_le _ _ Hlt), Qcle_refl.
    + apply Qc_is_Lt_false in Hnear. exists p. split; [lia|]. split.
      { unfold arefZ. destruct (Z.ltb_spec (Z.of_nat p) 0); [lia|]. by rewrite Nat2Z.id. }
      split.
      * intros k Hk. destruct (Nat.lt_ge_cases k p) as [Hlt|Hge].
        -- pose proof (strictly_increasing_qref_le xs k (p - 1) Hinc ltac:(lia) ltac:(lia)) as Hx.
           rewrite Qcabs_sub_ge by (by apply Qclt_le_weak).
           rewrite Qcabs_sub_le by (apply Qclt_le_weak; by eapply Qcle_lt_trans).
           qc_to_q. lra.
        -- apply right_knots_farther; [done..|by apply Qclt_le_weak].
      * intros k Hk Heq. destruct (Nat.le_gt_cases k p) as [|Hgt]; [done|]. exfalso.
        eapply (right_knots_strictly_farther xs q Hinc p k); [done..| |done].
        by apply Qclt_le_weak.
Qed.

Lemma nearest_neighbor_is_nearest_witness :
  exists f,
    createNearestNeighborInterpolator (Fin <$> [0; Q2Qc 2; Q2Qc 4]%Qc)
      [Fin (Q2Qc 10); Fin (Q2Qc 20); Fin (Q2Qc 30)] = Ok f
    /\ exists j, j < 3 /\ f (Fin (Q2Qc 7)) = Ok (aref [Fin (Q2Qc 10); Fin (Q2Qc 20); Fin (Q2Qc 30)] j).
Proof.
  destruct (nearest_neighbor_is_nearest [0; Q2Qc 2; Q2Qc 4]%Qc
              [Fin (Q2Qc 10); Fin (Q2Qc 20); Fin (Q2Qc 30)])
    as (f & Hf & Hnear); [done|simpl; lia|repeat split|simpl; lia|].
  exists f. split; [done|]. destruct (Hnear (Q2Qc 7)) as (j & Hj & Hval & _).
  by exists j.
Defined.

(* ------------------------------------------------------------------ *)
(** ** The linear interpolant between and beyond the knots *)

(** A point of a chord lies between the ends of the chord. *)
Lemma chord_between (y0 y1 h d : Qc) :
  (0 < h)%Qc -> (0 <= d)%Qc -> (d <= h)%Qc ->
  ((y0 <= y1)%Qc -> (y0 <= d * ((y1 - y0) / h) + y0)%Qc /\ (d * ((y1 - y0) / h) + y0 <= y1)%Qc)
  /\ ((y1 <= y0)%Qc -> (y1 <= d * ((y1 - y0) / h) + y0)%Qc /\ (d * ((y1 - y0) / h) + y0 <= y0)%Qc).
Proof.
  intros Hh Hd0 Hd1. assert (h <> 0%Qc) as Hne by (by apply Qc_pos_nonzero).
  assert ((y1 - y0) / h * h = y1 - y0)%Qc as Hs by (field; done).
  set (s := ((y1 - y0) / h)%Qc) in *. clearbody s.
  split; intros Hy; qc_to_q.
  - assert (0 <= this s)%Q by nra. split; nra.
  - assert (this s <= 0)%Q by nra. split; nra.
Qed.

(** X16.  The linear interpolator on rationals (2 to 2^31 strictly
    increasing knots): for a query between [x[i]] and [x[i+1]] the value
    lies between [y[i]] and [y[i+1]]; below the first knot the first chord
    is extended and from the last knot on the last chord; and samples on a
    line [y = m x + k] give [m q + k] at every query. *)
Theorem linear_interpolator_between_and_beyond (xs ys : list Qc) :
  2 <= length xs -> length ys = length xs ->
  strictly_increasing xs -> (Z.of_nat (length xs) <= 2 ^ 31)%Z ->
  exists f,
    createLinearInterpolator (Fin <$> xs) (Fin <$> ys) = Ok f
    /\ (forall i q, i + 1 < length xs -> (qref xs i <= q)%Qc -> (q <= qref xs (i + 1))%Qc ->
          exists v, f (Fin q) = Ok (Fin v)
            /\ ((qref ys i <= qref ys (i + 1))%Qc ->
                (qref ys i <= v)%Qc /\ (v <= qref ys (i + 1))%Qc)
            /\ ((qref ys (i + 1) <= qref ys i)%Qc ->
                (qref ys (i + 1) <= v)%Qc /\ (v <= qref ys i)%Qc))
    /\ (forall q, (q < qref xs 0)%Qc ->
          f (Fin q) = Ok (Fin ((q - qref xs 0) * slope xs ys 0 + qref ys 0)%Qc))
    /\ (forall q, (qref xs (length xs - 1) <= q)%Qc ->
          f (Fin q)
          = Ok (Fin ((q - qref xs (length xs - 2)) * slope xs ys (length xs - 2)
                     + qref ys (length xs - 2))%Qc))
    /\ (forall m k, (forall i, i < length xs -> qref ys i = (m * qref xs i + k)%Qc) ->
          forall q, f (Fin q) = Ok (Fin (m * q + k)%Qc)).
Proof.
  intros Hlen Hys Hinc Hbound.
  destruct (createLinearInterpolator_eval xs ys Hlen Hys Hinc Hbound) as (f & Hf & Heval).
  exists f. split; [done|]. split; [|split; [|split]].
  - intros i q Hi Hlo Hhi. pose proof (step_positive xs i Hinc Hi) as Hh.
    destruct (Qcle_lt_or_eq _ _ Hhi) as [Hlt| ->].
    + rewrite Heval, (segmentOf_interval xs i q) by done. eexists. split; [reflexivity|].
      unfold slope. apply chord_between; [done| |]; qc_to_q; lra.
    + rewrite Heval.
      rewrite (segmentOf_knot xs (i + 1) _ Hinc Hbound (qref_lookup xs (i + 1) Hi)).
      eexists. split; [reflexivity|].
      destruct (decide (i + 1 <= length xs - 2)) as [Hin|Hlast].
      * rewrite Nat.min_l by done.
        replace ((qref xs (i + 1) - qref xs (i + 1)) * slope xs ys (i + 1) + qref ys (i + 1))%Qc
          with (qref ys (i + 1)) by ring.
        split; intros Hy; (split; [done|apply Qcle_refl]) || (split; [apply Qcle_refl|done]).
      * rewrite Nat.min_r by lia. replace (length xs - 2) with i by lia.
        unfold slope. apply chord_between; [done| |apply Qcle_refl]. by apply Qclt_le_weak.
  - intros q Hq. rewrite Heval.
    by rewrite (segmentOf_below xs q (qref xs 0)) by (done || (apply qref_lookup; lia)).
  - intros q Hq. rewrite Heval.
    rewrite (segmentOf_above xs q (qref xs (length xs - 1))); [done|done|done| |done].
    rewrite last_lookup. replace (Init.Nat.pred (length xs)) with (length xs - 1) by lia.
    apply qref_lookup. lia.
  - intros m k Hline q. rewrite Heval. pose proof (segmentOf_lt xs q Hlen) as Hs.
    unfold slope. rewrite (line_slope xs ys m k Hinc Hline) by lia.
    rewrite Hline by lia. do 2 f_equal. ring.
Qed.

Lemma linear_interpolator_between_and_beyond_witness :
  exists f,
    createLinearInterpolator (Fin <$> [0; Q2Qc 2]%Qc) (Fin <$> [0; Q2Qc 10]%Qc) = Ok f
    /\ f (Fin (Q2Qc 3)) = Ok (Fin (Q2Qc 15)).
Proof.
  destruct (linear_interpolator_between_and_beyond [0; Q2Qc 2]%Qc [0; Q2Qc 10]%Qc)
    as (f & Hf & _ & _ & Habove & _); [simpl; lia|done|repeat split|simpl; lia|].
  exists f. split; [done|]. rewrite Habove by done.
  do 2 f_equal; by apply Qc_is_canon.
Defined.

(* ------------------------------------------------------------------ *)
(** ** The linear interpolant keeps the order of the samples *)

Lemma strictly_increasing_tail v xs :
  strictly_increasing (v :: xs) -> strictly_increasing xs.
Proof. destruct xs as [|w xs]; [done|]. by intros [_ ?]. Qed.

(** The insertion point splits strictly increasing knots: those up to the
    key before it, those above the key from it on. *)
Lemma insertionPoint_split xs q :
  strictly_increasing xs ->
  (forall k v, k < insertionPoint xs q -> xs !! k = Some v -> (v <= q)%Qc)
  /\ (forall k v, insertionPoint xs q <= k -> xs !! k = Some v -> (q < v)%Qc).
Proof.
  induction xs as [|w xs IH]; intros Hinc; [split; intros k v _ Hk; done|].
  cbn [insertionPoint]. destruct (Qc_is Lt q w) eqn:Hlt.
  - apply Qc_is_Lt in Hlt. split; [intros; lia|]. intros k v _ Hk.
    destruct k as [|k]; [by injection Hk as <-|].
    eapply Qclt_trans; [exact Hlt|].
    by apply (strictly_increasing_lookup (w :: xs) 0 (S k) w v Hinc ltac:(lia)).
  - apply Qc_is_Lt_false in Hlt.
    destruct (IH (strictly_increasing_tail _ _ Hinc)) as [Hbelow Habove]. split.
    + intros [|k] v Hk Hv; [by injection Hv as <-|]. apply (Hbelow k); [lia|done].
    + intros [|k] v Hk Hv; [lia|]. apply (Habove k); [lia|done].
Qed.

Section Segments.
Variables (xs : list Qc).
Hypothesis Hinc : strictly_increasing xs.
Hypothesis Hlen : 2 <= length xs.

Lemma segmentOf_knot_below (q : Qc) :
  1 <= segmentOf xs q -> (qref xs (segmentOf xs q) <= q)%Qc.
Proof using Hinc Hlen.
  intros Hs. destruct (insertionPoint_split xs q Hinc) as [Hbelow _].
  apply (Hbelow (segmentOf xs q)); [unfold segmentOf in *; lia|].
  apply qref_lookup. pose proof (segmentOf_lt xs q Hlen). lia.
Qed.

Lemma segmentOf_knot_above (q : Qc) :
  segmentOf xs q + 2 < length xs -> (q < qref xs (segmentOf xs q + 1))%Qc.
Proof using Hinc Hlen.
  intros Hs. destruct (insertionPoint_split xs q Hinc) as [_ Habove].
  apply (Habove (segmentOf xs q + 1)); [unfold segmentOf in *; lia|].
  apply qref_lookup. lia.
Qed.

Lemma insertionPoint_mono (q1 q2 : Qc) :
  (q1 <= q2)%Qc -> insertionPoint xs q1 <= insertionPoint xs q2.
Proof using Hinc Hlen.
  intros Hq. destruct (Nat.le_gt_cases (insertionPoint xs q1) (insertionPoint xs q2)) as [|Hgt];
    [done|exfalso].
  destruct (insertionPoint_split xs q1 Hinc) as [Hbelow _].
  destruct (insertionPoint_split xs q2 Hinc) as [_ Habove].
  pose proof (insertionPoint_le xs q1) as Hp.
  pose proof (qref_lookup xs (insertionPoint xs q2) ltac:(lia)) as Hk.
  pose proof (Hbelow _ _ Hgt Hk). pose proof (Habove _ _ ltac:(done) Hk).
  apply (Qclt_not_le q2 (qref xs (insertionPoint xs q2))); [done|]. by eapply Qcle_trans.
Qed.

Lemma segmentOf_mono (q1 q2 : Qc) :
  (q1 <= q2)%Qc -> segmentOf xs q1 <= segmentOf xs q2.
Proof using Hinc Hlen.
  intros Hq. pose proof (insertionPoint_mono q1 q2 Hq). unfold segmentOf. lia.
Qed.

End Segments.

Lemma nondecreasing_samples (ys : list Qc) (n : nat) :
  (forall i, i + 1 < n -> (qref ys i <= qref ys (i + 1))%Qc) ->
  forall i j, i <= j -> j < n -> (qref ys i <= qref ys j)%Qc.
Proof.
  intros Hstep i j Hij Hj. induction j as [|j IH]; [by replace i with 0 by lia; apply Qcle_refl|].
  destruct (decide (i = S j)) as [->|Hne]; [apply Qcle_refl|].
  eapply Qcle_trans; [apply IH; lia|]. replace (S j) with (j + 1) by lia. apply Hstep. lia.
Qed.

(** A chord of non-decreasing samples does not descend. *)
Lemma chord_nondecreasing (y0 y1 h d1 d2 : Qc) :
  (0 < h)%Qc -> (y0 <= y1)%Qc -> (d1 <= d2)%Qc ->
  (d1 * ((y1 - y0) / h) + y0 <= d2 * ((y1 - y0) / h) + y0)%Qc.
Proof.
  intros Hh Hy Hd. assert (h <> 0%Qc) as Hne by (by apply Qc_pos_nonzero).
  assert ((y1 - y0) / h * h = y1 - y0)%Qc as Hs by (field; done).
  set (s := ((y1 - y0) / h)%Qc) in *. clearbody s. qc_to_q.
  assert (0 <= this s)%Q by nra. nra.
Qed.

Lemma chord_end (y0 y1 h : Qc) :
  h <> 0%Qc -> (h * ((y1 - y0) / h) + y0)%Qc = y1.
Proof. intros Hh. field. done. Qed.

(** X17.  The linear interpolator keeps the order of the samples: when the
    rational samples do not descend, the value at [q1] is at most the
    value at [q2] for all rational queries [q1 <= q2], inside and outside
    the knots. *)
Theorem linear_interpolator_preserves_monotonicity (xs ys : list Qc) :
  2 <= length xs -> length ys = length xs ->
  strictly_increasing xs -> (Z.of_nat (length xs) <= 2 ^ 31)%Z ->
  (forall i, i + 1 < length xs -> (qref ys i <= qref ys (i + 1))%Qc) ->
  exists f,
    createLinearInterpolator (Fin <$> xs) (Fin <$> ys) = Ok f
    /\ forall q1 q2, (q1 <= q2)%Qc ->
         exists v1 v2, f (Fin q1) = Ok (Fin v1) /\ f (Fin q2) = Ok (Fin v2) /\ (v1 <= v2)%Qc.
Proof.
  intros Hlen Hys Hinc Hbound Hup.
  destruct (createLinearInterpolator_eval xs ys Hlen Hys Hinc Hbound) as (f & Hf & Heval).
  exists f. split; [done|]. intros q1 q2 Hq. rewrite !Heval.
  eexists _, _. split; [reflexivity|]. split; [reflexivity|].
  pose proof (segmentOf_mono xs Hinc Hlen q1 q2 Hq) as Hs.
  pose proof (segmentOf_lt xs q1 Hlen) as Hs1. pose proof (segmentOf_lt xs q2 Hlen) as Hs2.
  set (s1 := segmentOf xs q1) in *. set (s2 := segmentOf xs q2) in *. unfold slope.
  destruct (decide (s1 = s2)) as [<-|Hne].
  - apply chord_nondecreasing; [apply step_positive; (done || lia)|apply Hup; lia|].
    qc_to_q. lra.
  - pose proof (segmentOf_knot_above xs Hinc Hlen q1 ltac:(fold s1; lia)) as Hq1. fold s1 in Hq1.
    pose proof (segmentOf_knot_below xs Hinc Hlen q2 ltac:(fold s2; lia)) as Hq2. fold s2 in Hq2.
    pose proof (step_positive xs s1 Hinc ltac:(lia)) as Hh1.
    pose proof (step_positive xs s2 Hinc ltac:(lia)) as Hh2.
    eapply Qcle_trans; [|eapply Qcle_trans].
    + apply (chord_nondecreasing _ _ _ _ (qref xs (s1 + 1) - qref xs s1));
        [done|apply Hup; lia|]. qc_to_q. lra.
    + rewrite chord_end by (by apply Qc_pos_nonzero).
      apply (nondecreasing_samples ys (length xs) Hup (s1 + 1) s2); lia.
    + assert (qref ys s2
              = (qref xs s2 - qref xs s2)
                * ((qref ys (s2 + 1) - qref ys s2) / (qref xs (s2 + 1) - qref xs s2))
                + qref ys s2)%Qc as Hzero by ring.
      rewrite Hzero at 1.
      apply chord_nondecreasing; [done|apply Hup; lia|]. qc_to_q. lra.
Qed.

Lemma linear_interpolator_preserves_monotonicity_witness :
  exists f v1 v2,
    createLinearInterpolator (Fin <$> [0; 1; Q2Qc 3]%Qc) (Fin <$> [0; Q2Qc 2; Q2Qc 2]%Qc) = Ok f
    /\ f (Fin (Q2Qc (-1))) = Ok (Fin v1) /\ f (Fin (Q2Qc 5)) = Ok (Fin v2) /\ (v1 <= v2)%Qc.
Proof.
  destruct (linear_interpolator_preserves_monotonicity
              [0; 1; Q2Qc 3]%Qc [0; Q2Qc 2; Q2Qc 2]%Qc)
    as (f & Hf & Hmono); [simpl; lia|done|repeat split|simpl; lia| |].
  { intros [|[|i]] Hi; simpl in Hi; try lia; by vm_compute. }
  destruct (Hmono (Q2Qc (-1)) (Q2Qc 5)) as (v1 & v2 & H1 & H2 & Hle); [by vm_compute|].
  by exists f, v1, v2.
Defined.

(* ------------------------------------------------------------------ *)
(** ** What the batch of queries answers to any input *)

Section BatchOutcome.
Context {T : Type} `{Number T}.

(** A loop whose body throws at one index, whatever the state, throws:
    there or before. *)
Lemma for_each_throws {S : Type} (body : nat -> S -> result S) (e : error) (l : list nat)
    (i : nat) :
  i ∈ l -> (forall s, body i s = Throw e) ->
  (forall k s, k ∈ l -> body k s = Throw e \/ exists s', body k s = Ok s') ->
  forall s, for_each body l s = Throw e.
Proof.
  induction l as [|k l IH]; intros Hin Hi Hall s; [by apply elem_of_nil in Hin|].
  cbn [for_each]. apply elem_of_cons in Hin as [->|Hin]; [by rewrite Hi|].
  destruct (Hall k s ltac:(left)) as [->|[s' ->]]; [done|].
  cbn [mbind result_bind]. apply IH; [done|done|]. intros k' s1 Hk'. apply Hall. by right.
Qed.

Lemma for_each_runs {S : Type} (body : nat -> S -> result S) (l : list nat) :
  (forall k s, k ∈ l -> exists s', body k s = Ok s') ->
  forall s, exists s', for_each body l s = Ok s'.
Proof.
  induction l as [|k l IH]; intros Hall s; [by exists s|].
  cbn [for_each]. destruct (Hall k s ltac:(left)) as [s' ->]. cbn [mbind result_bind].
  apply IH. intros k' s1 Hk'. apply Hall. by right.
Qed.

(** The second loop of the batch raises nothing, whatever the buckets. *)
Lemma batch_second_loop_runs (x y b c d : list T)
    (sampleArr : list (option (list (option T)))) :
  exists s',
    forEach sampleArr (fun xqSubArr i '(coefficients, results) =>
        let coefficients := cubicCoefficients y b c d i coefficients in
        poly ← createPolynomialFunction coefficients;
        results ←
          forEach xqSubArr (fun xq i results =>
              Ok (js_set results i (poly (xq - aref x i)%num)))
            results;
        Ok (coefficients, results))
      (Float64Array 4, [])
    = Ok s'.
Proof.
  destruct (forEach_ind (fun _ (s : list T * list (option T)) => length s.1 = 4) sampleArr
    (fun xqSubArr i '(coefficients, results) =>
        let coefficients := cubicCoefficients y b c d i coefficients in
        poly ← createPolynomialFunction coefficients;
        results ←
          forEach xqSubArr (fun xq i results =>
              Ok (js_set results i (poly (xq - aref x i)%num)))
            results;
        Ok (coefficients, results))
    (Float64Array 4, [])) as (s' & Hrun & _); [done| |done|by exists s'].
  intros i [coefficients results] bucket _ Hlen. cbn [fst] in Hlen. cbv zeta.
  rewrite (cubicCoefficients_buffer y b c d i coefficients Hlen).
  rewrite createPolynomialFunction_Ok by done. cbn [mbind result_bind].
  destruct (forEach_ind (fun _ (_ : list (option T)) => True) bucket
    (fun xq i0 results0 =>
       Ok (js_set results0 i0
             (polynomialOf [aref y i; aref b i; aref c i; aref d i] (xq - aref x i0)%num)))
    results) as (r & -> & _); [done| |done|].
  - intros i0 s v _ _. by eexists.
  - cbn [mbind result_bind]. by eexists.
Qed.

Lemma bucketQueries_step (x xq : list T) (n i : nat)
    (sampleArr : list (option (list (option T)))) :
  (Z.of_nat (length x) <= 2 ^ 31)%Z ->
  let body := fun i sampleArr =>
      idx ← Arrays_binarySearch x (aref xq i);
      let idx := Z.to_nat (segmentIndex idx n) in
      let sampleArr :=
        match sampleArr !! idx with
        | Some (Some _) => sampleArr
        | _ => js_set sampleArr idx []
        end in
      let bucket := default [] (mjoin (sampleArr !! idx)) in
      Ok (js_set sampleArr idx (js_set bucket i (aref xq i))) in
  (Arrays_binarySearch x (aref xq i) = Throw InvalidValueError
   /\ body i sampleArr = Throw InvalidValueError)
  \/ (Arrays_binarySearch x (aref xq i) <> Throw InvalidValueError
      /\ exists s', body i sampleArr = Ok s').
Proof.
  intros Hbound. cbv beta zeta.
  destruct (Arrays_binarySearch x (aref xq i)) as [r|e|] eqn:Hsearch.
  - right. split; [done|]. cbn [mbind result_bind]. eexists. reflexivity.
  - apply (binarySearch_loop_throws _ _ _ _ _) in Hsearch as ->. by left.
  - by apply Arrays_binarySearch_terminates in Hsearch.
Qed.

End BatchOutcome.

(** X21.  What [cubicSplineInterpolate] answers to any arrays of any
    numbers: the errors of the coefficient solver (DimensionMismatchError,
    then InsufficientPointsError below 3 points, then OrderError) whatever
    the queries; and for accepted samples (at most 2^31) it raises
    InvalidValueError when the search raises it for one of the queries,
    and returns an array otherwise. *)
Theorem cubicSplineInterpolate_outcome (T : Type) (N : Number T) (x y xq : list T) :
  (length x <> length y ->
   cubicSplineInterpolate x y xq = Throw DimensionMismatchError)
  /\ (length x = length y -> length x < 3 ->
      cubicSplineInterpolate x y xq = Throw InsufficientPointsError)
  /\ (length x = length y -> 3 <= length x ->
      MathArrays_checkOrder x = Throw OrderError ->
      cubicSplineInterpolate x y xq = Throw OrderError)
  /\ (length x = length y -> 3 <= length x ->
      MathArrays_checkOrder x = Ok tt -> (Z.of_nat (length x) <= 2 ^ 31)%Z ->
      ((exists j, j < length xq
                  /\ Arrays_binarySearch x (aref xq j) = Throw InvalidValueError) ->
       cubicSplineInterpolate x y xq = Throw InvalidValueError)
      /\ ((forall j, j < length xq ->
             Arrays_binarySearch x (aref xq j) <> Throw InvalidValueError) ->
          exists results, cubicSplineInterpolate x y xq = Ok results)).
Proof.
  split; [|split; [|split]].
  - intros Hlen. apply Nat.eqb_neq in Hlen.
    unfold cubicSplineInterpolate, computeCubicPolyCoefficients. by rewrite Hlen.
  - intros Hlen Hmin. unfold cubicSplineInterpolate, computeCubicPolyCoefficients.
    rewrite <- Hlen, Nat.eqb_refl. cbn [negb].
    by destruct (Nat.ltb_spec (length x) 3); [|lia].
  - intros Hlen Hmin Horder. unfold cubicSplineInterpolate, computeCubicPolyCoefficients.
    rewrite <- Hlen, Nat.eqb_refl. cbn [negb].
    destruct (Nat.ltb_spec (length x) 3); [lia|]. by rewrite Horder.
  - intros Hlen Hmin Horder Hbound. unfold cubicSplineInterpolate.
    destruct (computeCubicPolyCoefficients_shape x y Hlen Hmin Horder)
      as (b & c & d & -> & _). cbn [mbind result_bind]. cbv zeta.
    unfold bucketQueries. split.
    + intros (j & Hj & Hthrow).
      rewrite (for_each_throws _ InvalidValueError (seq 0 (length xq)) j); [done| | |].
      * apply elem_of_seq. lia.
      * intros s. by destruct (bucketQueries_step x xq (length x - 1) j s Hbound)
          as [[_ ?]|[? _]].
      * intros k s _. destruct (bucketQueries_step x xq (length x - 1) k s Hbound)
          as [[_ ?]|[_ ?]]; [by left|by right].
    + intros Hall.
      destruct (for_each_runs
        (fun i sampleArr =>
           idx ← Arrays_binarySearch x (aref xq i);
           let idx := Z.to_nat (segmentIndex idx (length x - 1)) in
           let sampleArr :=
             match sampleArr !! idx with
             | Some (Some _) => sampleArr
             | _ => js_set sampleArr idx []
             end in
           let bucket := default [] (mjoin (sampleArr !! idx)) in
           Ok (js_set sampleArr idx (js_set bucket i (aref xq i))))
        (seq 0 (length xq))) with (s := @nil (option (list (option T))))
        as (sampleArr & Hrun).
      { intros k s Hk%elem_of_seq.
        destruct (bucketQueries_step x xq (length x - 1) k s Hbound) as [[Hthrow _]|[_ ?]];
          [|done].
        by destruct (Hall k ltac:(lia)). }
      cbv zeta in Hrun. rewrite Hrun. cbn [mbind result_bind].
      destruct (batch_second_loop_runs x y b c d sampleArr) as ([c' results] & Hsecond).
      cbv zeta in Hsecond. rewrite Hsecond. cbn [mbind result_bind]. by eexists.
Qed.

(* ------------------------------------------------------------------ *)
(** ** NaN queries on doubles *)

Section IncomparableKey.
Context {T : Type} `{Number T}.

(** A key that compares with nothing stops the search at its first probe. *)
Lemma Arrays_binarySearch_incomparable_key (a : list T) (key : T) :
  a <> [] -> (forall v, incomparable v key = true) ->
  Arrays_binarySearch a key = Throw InvalidValueError.
Proof.
  intros Ha Hkey. unfold Arrays_binarySearch.
  destruct a as [|a0 a]; [done|]. cbn [length]. rewrite binarySearch_loop_unfold.
  destruct (Z.leb_spec 0 (Z.of_nat (S (length a)) - 1)) as [_|]; [|lia]. cbv zeta.
  specialize (Hkey (arefZ (a0 :: a) (ushr1 (0 + (Z.of_nat (S (length a)) - 1))))).
  unfold incomparable in Hkey.
  destruct (_ <? _)%num; [done|]. destruct (_ <? _)%num; [done|].
  by destruct (_ ==? _)%num.
Qed.

Lemma spline_query_throws (knots : list T) polynomials f q e :
  createPolynomialSplineFunction knots polynomials = Ok f ->
  Arrays_binarySearch knots q = Throw e -> f q = Throw e.
Proof.
  unfold createPolynomialSplineFunction.
  destruct (length knots <? 2)%nat; [done|].
  destruct (negb _); [done|].
  destruct (MathArrays_checkOrder knots); cbn [mbind result_bind]; try done.
  intros [= <-] ->. done.
Qed.

Lemma spline_tail_query_throws {S : Type} (loop : result (S * list (T -> T)))
    (knots : list T) f q e :
  ('(_, polynomials) ← loop; createPolynomialSplineFunction knots polynomials) = Ok f ->
  Arrays_binarySearch knots q = Throw e -> f q = Throw e.
Proof.
  destruct loop as [[s polynomials]| |]; cbn [mbind result_bind]; try done.
  apply spline_query_throws.
Qed.

(** An evaluator made from two points or more searches the knots first:
    an error of the search is the error of the evaluator. *)
Lemma evaluator_search_throws (k : constructor) (x y : list T) f q e :
  construct k x y = Ok f -> 2 <= length x ->
  Arrays_binarySearch x q = Throw e -> f q = Throw e.
Proof.
  intros Hf Hlen Hsearch. destruct k; cbn [construct] in Hf.
  - unfold createNearestNeighborInterpolator in Hf. cbv zeta in Hf.
    destruct (negb _); [done|].
    destruct (Nat.eqb_spec (length x) 0); [lia|].
    destruct (Nat.eqb_spec (length x) 1); [lia|].
    destruct (MathArrays_checkOrder x); cbn [mbind result_bind] in Hf; try done.
    injection Hf as <-. by rewrite Hsearch.
  - unfold createLinearInterpolator in Hf. cbv zeta in Hf.
    destruct (negb _); [done|]. destruct (_ <? _)%nat; [done|].
    destruct (MathArrays_checkOrder x); cbn [mbind result_bind] in Hf; try done.
    by eapply spline_tail_query_throws.
  - unfold createCubicSplineInterpolator in Hf.
    destruct (computeCubicPolyCoefficients x y) as [[[b c] d]| |];
      cbn [mbind result_bind] in Hf; try done.
    cbv zeta in Hf. by eapply spline_tail_query_throws.
  - unfold createAkimaSplineInterpolator in Hf. cbv zeta in Hf.
    destruct (negb _); [done|]. destruct (_ <? _)%nat; [done|].
    destruct (MathArrays_checkOrder x); cbn [mbind result_bind] in Hf; try done.
    unfold interpolateHermiteSorted in Hf. cbv zeta in Hf.
    destruct (_ || _); [done|]. destruct (_ <? _)%nat; [done|].
    by eapply spline_tail_query_throws.
Qed.

End IncomparableKey.

(** NaN on doubles: every comparison with it is false. *)
Lemma float_ltb_nan_r (v : float) : PrimFloat.ltb v PrimFloat.nan = false.
Proof.
  rewrite FloatAxioms.ltb_spec.
  change (FloatOps.Prim2SF PrimFloat.nan) with SpecFloat.S754_nan.
  unfold SpecFloat.SFltb, SpecFloat.SFcompare. by destruct (FloatOps.Prim2SF v) as [| | |[] ? ?].
Qed.

Lemma float_ltb_nan_l (v : float) : PrimFloat.ltb PrimFloat.nan v = false.
Proof.
  rewrite FloatAxioms.ltb_spec.
  change (FloatOps.Prim2SF PrimFloat.nan) with SpecFloat.S754_nan. done.
Qed.

Lemma float_eqb_nan_r (v : float) : PrimFloat.eqb v PrimFloat.nan = false.
Proof.
  rewrite FloatAxioms.eqb_spec.
  change (FloatOps.Prim2SF PrimFloat.nan) with SpecFloat.S754_nan.
  unfold SpecFloat.SFeqb, SpecFloat.SFcompare. by destruct (FloatOps.Prim2SF v) as [| | |[] ? ?].
Qed.

Lemma incomparable_float_nan (v : float) : incomparable v PrimFloat.nan = true.
Proof.
  unfold incomparable, ltb, eqb, float_Number.
  by rewrite float_ltb_nan_r, float_ltb_nan_l, float_eqb_nan_r.
Qed.

(** X22.  NaN queries on doubles: an evaluator made by any of the four
    constructors from 2 to 2^31 points raises InvalidValueError at NaN, and
    [cubicSplineInterpolate] raises it for a batch of queries that holds a
    NaN. *)
Theorem NaN_query_throws_on_doubles (k : constructor) (x y : list float)
    (f : float -> result float) :
  construct k x y = Ok f -> 2 <= length x -> (Z.of_nat (length x) <= 2 ^ 31)%Z ->
  f PrimFloat.nan = Throw InvalidValueError
  /\ (k = Cubic -> forall xq, PrimFloat.nan ∈ xq ->
        cubicSplineInterpolate x y xq = Throw InvalidValueError).
Proof.
  intros Hf Hlen Hbound.
  assert (Arrays_binarySearch x PrimFloat.nan = Throw InvalidValueError) as Hsearch.
  { apply Arrays_binarySearch_incomparable_key; [intros ->; simpl in Hlen; lia|].
    apply incomparable_float_nan. }
  split; [by apply (evaluator_search_throws k x y)|].
  intros -> xq (j & Hj)%list_elem_of_lookup. cbn [construct] in Hf.
  unfold createCubicSplineInterpolator in Hf. unfold cubicSplineInterpolate.
  destruct (computeCubicPolyCoefficients x y) as [[[b c] d]| |];
    cbn [mbind result_bind] in Hf |- *; try done.
  cbv zeta. unfold bucketQueries.
  assert (aref xq j = PrimFloat.nan) as Hq by (unfold aref; by rewrite Hj).
  rewrite (for_each_throws _ InvalidValueError (seq 0 (length xq)) j); [done| | |].
  - apply elem_of_seq. apply lookup_lt_Some in Hj. lia.
  - intros s. destruct (bucketQueries_step x xq (length x - 1) j s Hbound)
      as [[_ ?]|[Hno _]]; [done|]. by rewrite Hq in Hno.
  - intros i s _. destruct (bucketQueries_step x xq (length x - 1) i s Hbound)
      as [[_ ?]|[_ ?]]; [by left|by right].
Qed.

Lemma NaN_query_throws_on_doubles_witness :
  exists f,
    createCubicSplineInterpolator [0; 1; 2]%float [0; 1; 0]%float = Ok f
    /\ f PrimFloat.nan = Throw InvalidValueError
    /\ cubicSplineInterpolate [0; 1; 2]%float [0; 1; 0]%float [0.5; PrimFloat.nan]%float
       = Throw InvalidValueError.
Proof.
  destruct (createCubicSplineInterpolator [0; 1; 2]%float [0; 1; 0]%float) as [f| |] eqn:Hf;
    [|by vm_compute in Hf..].
  destruct (NaN_query_throws_on_doubles Cubic [0; 1; 2]%float [0; 1; 0]%float f Hf)
    as [Hnan Hbatch]; [simpl; lia..|].
  exists f. split; [done|]. split; [done|]. apply Hbatch; [done|].
  apply list_elem_of_lookup. by exists 1.
Defined.

(* ------------------------------------------------------------------ *)
(** ** Which error is raised in which phase *)

Section Phases.
Context {T : Type} `{Number T}.

(** The order check raises its error exactly when some element is not
    above its predecessor, as the comparison [<=] of the numbers has it. *)
Lemma checkOrder_from_adjacent rest : forall previous : T,
  checkOrder_from previous rest = Throw OrderError
  <-> exists i a b, (previous :: rest) !! i = Some a /\ (previous :: rest) !! (i + 1) = Some b
                    /\ (b <=? a)%num = true.
Proof.
  induction rest as [|v rest IH]; intros previous; cbn [checkOrder_from].
  - split; [done|]. intros (i & a & b & _ & Hb & _). by destruct i.
  - destruct (v <=? previous)%num eqn:Hle.
    + split; [|done]. intros _. by exists 0, previous, v.
    + rewrite IH. split.
      * intros (i & a & b & Ha & Hb & Hab). by exists (S i), a, b.
      * intros (i & a & b & Ha & Hb & Hab). destruct i as [|i].
        -- simpl in Ha, Hb. injection Ha as <-. injection Hb as <-. congruence.
        -- by exists i, a, b.
Qed.

Lemma checkOrder_adjacent (val : list T) :
  MathArrays_checkOrder val = Throw OrderError
  <-> exists i a b, val !! i = Some a /\ val !! (i + 1) = Some b /\ (b <=? a)%num = true.
Proof.
  destruct val as [|v0 rest]; [|apply checkOrder_from_adjacent].
  split; [done|]. by intros (i & a & b & Ha & _).
Qed.

Lemma checkOrder_ordered (val : list T) :
  (forall i a b, val !! i = Some a -> val !! (i + 1) = Some b -> (b <=? a)%num = false) ->
  MathArrays_checkOrder val = Ok tt.
Proof.
  intros Hall. destruct (checkOrder_outcome val) as [|Hthrow]; [done|].
  apply checkOrder_adjacent in Hthrow as (i & a & b & Ha & Hb & Hab).
  rewrite (Hall i a b Ha Hb) in Hab. done.
Qed.

(** An evaluator raises what its search raises, and nothing without it. *)
Lemma spline_query_throws_search (knots : list T) polynomials f q e :
  createPolynomialSplineFunction knots polynomials = Ok f ->
  f q = Throw e -> 2 <= length knots /\ Arrays_binarySearch knots q = Throw e.
Proof.
  unfold createPolynomialSplineFunction. cbv zeta.
  destruct (Nat.ltb_spec (length knots) 2) as [|Hlen]; [done|].
  destruct (negb _); [done|].
  destruct (MathArrays_checkOrder knots); cbn [mbind result_bind]; try done.
  intros [= <-].
  destruct (Arrays_binarySearch knots q); cbn [mbind result_bind]; try done.
  by intros [= <-].
Qed.

Lemma spline_tail_query_throws_search {S : Type} (loop : result (S * list (T -> T)))
    (knots : list T) f q e :
  ('(_, polynomials) ← loop; createPolynomialSplineFunction knots polynomials) = Ok f ->
  f q = Throw e -> 2 <= length knots /\ Arrays_binarySearch knots q = Throw e.
Proof.
  destruct loop as [[s polynomials]| |]; cbn [mbind result_bind]; try done.
  apply spline_query_throws_search.
Qed.

Lemma evaluator_throws_search (k : constructor) (x y : list T) f q e :
  construct k x y = Ok f -> f q = Throw e ->
  2 <= length x /\ Arrays_binarySearch x q = Throw e.
Proof.
  intros Hf. destruct k; cbn [construct] in Hf.
  - unfold createNearestNeighborInterpolator in Hf. cbv zeta in Hf.
    destruct (negb _); [done|].
    destruct (Nat.eqb_spec (length x) 0); [by injection Hf as <-|].
    destruct (Nat.eqb_spec (length x) 1); [by injection Hf as <-|].
    destruct (MathArrays_checkOrder x); cbn [mbind result_bind] in Hf; try done.
    injection Hf as <-.
    destruct (Arrays_binarySearch x q) as [i| |]; cbn [mbind result_bind]; try done.
    + repeat (match goal with |- context [if ?b then _ else _] => destruct b end); done.
    + intros [= <-]. split; [lia|done].
  - unfold createLinearInterpolator in Hf. cbv zeta in Hf.
    destruct (negb _); [done|]. destruct (_ <? _)%nat; [done|].
    destruct (MathArrays_checkOrder x); cbn [mbind result_bind] in Hf; try done.
    by eapply spline_tail_query_throws_search.
  - unfold createCubicSplineInterpolator in Hf.
    destruct (computeCubicPolyCoefficients x y) as [[[b c] d]| |];
      cbn [mbind result_bind] in Hf; try done.
    cbv zeta in Hf. by eapply spline_tail_query_throws_search.
  - unfold createAkimaSplineInterpolator in Hf. cbv zeta in Hf.
    destruct (negb _); [done|]. destruct (_ <? _)%nat; [done|].
    destruct (MathArrays_checkOrder x); cbn [mbind result_bind] in Hf; try done.
    unfold interpolateHermiteSorted in Hf. cbv zeta in Hf.
    destruct (_ || _); [done|]. destruct (_ <? _)%nat; [done|].
    by eapply spline_tail_query_throws_search.
Qed.

Lemma evaluator_throws_iff (k : constructor) (x y : list T) f q e :
  construct k x y = Ok f ->
  f q = Throw e <-> 2 <= length x /\ Arrays_binarySearch x q = Throw e.
Proof.
  intros Hf. split; [by apply (evaluator_throws_search k x y)|].
  intros [Hlen Hsearch]. by apply (evaluator_search_throws k x y).
Qed.

(** The two constructors underneath: what they raise, and when. *)
Lemma createPolynomialFunction_phase (c : list T) :
  (c = [] -> createPolynomialFunction c = Throw EmptyCoefficientsError)
  /\ (c <> [] -> exists p, createPolynomialFunction c = Ok p).
Proof.
  split; [by intros ->|]. intros Hc. unfold createPolynomialFunction. cbv zeta.
  destruct c; [done|]. cbn [length Nat.eqb]. by eexists.
Qed.

Lemma createPolynomialSplineFunction_phase (knots : list T) (polynomials : list (T -> T)) :
  (length knots < 2 ->
   createPolynomialSplineFunction knots polynomials = Throw InsufficientKnotsError)
  /\ (2 <= length knots -> length knots - 1 <> length polynomials ->
      createPolynomialSplineFunction knots polynomials = Throw DimensionMismatchError)
  /\ (2 <= length knots -> length knots - 1 = length polynomials ->
      MathArrays_checkOrder knots = Throw OrderError ->
      createPolynomialSplineFunction knots polynomials = Throw OrderError)
  /\ (2 <= length knots -> length knots - 1 = length polynomials ->
      MathArrays_checkOrder knots = Ok tt ->
      exists f, createPolynomialSplineFunction knots polynomials = Ok f
        /\ forall q e, f q = Throw e <-> Arrays_binarySearch knots q = Throw e).
Proof.
  unfold createPolynomialSplineFunction. cbv zeta.
  split; [|split; [|split]].
  - intros Hlen. by destruct (Nat.ltb_spec (length knots) 2); [|lia].
  - intros Hlen Hne. destruct (Nat.ltb_spec (length knots) 2); [lia|].
    apply Nat.eqb_neq in Hne. by rewrite Hne.
  - intros Hlen Heq Horder. destruct (Nat.ltb_spec (length knots) 2); [lia|].
    rewrite Heq, Nat.eqb_refl. cbn [negb]. by rewrite Horder.
  - intros Hlen Heq Horder. destruct (Nat.ltb_spec (length knots) 2); [lia|].
    rewrite Heq, Nat.eqb_refl. cbn [negb]. rewrite Horder. cbn [mbind result_bind].
    eexists. split; [reflexivity|]. intros q e. cbv beta.
    destruct (Arrays_binarySearch knots q); cbn [mbind result_bind]; [done| |done].
    split; by intros [= <-].
Qed.

End Phases.

(** C7.  The search raises InvalidValueError exactly when one of the
    elements it inspects is neither below, nor above, nor equal to the key
    (on the exact numbers: the element or the key is NaN), and raises no
    other error.

    The other errors come at construction, before an evaluator exists.
    Each of the four constructors raises DimensionMismatchError when the
    lengths differ; otherwise InsufficientPointsError below its least
    number of points; otherwise OrderError when some element of [x] is not
    above its predecessor; and otherwise returns an evaluator.  That
    evaluator raises an error at a query exactly when it has two knots or
    more and its search of [x] raises it, so it raises InvalidValueError
    and nothing else, and no constructor raises InvalidValueError.
    [createPolynomialFunction] raises EmptyCoefficientsError for the empty
    array, and returns a function otherwise;
    [createPolynomialSplineFunction] raises InsufficientKnotsError,
    DimensionMismatchError or OrderError, or returns an evaluator that
    raises what its search raises.

    On doubles, every evaluator made from two points or more raises
    InvalidValueError at the query NaN; the linear interpolator of
    [0,1],[0,1] answers 0.5 to 0.5 and raises it at NaN. *)
Theorem errors_by_phase :
  (forall (T : Type) (N : Number T) (a : list T) (key : T),
      (forall e, Arrays_binarySearch a key = Throw e -> e = InvalidValueError)
      /\ (Arrays_binarySearch a key = Throw InvalidValueError
          <-> exists mid, mid ∈ Arrays_probes a key
                          /\ incomparable (arefZ a mid) key = true))
  /\ (forall v key : xnum, incomparable v key = true <-> v = NaN \/ key = NaN)
  /\ (forall (T : Type) (N : Number T) (x y : list T),
        raisesAtConstructionOnly (createNearestNeighborInterpolator x y)
        /\ raisesAtConstructionOnly (createLinearInterpolator x y)
        /\ raisesAtConstructionOnly (createCubicSplineInterpolator x y)
        /\ raisesAtConstructionOnly (createAkimaSplineInterpolator x y))
  /\ (forall (T : Type) (N : Number T) (k : constructor) (x y : list T),
        (length x <> length y -> construct k x y = Throw DimensionMismatchError)
        /\ (length x = length y -> length x < minimumPoints k ->
            construct k x y = Throw InsufficientPointsError)
        /\ (length x = length y -> minimumPoints k <= length x ->
            (exists i a b, x !! i = Some a /\ x !! (i + 1) = Some b /\ (b <=? a)%num = true) ->
            construct k x y = Throw OrderError)
        /\ (length x = length y -> minimumPoints k <= length x ->
            (forall i a b, x !! i = Some a -> x !! (i + 1) = Some b -> (b <=? a)%num = false) ->
            exists f, construct k x y = Ok f
              /\ forall q e, f q = Throw e
                             <-> 2 <= length x /\ Arrays_binarySearch x q = Throw e))
  /\ (forall (T : Type) (N : Number T) (c : list T),
        (c = [] -> createPolynomialFunction c = Throw EmptyCoefficientsError)
        /\ (c <> [] -> exists p, createPolynomialFunction c = Ok p))
  /\ (forall (T : Type) (N : Number T) (knots : list T) (polynomials : list (T -> T)),
        (length knots < 2 ->
         createPolynomialSplineFunction knots polynomials = Throw InsufficientKnotsError)
        /\ (2 <= length knots -> length knots - 1 <> length polynomials ->
            createPolynomialSplineFunction knots polynomials = Throw DimensionMismatchError)
        /\ (2 <= length knots -> length knots - 1 = length polynomials ->
            MathArrays_checkOrder knots = Throw OrderError ->
            createPolynomialSplineFunction knots polynomials = Throw OrderError)
        /\ (2 <= length knots -> length knots - 1 = length polynomials ->
            MathArrays_checkOrder knots = Ok tt ->
            exists f, createPolynomialSplineFunction knots polynomials = Ok f
              /\ forall q e, f q = Throw e <-> Arrays_binarySearch knots q = Throw e))
  /\ (forall (k : constructor) (x y : list float) (f : float -> result float),
        construct k x y = Ok f -> 2 <= length x ->
        f PrimFloat.nan = Throw InvalidValueError)
  /\ (exists f, createLinearInterpolator [0; 1]%float [0; 1]%float = Ok f
                /\ f 0.5%float = Ok 0.5%float
                /\ f PrimFloat.nan = Throw InvalidValueError).
Proof.
  split; [|split; [|split; [|split; [|split; [|split; [|split]]]]]].
  - intros T N a key. apply binarySearch_loop_throws.
  - apply incomparable_xnum.
  - intros T N x y. split; [|split; [|split]].
    + apply createNearestNeighborInterpolator_raises.
    + apply createLinearInterpolator_raises.
    + apply createCubicSplineInterpolator_raises.
    + apply createAkimaSplineInterpolator_raises.
  - intros T N k x y. split; [|split; [|split]].
    + apply construct_mismatch.
    + apply construct_too_few.
    + intros Hlen Hmin Hbad. apply construct_disorder; [done..|].
      by apply checkOrder_adjacent.
    + intros Hlen Hmin Hgood.
      destruct (construct_accepts k x y Hlen Hmin (checkOrder_ordered x Hgood)) as [f Hf].
      exists f. split; [done|]. intros q e. by apply (evaluator_throws_iff k x y).
  - intros T N c. apply createPolynomialFunction_phase.
  - intros T N knots polynomials. apply createPolynomialSplineFunction_phase.
  - intros k x y f Hf Hlen. apply (evaluator_search_throws k x y); [done..|].
    apply Arrays_binarySearch_incomparable_key; [intros ->; simpl in Hlen; lia|].
    apply incomparable_float_nan.
  - eexists. split; [reflexivity|]. split; vm_compute; reflexivity.
Qed.
